(** * callfe: the WebRTC call component and its peer-connection manager

    A shallow embedding of [src/app/components/WebRTCCall.tsx]: the
    [PeerConnectionManager] class and the [WebRTCCall] component's
    handlers, with the statements of the specification settled on it.

    Modelling conventions.
    - The React state of the component, the [peerManagerRef] ref, and the
      two heaps of objects the code allocates ([PeerConnectionManager]
      instances and [RTCPeerConnection] instances) form one [State].
      Objects are referred to by their index in the heap, so a manager
      that is no longer referenced by [peerManagerRef] still exists and
      still owns its connection, as in JavaScript.
    - The browser is an external collaborator.  What it answers during
      one turn of the event loop (does [getUserMedia] resolve, what does
      [createOffer] resolve with, is a description or candidate accepted)
      is an input, the [Browser] record.  The general theorems assume
      nothing about these answers; the model only builds in that a
      method called on a closed connection fails and that a closed
      connection fires no event.
    - Every handler runs to completion: the [await]s of one handler
      resolve before the next event is handled.
    - Every call the code makes on the outside world is recorded, in
      program order, in a trace of [Effect]s: calls of [setCallStatus],
      [socket.emit], methods of a peer connection, console output.
    - The mute and camera toggles, the [srcObject] assignments of the
      two video elements and the clean-up on unmount touch no state
      modelled here and are left out. *)

From Stdlib Require Import String List Bool Arith Lia.
From stdpp Require Import base option list strings.
Import ListNotations.

Local Open Scope string_scope.
Local Open Scope list_scope.

(** ** Data *)

(** [type CallStatus]; [status_label] gives the literal of the source. *)
Inductive CallStatus :=
| Idle
| Connecting
| IncomingCall
| WaitingForAnswer
| Connected
| CallEnded
| MediaAccessDenied
| CallFailed.

Definition status_label (c : CallStatus) : string :=
  match c with
  | Idle => "Idle"
  | Connecting => "Connecting..."
  | IncomingCall => "Incoming Call"
  | WaitingForAnswer => "Waiting for answer..."
  | Connected => "Connected"
  | CallEnded => "Call Ended"
  | MediaAccessDenied => "Media Access Denied"
  | CallFailed => "Call Failed"
  end.

Definition CallStatus_eqb (a b : CallStatus) : bool :=
  match a, b with
  | Idle, Idle | Connecting, Connecting | IncomingCall, IncomingCall
  | WaitingForAnswer, WaitingForAnswer | Connected, Connected
  | CallEnded, CallEnded | MediaAccessDenied, MediaAccessDenied
  | CallFailed, CallFailed => true
  | _, _ => false
  end.

(** The browser's [RTCIceConnectionState]. *)
Inductive RTCIceConnectionState :=
| ice_new
| ice_checking
| ice_connected
| ice_completed
| ice_disconnected
| ice_failed
| ice_closed.

Definition ice_eqb (a b : RTCIceConnectionState) : bool :=
  match a, b with
  | ice_new, ice_new | ice_checking, ice_checking
  | ice_connected, ice_connected | ice_completed, ice_completed
  | ice_disconnected, ice_disconnected | ice_failed, ice_failed
  | ice_closed, ice_closed => true
  | _, _ => false
  end.

(** [RTCSessionDescriptionInit] and [RTCIceCandidateInit]: blobs the
    program passes on without looking inside. *)
Inductive RTCSdpType := sdp_offer | sdp_pranswer | sdp_answer | sdp_rollback.

Record RTCSessionDescriptionInit := mkSD {
  sd_type : RTCSdpType;
  sd_sdp : string
}.

Definition RTCIceCandidateInit : Type := string.

Definition MediaStreamTrack : Type := nat.

(** A [MediaStream] is the list of its tracks ([getTracks]). *)
Definition MediaStream : Type := list MediaStreamTrack.

(** [interface IncomingCallData]. *)
Record IncomingCallData := mkIncoming {
  offer : RTCSessionDescriptionInit;
  callerId : string
}.

(** JavaScript truthiness of a string: the empty string is falsy. *)
Definition truthy (s : string) : bool := negb (String.eqb s "").

(** [x || y] on a string and a possibly undefined string. *)
Definition or_else (a : string) (b : option string) : option string :=
  if truthy a then Some a else b.

(** ** The objects of the program *)

(** An [RTCPeerConnection], as far as the program can observe or change
    it.  [pc_this] is the manager captured as [this] by the three
    callbacks [initPeerConnection] installs on it ([None] until they are
    installed). *)
Record RTCPeerConnection := mkPC {
  pc_isClosed : bool;
  pc_localDescription : option RTCSessionDescriptionInit;
  pc_remoteDescription : option RTCSessionDescriptionInit;
  pc_iceConnectionState : RTCIceConnectionState;
  pc_senders : list MediaStreamTrack;
  pc_remoteCandidates : list RTCIceCandidateInit;
  pc_this : option nat
}.

(** The private fields of [class PeerConnectionManager].  The fields
    [socket], [setCallStatus] and [updateRemoteStream] are always the
    module's socket and the component's two setters. *)
Record PeerConnectionManager := mkManager {
  pcm_localStream : MediaStream;
  pcm_pc : option nat;
  pcm_isInitiator : bool;
  pcm_remotePeerId : option string
}.

(** The [useState] cells and the [peerManagerRef] of [WebRTCCall], and
    the two heaps. *)
Record State := mkState {
  currentId : string;
  targetId : string;
  localStream : option MediaStream;
  remoteStream : option MediaStream;
  callStatus : CallStatus;
  incomingCallData : option IncomingCallData;
  peerManagerRef : option nat;
  managers : list PeerConnectionManager;
  pcs : list RTCPeerConnection
}.

(** The component as first rendered. *)
Definition initial : State :=
  {| currentId := ""; targetId := ""; localStream := None;
     remoteStream := None; callStatus := Idle; incomingCallData := None;
     peerManagerRef := None; managers := []; pcs := [] |}.

(** ** What the program does to the outside world *)

Inductive PcCall :=
| New
| AddTrack (t : MediaStreamTrack)
| CreateOffer
| CreateAnswer
| SetLocalDescription (d : RTCSessionDescriptionInit)
| SetRemoteDescription (d : RTCSessionDescriptionInit)
| AddIceCandidate (c : RTCIceCandidateInit)
| Close.

(** Outbound socket messages: the event name and the payload of each
    [socket.emit]. *)
Inductive OutMsg :=
| call_user (offer : option RTCSessionDescriptionInit) (targetId : option string)
| answer_call (answer : option RTCSessionDescriptionInit) (targetId : option string)
| ice_candidate_out (candidate : RTCIceCandidateInit) (targetId : option string)
| call_end (targetId : string).

Inductive ConsoleLevel := console_log | console_warn | console_error.

Inductive Effect :=
| SetCallStatus (c : CallStatus)
| Emit (m : OutMsg)
| Pc (p : nat) (c : PcCall)
| GetUserMedia
| Console (l : ConsoleLevel) (text : string).

(** The answers of the browser during one turn. [None] and [false] stand
    for a rejected promise. *)
Record Browser := mkBrowser {
  getUserMedia : option MediaStream;
  createOffer_resolves : option RTCSessionDescriptionInit;
  createAnswer_resolves : option RTCSessionDescriptionInit;
  setLocalDescription_resolves : bool;
  setRemoteDescription_resolves : bool;
  addIceCandidate_resolves : bool
}.

(** ** The monad of handlers

    A computation reads and writes the [State], appends to the trace and
    either returns a value or throws ([None]). *)
Definition M (A : Type) : Type := State -> option A * State * list Effect.

Definition ret {A} (a : A) : M A := fun s => (Some a, s, []).

Definition bind {A B} (m : M A) (k : A -> M B) : M B :=
  fun s =>
    match m s with
    | (Some a, s1, t1) =>
        match k a s1 with (r, s2, t2) => (r, s2, t1 ++ t2) end
    | (None, s1, t1) => (None, s1, t1)
    end.

#[global] Instance M_ret : MRet M := @ret.
#[global] Instance M_bind : MBind M := fun A B k m => bind m k.

Definition throw {A} : M A := fun s => (None, s, []).

(** [try { body } catch (error) { handler }]. *)
Definition try_catch {A} (body handler : M A) : M A :=
  fun s =>
    match body s with
    | (Some a, s1, t1) => (Some a, s1, t1)
    | (None, s1, t1) =>
        match handler s1 with (r, s2, t2) => (r, s2, t1 ++ t2) end
    end.

Definition get : M State := fun s => (Some s, s, []).
Definition modify (f : State -> State) : M unit := fun s => (Some tt, f s, []).
Definition tell (e : Effect) : M unit := fun s => (Some tt, s, [e]).

(** The state and the trace a handler leaves; an exception that escapes
    an event handler is only reported by the browser. *)
Definition exec {A} (m : M A) (s : State) : State * list Effect :=
  match m s with (_, s', t) => (s', t) end.

(** ** Field updates *)

Definition with_currentId (v : string) (s : State) : State :=
  mkState v (targetId s) (localStream s) (remoteStream s) (callStatus s)
    (incomingCallData s) (peerManagerRef s) (managers s) (pcs s).
Definition with_targetId (v : string) (s : State) : State :=
  mkState (currentId s) v (localStream s) (remoteStream s) (callStatus s)
    (incomingCallData s) (peerManagerRef s) (managers s) (pcs s).
Definition with_localStream (v : option MediaStream) (s : State) : State :=
  mkState (currentId s) (targetId s) v (remoteStream s) (callStatus s)
    (incomingCallData s) (peerManagerRef s) (managers s) (pcs s).
Definition with_remoteStream (v : option MediaStream) (s : State) : State :=
  mkState (currentId s) (targetId s) (localStream s) v (callStatus s)
    (incomingCallData s) (peerManagerRef s) (managers s) (pcs s).
Definition with_callStatus (v : CallStatus) (s : State) : State :=
  mkState (currentId s) (targetId s) (localStream s) (remoteStream s) v
    (incomingCallData s) (peerManagerRef s) (managers s) (pcs s).
Definition with_incomingCallData (v : option IncomingCallData) (s : State) : State :=
  mkState (currentId s) (targetId s) (localStream s) (remoteStream s)
    (callStatus s) v (peerManagerRef s) (managers s) (pcs s).
Definition with_peerManagerRef (v : option nat) (s : State) : State :=
  mkState (currentId s) (targetId s) (localStream s) (remoteStream s)
    (callStatus s) (incomingCallData s) v (managers s) (pcs s).
Definition with_managers (v : list PeerConnectionManager) (s : State) : State :=
  mkState (currentId s) (targetId s) (localStream s) (remoteStream s)
    (callStatus s) (incomingCallData s) (peerManagerRef s) v (pcs s).
Definition with_pcs (v : list RTCPeerConnection) (s : State) : State :=
  mkState (currentId s) (targetId s) (localStream s) (remoteStream s)
    (callStatus s) (incomingCallData s) (peerManagerRef s) (managers s) v.

Definition pc_with_closed (c : RTCPeerConnection) : RTCPeerConnection :=
  mkPC true (pc_localDescription c) (pc_remoteDescription c) ice_closed
    (pc_senders c) (pc_remoteCandidates c) (pc_this c).
Definition pc_with_localDescription (d : RTCSessionDescriptionInit)
    (c : RTCPeerConnection) : RTCPeerConnection :=
  mkPC (pc_isClosed c) (Some d) (pc_remoteDescription c)
    (pc_iceConnectionState c) (pc_senders c) (pc_remoteCandidates c) (pc_this c).
Definition pc_with_remoteDescription (d : RTCSessionDescriptionInit)
    (c : RTCPeerConnection) : RTCPeerConnection :=
  mkPC (pc_isClosed c) (pc_localDescription c) (Some d)
    (pc_iceConnectionState c) (pc_senders c) (pc_remoteCandidates c) (pc_this c).
Definition pc_with_iceConnectionState (st : RTCIceConnectionState)
    (c : RTCPeerConnection) : RTCPeerConnection :=
  mkPC (pc_isClosed c) (pc_localDescription c) (pc_remoteDescription c) st
    (pc_senders c) (pc_remoteCandidates c) (pc_this c).
Definition pc_with_sender (t : MediaStreamTrack)
    (c : RTCPeerConnection) : RTCPeerConnection :=
  mkPC (pc_isClosed c) (pc_localDescription c) (pc_remoteDescription c)
    (pc_iceConnectionState c) (pc_senders c ++ [t]) (pc_remoteCandidates c)
    (pc_this c).
Definition pc_with_remoteCandidate (x : RTCIceCandidateInit)
    (c : RTCPeerConnection) : RTCPeerConnection :=
  mkPC (pc_isClosed c) (pc_localDescription c) (pc_remoteDescription c)
    (pc_iceConnectionState c) (pc_senders c) (pc_remoteCandidates c ++ [x])
    (pc_this c).
Definition pc_with_this (this : nat)
    (c : RTCPeerConnection) : RTCPeerConnection :=
  mkPC (pc_isClosed c) (pc_localDescription c) (pc_remoteDescription c)
    (pc_iceConnectionState c) (pc_senders c) (pc_remoteCandidates c)
    (Some this).

Definition pcm_with_pc (v : option nat)
    (m : PeerConnectionManager) : PeerConnectionManager :=
  mkManager (pcm_localStream m) v (pcm_isInitiator m) (pcm_remotePeerId m).
Definition pcm_with_isInitiator (v : bool)
    (m : PeerConnectionManager) : PeerConnectionManager :=
  mkManager (pcm_localStream m) (pcm_pc m) v (pcm_remotePeerId m).
Definition pcm_with_remotePeerId (v : option string)
    (m : PeerConnectionManager) : PeerConnectionManager :=
  mkManager (pcm_localStream m) (pcm_pc m) (pcm_isInitiator m) v.

(** ** The browser's side of a peer connection *)

(** [new RTCPeerConnection(ICE_SERVERS)]. *)
Definition fresh_pc : RTCPeerConnection :=
  mkPC false None None ice_new [] [] None.

Definition pc_new : M nat :=
  fun s =>
    let p := length (pcs s) in
    (Some p, with_pcs (pcs s ++ [fresh_pc]) s, [Pc p New]).

Definition pc_update (p : nat) (f : RTCPeerConnection -> RTCPeerConnection)
    : M unit :=
  modify (fun s => with_pcs (alter f p (pcs s)) s).

(** Whether connection [p] exists and has not been closed; every method
    below but [close] fails on a closed connection. *)
Definition pc_open (p : nat) (s : State) : bool :=
  match pcs s !! p with
  | Some c => negb (pc_isClosed c)
  | None => false
  end.

Definition pc_method {A} (p : nat) (call : PcCall) (resolves : option A)
    (f : RTCPeerConnection -> RTCPeerConnection) : M A :=
  fun s =>
    match resolves with
    | Some a =>
        if pc_open p s then (Some a, with_pcs (alter f p (pcs s)) s, [Pc p call])
        else (None, s, [Pc p call])
    | None => (None, s, [Pc p call])
    end.

Definition guard (b : bool) : option unit := if b then Some tt else None.

Definition pc_addTrack (p : nat) (t : MediaStreamTrack) : M unit :=
  pc_method p (AddTrack t) (Some tt) (pc_with_sender t).

Definition pc_createOffer (B : Browser) (p : nat) : M RTCSessionDescriptionInit :=
  pc_method p CreateOffer (createOffer_resolves B) (fun c => c).

Definition pc_createAnswer (B : Browser) (p : nat) : M RTCSessionDescriptionInit :=
  pc_method p CreateAnswer (createAnswer_resolves B) (fun c => c).

Definition pc_setLocalDescription (B : Browser) (p : nat)
    (d : RTCSessionDescriptionInit) : M unit :=
  pc_method p (SetLocalDescription d) (guard (setLocalDescription_resolves B))
    (pc_with_localDescription d).

Definition pc_setRemoteDescription (B : Browser) (p : nat)
    (d : RTCSessionDescriptionInit) : M unit :=
  pc_method p (SetRemoteDescription d) (guard (setRemoteDescription_resolves B))
    (pc_with_remoteDescription d).

Definition pc_addIceCandidate (B : Browser) (p : nat)
    (x : RTCIceCandidateInit) : M unit :=
  pc_method p (AddIceCandidate x) (guard (addIceCandidate_resolves B))
    (pc_with_remoteCandidate x).

(** [pc.close()] never fails and is idempotent. *)
Definition pc_close (p : nat) : M unit :=
  fun s => (Some tt, with_pcs (alter pc_with_closed p (pcs s)) s, [Pc p Close]).

(** Reading a property of a connection. *)
Definition pc_get {A} (p : nat) (f : RTCPeerConnection -> A) : M A :=
  fun s =>
    match pcs s !! p with
    | Some c => (Some (f c), s, [])
    | None => (None, s, [])
    end.

(** ** The component's setters and the socket *)

Definition setCallStatus (c : CallStatus) : M unit :=
  fun s => (Some tt, with_callStatus c s, [SetCallStatus c]).
Definition setRemoteStream (v : option MediaStream) : M unit :=
  modify (with_remoteStream v).
Definition setLocalStream (v : option MediaStream) : M unit :=
  modify (with_localStream v).
Definition setCurrentId (v : string) : M unit := modify (with_currentId v).
Definition setTargetId (v : string) : M unit := modify (with_targetId v).
Definition setIncomingCallData (v : option IncomingCallData) : M unit :=
  modify (with_incomingCallData v).

Definition socket_emit (m : OutMsg) : M unit := tell (Emit m).
Definition console (l : ConsoleLevel) (text : string) : M unit :=
  tell (Console l text).

(** ** class PeerConnectionManager *)

Module PeerConnectionManager.

(** [new PeerConnectionManager(socket, localStream, setCallStatus,
    updateRemoteStream)]: the field initialisers and the constructor. *)
Definition new (localStream : MediaStream) : M nat :=
  fun s =>
    let this := length (managers s) in
    (Some this,
     with_managers (managers s ++ [mkManager localStream None false None]) s,
     []).

Definition field {A} (this : nat) (f : PeerConnectionManager -> A) : M A :=
  fun s =>
    match managers s !! this with
    | Some m => (Some (f m), s, [])
    | None => (None, s, [])
    end.

Definition assign (this : nat)
    (f : PeerConnectionManager -> PeerConnectionManager) : M unit :=
  modify (fun s => with_managers (alter f this (managers s)) s).

(** [this.pc.] followed by a member: a [TypeError] when [this.pc] is
    [null]. *)
Definition the_pc (this : nat) : M nat :=
  pc ← field this pcm_pc;
  match pc with
  | Some p => mret p
  | None => throw
  end.

(** [this.remotePeerId] used as a condition. *)
Definition has_remotePeerId (this : nat) : M bool :=
  r ← field this pcm_remotePeerId;
  mret (match r with Some id => truthy id | None => false end).

(** [close()], lines 161-169. *)
Definition close (this : nat) : M unit :=
  pc ← field this pcm_pc;
  match pc with
  | Some p => pc_close p;; assign this (pcm_with_pc None)
  | None => mret tt
  end;;
  assign this (pcm_with_remotePeerId None);;
  setCallStatus Idle;;
  setRemoteStream None.

(** The three callbacks installed by [initPeerConnection], with the
    manager they capture. *)
Definition ontrack (this : nat) (stream0 : MediaStream) : M unit :=
  console console_log "Received remote track.";;
  setRemoteStream (Some stream0).

Definition onicecandidate (this : nat)
    (candidate : option RTCIceCandidateInit) : M unit :=
  has ← has_remotePeerId this;
  match candidate with
  | Some c =>
      if (has : bool) then
        console console_log "Sending ICE candidate to peer:";;
        r ← field this pcm_remotePeerId;
        socket_emit (ice_candidate_out c r)
      else mret tt
  | None => mret tt
  end.

Definition oniceconnectionstatechange (this : nat) : M unit :=
  pc ← field this pcm_pc;
  match pc with
  | None => mret tt
  | Some _ =>
      console console_log "ICE connection state:";;
      p ← the_pc this;
      st ← pc_get p pc_iceConnectionState;
      if ice_eqb st ice_connected then setCallStatus Connected
      else if ice_eqb st ice_disconnected || ice_eqb st ice_failed then
        setCallStatus CallEnded;;
        close this
      else mret tt
  end.

(** [localStream.getTracks().forEach(...)] of [initPeerConnection]. *)
Fixpoint addTracks (this : nat) (tracks : list MediaStreamTrack) : M unit :=
  match tracks with
  | [] => mret tt
  | track :: rest =>
      pc ← field this pcm_pc;
      match pc with
      | Some p => pc_addTrack p track
      | None => mret tt
      end;;
      addTracks this rest
  end.

(** [initPeerConnection(isInitiator, remotePeerId)], lines 53-97. *)
Definition initPeerConnection (this : nat) (isInitiator : bool)
    (remotePeerId : string) : M unit :=
  assign this (pcm_with_isInitiator isInitiator);;
  assign this (pcm_with_remotePeerId (Some remotePeerId));;
  pc ← field this pcm_pc;
  match pc with
  | Some old =>
      console console_warn "Existing peer connection found, closing it first.";;
      pc_close old
  | None => mret tt
  end;;
  p ← pc_new;
  assign this (pcm_with_pc (Some p));;
  setCallStatus Connecting;;
  stream ← field this pcm_localStream;
  addTracks this stream;;
  p ← the_pc this;
  pc_update p (pc_with_this this).

(** [createOffer()], lines 99-117. *)
Definition createOffer (B : Browser) (this : nat) : M unit :=
  pc ← field this pcm_pc;
  has ← has_remotePeerId this;
  if negb (bool_decide (is_Some pc)) || negb has then mret tt
  else
    try_catch
      (p ← the_pc this;
       offer ← pc_createOffer B p;
       p ← the_pc this;
       pc_setLocalDescription B p offer;;
       console console_log "Sending offer to peer:";;
       p ← the_pc this;
       localDescription ← pc_get p pc_localDescription;
       r ← field this pcm_remotePeerId;
       socket_emit (call_user localDescription r);;
       setCallStatus WaitingForAnswer)
      (console console_error "Error creating or sending offer:";;
       setCallStatus CallFailed).

(** [handleOffer(offer)], lines 119-138. *)
Definition handleOffer (B : Browser) (this : nat)
    (offer : RTCSessionDescriptionInit) : M unit :=
  pc ← field this pcm_pc;
  has ← has_remotePeerId this;
  if negb (bool_decide (is_Some pc)) || negb has then mret tt
  else
    try_catch
      (p ← the_pc this;
       pc_setRemoteDescription B p offer;;
       p ← the_pc this;
       answer ← pc_createAnswer B p;
       p ← the_pc this;
       pc_setLocalDescription B p answer;;
       console console_log "Sending answer back to caller:";;
       p ← the_pc this;
       localDescription ← pc_get p pc_localDescription;
       r ← field this pcm_remotePeerId;
       socket_emit (answer_call localDescription r);;
       setCallStatus Connected)
      (console console_error "Error handling offer or creating answer:";;
       setCallStatus CallFailed).

(** [handleAnswer(answer)], lines 140-149. *)
Definition handleAnswer (B : Browser) (this : nat)
    (answer : RTCSessionDescriptionInit) : M unit :=
  pc ← field this pcm_pc;
  if negb (bool_decide (is_Some pc)) then mret tt
  else
    try_catch
      (p ← the_pc this;
       pc_setRemoteDescription B p answer;;
       console console_log "Answer received and set.")
      (console console_error "Error handling answer:";;
       setCallStatus CallFailed).

(** [handleIceCandidate(candidate)], lines 151-159. *)
Definition handleIceCandidate (B : Browser) (this : nat)
    (candidate : RTCIceCandidateInit) : M unit :=
  pc ← field this pcm_pc;
  if negb (bool_decide (is_Some pc)) then mret tt
  else
    try_catch
      (p ← the_pc this;
       pc_addIceCandidate B p candidate;;
       console console_log "ICE candidate added.")
      (console console_error "Error adding ICE candidate:").

End PeerConnectionManager.

(** ** The component WebRTCCall *)

(** [navigator.mediaDevices.getUserMedia({ video: true, audio: true })]. *)
Definition mediaDevices_getUserMedia (B : Browser) : M MediaStream :=
  fun s => (getUserMedia B, s, [GetUserMedia]).

(** [getMedia], lines 186-199. *)
Definition getMedia (B : Browser) : M (option MediaStream) :=
  try_catch
    (stream ← mediaDevices_getUserMedia B;
     setLocalStream (Some stream);;
     mret (Some stream))
    (console console_error "Failed to get local media:";;
     setCallStatus MediaAccessDenied;;
     mret None).

(** [localStream || await getMedia()]. *)
Definition localStream_or_getMedia (B : Browser) (render : State)
    : M (option MediaStream) :=
  match localStream render with
  | Some stream => mret (Some stream)
  | None => getMedia B
  end.

(** [startCall], lines 256-272.  [render] is the state of the render
    whose closure the handler is: [targetId], [callStatus] and
    [localStream] are read from it. *)
Definition startCall (B : Browser) : M unit :=
  render ← get;
  if negb (truthy (targetId render)) then
    console console_error "Please enter a User ID to call.";;
    setCallStatus Idle
  else if CallStatus_eqb (callStatus render) Connected
          || CallStatus_eqb (callStatus render) WaitingForAnswer then mret tt
  else
    stream ← localStream_or_getMedia B render;
    match stream with
    | None => mret tt
    | Some stream =>
        manager ← PeerConnectionManager.new stream;
        modify (with_peerManagerRef (Some manager));;
        PeerConnectionManager.initPeerConnection manager true (targetId render);;
        PeerConnectionManager.createOffer B manager
    end.

(** [answerCall], lines 274-287. *)
Definition answerCall (B : Browser) : M unit :=
  render ← get;
  match incomingCallData render with
  | None => mret tt
  | Some data =>
      if negb (CallStatus_eqb (callStatus render) IncomingCall) then mret tt
      else
        stream ← localStream_or_getMedia B render;
        match stream with
        | None => mret tt
        | Some stream =>
            manager ← PeerConnectionManager.new stream;
            modify (with_peerManagerRef (Some manager));;
            PeerConnectionManager.initPeerConnection manager false (callerId data);;
            PeerConnectionManager.handleOffer B manager (offer data);;
            setIncomingCallData None
        end
  end.

(** [endCall], lines 289-304. *)
Definition endCall : M unit :=
  render ← get;
  match peerManagerRef render with
  | Some manager =>
      PeerConnectionManager.close manager;;
      modify (with_peerManagerRef None)
  | None => mret tt
  end;;
  match or_else (targetId render) (callerId <$> incomingCallData render) with
  | Some peerId =>
      if truthy peerId then socket_emit (call_end peerId) else mret tt
  | None => mret tt
  end;;
  setCallStatus CallEnded;;
  setRemoteStream None;;
  setTargetId "";;
  setIncomingCallData None.

(** The Reject button's [onClick], line 466. *)
Definition rejectCall : M unit :=
  setIncomingCallData None;;
  setCallStatus Idle.

(** *** The socket handlers registered by the first [useEffect]

    A payload is what the server sends with an event; [data_none] is a
    missing payload.  Each handler is written for the shape its
    TypeScript parameter declares ([id: string], [{ offer, callerId }],
    [{ answer }], [{ candidate }]). *)

Inductive Payload :=
| data_id (id : string)
| data_offer (offer : RTCSessionDescriptionInit) (callerId : string)
| data_answer (answer : RTCSessionDescriptionInit)
| data_candidate (candidate : option RTCIceCandidateInit)
| data_none.

Definition on_me (B : Browser) (data : Payload) : M unit :=
  match data with
  | data_id id =>
      setCurrentId id;;
      console console_log "My Socket ID:"
  | _ => mret tt
  end.

Definition on_call_made (B : Browser) (data : Payload) : M unit :=
  match data with
  | data_offer offer callerId =>
      console console_log "Incoming call offer from:";;
      setIncomingCallData (Some (mkIncoming offer callerId));;
      setCallStatus IncomingCall
  | _ => mret tt
  end.

Definition on_answer_made (B : Browser) (data : Payload) : M unit :=
  match data with
  | data_answer answer =>
      console console_log "Answer received from peer.";;
      s ← get;
      match peerManagerRef s with
      | Some manager => PeerConnectionManager.handleAnswer B manager answer
      | None => mret tt
      end
  | _ => mret tt
  end.

Definition on_ice_candidate (B : Browser) (data : Payload) : M unit :=
  match data with
  | data_candidate candidate =>
      s ← get;
      match peerManagerRef s, candidate with
      | Some manager, Some c =>
          PeerConnectionManager.handleIceCandidate B manager c
      | _, _ => mret tt
      end
  | _ => mret tt
  end.

(** The calls of [socket.on], lines 204-228: event name and handler. *)
Definition socket_on : list (string * (Browser -> Payload -> M unit)) :=
  [ ("me", on_me);
    ("call-made", on_call_made);
    ("answer-made", on_answer_made);
    ("ice-candidate", on_ice_candidate) ].

Fixpoint listener (name : string)
    (table : list (string * (Browser -> Payload -> M unit)))
    : option (Browser -> Payload -> M unit) :=
  match table with
  | [] => None
  | (n, h) :: rest => if String.eqb n name then Some h else listener name rest
  end.

(** The socket delivers an inbound event to the handler registered under
    its name, if there is one. *)
Definition socket_receive (B : Browser) (name : string) (data : Payload)
    : M unit :=
  match listener name socket_on with
  | Some handler => handler B data
  | None => mret tt
  end.

(** *** What the rendered page lets the user do *)

(** [disabled] of the Call button, line 405. *)
Definition call_disabled (s : State) : bool :=
  CallStatus_eqb (callStatus s) Connected
  || CallStatus_eqb (callStatus s) WaitingForAnswer.

(** [disabled] of the hang-up button, line 443. *)
Definition end_disabled (s : State) : bool :=
  CallStatus_eqb (callStatus s) Idle
  || CallStatus_eqb (callStatus s) CallEnded.

(** The condition under which the incoming-call dialog, with its Answer
    and Reject buttons, is rendered, line 452. *)
Definition dialog_shown (s : State) : bool :=
  bool_decide (is_Some (incomingCallData s))
  && CallStatus_eqb (callStatus s) IncomingCall.

(** *** Events from the browser on a connection

    The browser fires no event on a closed connection, reports an ICE
    state only when it changes, and reports [closed] only through
    [close()]. *)
Definition fire (p : nat) (handler : nat -> M unit) : M unit :=
  s ← get;
  match pcs s !! p with
  | Some c =>
      if pc_isClosed c then mret tt
      else match pc_this c with
           | Some this => handler this
           | None => mret tt
           end
  | None => mret tt
  end.

Definition ice_state_changes (p : nat) (st : RTCIceConnectionState) : M unit :=
  s ← get;
  match pcs s !! p with
  | Some c =>
      if pc_isClosed c || ice_eqb (pc_iceConnectionState c) st
         || ice_eqb st ice_closed
      then mret tt
      else
        pc_update p (pc_with_iceConnectionState st);;
        fire p PeerConnectionManager.oniceconnectionstatechange
  | None => mret tt
  end.

(** ** The event loop *)

Inductive Event :=
| TypeTargetId (v : string)
| ClickCall
| ClickAnswer
| ClickReject
| ClickEnd
| Socket (name : string) (data : Payload)
| RemoteTrack (p : nat) (stream0 : MediaStream)
| LocalCandidate (p : nat) (candidate : option RTCIceCandidateInit)
| IceConnectionState (p : nat) (st : RTCIceConnectionState).

Definition handle (B : Browser) (e : Event) : M unit :=
  match e with
  | TypeTargetId v => setTargetId v
  | ClickCall => s ← get; if call_disabled s then mret tt else startCall B
  | ClickAnswer => s ← get; if dialog_shown s then answerCall B else mret tt
  | ClickReject => s ← get; if dialog_shown s then rejectCall else mret tt
  | ClickEnd => s ← get; if end_disabled s then mret tt else endCall
  | Socket name data => socket_receive B name data
  | RemoteTrack p stream0 =>
      fire p (fun this => PeerConnectionManager.ontrack this stream0)
  | LocalCandidate p candidate =>
      fire p (fun this => PeerConnectionManager.onicecandidate this candidate)
  | IceConnectionState p st => ice_state_changes p st
  end.

(** One turn: the state and the trace an event leaves. *)
Definition step (B : Browser) (e : Event) (s : State) : State * list Effect :=
  exec (handle B e) s.

(** A run: the turns in order, each with the browser's answers during
    it; the traces are concatenated. *)
Fixpoint run (turns : list (Browser * Event)) (s : State)
    : State * list Effect :=
  match turns with
  | [] => (s, [])
  | (B, e) :: rest =>
      match step B e s with
      | (s1, t1) =>
          match run rest s1 with (s2, t2) => (s2, t1 ++ t2) end
      end
  end.

(** ** Observations on states and traces *)

(** The arguments of the calls of [setCallStatus], in order. *)
Fixpoint status_writes (t : list Effect) : list CallStatus :=
  match t with
  | [] => []
  | SetCallStatus c :: rest => c :: status_writes rest
  | _ :: rest => status_writes rest
  end.

Fixpoint emitted (t : list Effect) : list OutMsg :=
  match t with
  | [] => []
  | Emit m :: rest => m :: emitted rest
  | _ :: rest => emitted rest
  end.

(** The calls made on connection [p], in order. *)
Fixpoint calls_on (p : nat) (t : list Effect) : list PcCall :=
  match t with
  | [] => []
  | Pc q c :: rest =>
      if Nat.eqb q p then c :: calls_on p rest else calls_on p rest
  | _ :: rest => calls_on p rest
  end.

(** The connections that exist and are not closed: the live Transport
    Sessions. *)
Definition live (s : State) : list RTCPeerConnection :=
  filter (fun c => pc_isClosed c = false) (pcs s).

(** The heap is well formed when [peerManagerRef] points to a manager
    that exists and every open connection with callbacks is the current
    connection of the manager its callbacks capture. *)
Definition wf (s : State) : Prop :=
  (forall m, peerManagerRef s = Some m -> m < length (managers s)) /\
  (forall p c m,
      pcs s !! p = Some c -> pc_isClosed c = false -> pc_this c = Some m ->
      exists mgr, managers s !! m = Some mgr /\ pcm_pc mgr = Some p).

(** ** Two peers and a browser that grants everything *)

Definition camera_and_mic : MediaStream := [0; 1].
Definition local_offer := mkSD sdp_offer "v=0 local offer".
Definition local_answer := mkSD sdp_answer "v=0 local answer".
Definition remote_offer := mkSD sdp_offer "v=0 remote offer".
Definition remote_answer := mkSD sdp_answer "v=0 remote answer".
Definition second_answer := mkSD sdp_answer "v=0 second answer".
Definition host_candidate : RTCIceCandidateInit :=
  "candidate:1 1 udp 2122260223 192.0.2.1 54321 typ host".

Definition granting : Browser :=
  {| getUserMedia := Some camera_and_mic;
     createOffer_resolves := Some local_offer;
     createAnswer_resolves := Some local_answer;
     setLocalDescription_resolves := true;
     setRemoteDescription_resolves := true;
     addIceCandidate_resolves := true |}.

(** The browser while no remote description is set: [addIceCandidate]
    rejects with [InvalidStateError]. *)
Definition no_remote_description_yet : Browser :=
  {| getUserMedia := Some camera_and_mic;
     createOffer_resolves := Some local_offer;
     createAnswer_resolves := Some local_answer;
     setLocalDescription_resolves := true;
     setRemoteDescription_resolves := true;
     addIceCandidate_resolves := false |}.

(** The browser once the negotiation is complete (signalling state
    [stable]): a further answer is rejected with [InvalidStateError]. *)
Definition already_stable : Browser :=
  {| getUserMedia := Some camera_and_mic;
     createOffer_resolves := Some local_offer;
     createAnswer_resolves := Some local_answer;
     setLocalDescription_resolves := true;
     setRemoteDescription_resolves := false;
     addIceCandidate_resolves := true |}.

(** The user refuses camera and microphone. *)
Definition denying : Browser :=
  {| getUserMedia := None;
     createOffer_resolves := Some local_offer;
     createAnswer_resolves := Some local_answer;
     setLocalDescription_resolves := true;
     setRemoteDescription_resolves := true;
     addIceCandidate_resolves := true |}.

(** The initiator calls "B" and the offer is sent. *)
Definition calling_B : list (Browser * Event) :=
  [ (granting, TypeTargetId "B"); (granting, ClickCall) ].

(** ... the answer arrives and the transport connects. *)
Definition connected_to_B : list (Browser * Event) :=
  calling_B ++
  [ (granting, Socket "answer-made" (data_answer remote_answer));
    (granting, IceConnectionState 0 ice_connected) ].

(** An offer from "A" arrives at an idle page. *)
Definition ringing_from_A : list (Browser * Event) :=
  [ (granting, Socket "call-made" (data_offer remote_offer "A")) ].

Definition state_after (turns : list (Browser * Event)) : State :=
  fst (run turns initial).

Definition trace_of (turns : list (Browser * Event)) : list Effect :=
  snd (run turns initial).

(** ** Further runs *)

(** The page rings while a call with "B" is connected. *)
Definition ringing_while_connected : list (Browser * Event) :=
  connected_to_B ++
  [ (granting, Socket "call-made" (data_offer remote_offer "C")) ].

(** The page rings, the user clicks Answer and then refuses camera and
    microphone. *)
Definition ringing_then_media_denied : list (Browser * Event) :=
  ringing_from_A ++ [ (denying, ClickAnswer) ].

(** The remote peer's end-of-call message reaches a connected page. *)
Definition remote_hangs_up : list (Browser * Event) :=
  connected_to_B ++ [ (granting, Socket "call-end" data_none) ].

(** The user of the connected page hangs up. *)
Definition local_hangs_up : list (Browser * Event) :=
  connected_to_B ++ [ (granting, ClickEnd) ].

(** The responder answers the ringing call. *)
Definition answering_A : list (Browser * Event) :=
  ringing_from_A ++ [ (granting, ClickAnswer) ].

(** A candidate of the callee reaches the initiator before the answer
    does; [B] is the browser's reaction to the early candidate. *)
Definition early_candidate (B : Browser) : list (Browser * Event) :=
  calling_B ++
  [ (B, Socket "ice-candidate" (data_candidate (Some host_candidate)));
    (granting, Socket "answer-made" (data_answer remote_answer)) ].

(** A second answer reaches the connected initiator; [B] is the
    browser's reaction to it. *)
Definition answered_twice (B : Browser) : list (Browser * Event) :=
  connected_to_B ++
  [ (B, Socket "answer-made" (data_answer second_answer)) ].

(** The transport of the connected call fails. *)
Definition transport_fails : list (Browser * Event) :=
  connected_to_B ++ [ (granting, IceConnectionState 0 ice_failed) ].

(** During the connected call with "B" an offer from "C" arrives and
    the user answers it. *)
Definition second_call : list (Browser * Event) :=
  ringing_while_connected ++ [ (granting, ClickAnswer) ].

(** ** Assertions about handlers *)

(** [only Φ m]: whatever the state, every effect of [m] satisfies [Φ]. *)
Definition only {A} (Φ : Effect -> Prop) (m : M A) : Prop :=
  forall s, Forall Φ (snd (m s)).

Definition not_connected (e : Effect) : Prop := e <> SetCallStatus Connected.

Definition no_close (e : Effect) : Prop := forall p, e <> Pc p Close.

(** [hoare P m Q E]: from a state that satisfies [P], [m] returns a
    value and a state that satisfy [Q], or throws in a state that
    satisfies [E]. *)
Definition hoare {A} (P : State -> Prop) (m : M A)
    (Q : A -> State -> Prop) (E : State -> Prop) : Prop :=
  forall s, P s ->
    match m s with
    | (Some a, s', _) => Q a s'
    | (None, s', _) => E s'
    end.

Definition preserves {A} (P : State -> Prop) (m : M A) : Prop :=
  hoare P m (fun _ => P) P.

(** The part of the heap that [wf] speaks about: where [peerManagerRef]
    points, the connection of each manager, and for each connection
    whether it is closed and whose callbacks it carries. *)
Definition Shape : Type :=
  option nat * list (option nat) * list (bool * option nat).

Definition shape (s : State) : Shape :=
  (peerManagerRef s,
   pcm_pc <$> managers s,
   (fun c => (pc_isClosed c, pc_this c)) <$> pcs s).

Definition keeps_shape {A} (m : M A) : Prop :=
  forall s, shape (snd (fst (m s))) = shape s.

Definition respects_shape (P : State -> Prop) : Prop :=
  forall s s', shape s = shape s' -> P s -> P s'.

(** No open connection carries callbacks of manager [this]. *)
Definition quiet (this : nat) (s : State) : Prop :=
  forall p c,
    pcs s !! p = Some c -> pc_isClosed c = false -> pc_this c <> Some this.

(** Connection [p] is the current connection of manager [this]. *)
Definition owns (this p : nat) (s : State) : Prop :=
  exists mgr, managers s !! this = Some mgr /\ pcm_pc mgr = Some p.

Definition exists_manager (this : nat) (s : State) : Prop :=
  this < length (managers s).

(** [wf], [quiet] and [owns] read off the shape. *)
Definition wf_shape (σ : Shape) : Prop :=
  match σ with
  | (ref, ms, ps) =>
      (forall m, ref = Some m -> m < length ms) /\
      (forall p m, ps !! p = Some (false, Some m) -> ms !! m = Some (Some p))
  end.

Definition quiet_shape (this : nat) (σ : Shape) : Prop :=
  match σ with
  | (_, _, ps) => forall p, ps !! p <> Some (false, Some this)
  end.

Definition owns_shape (this p : nat) (σ : Shape) : Prop :=
  match σ with
  | (_, ms, _) => ms !! this = Some (Some p)
  end.

(** ** Parts of methods, named for the lemmas below *)

(** The heap after [close()] on manager [this], whose fields were
    [mgr]. *)
Definition closed (this : nat) (mgr : PeerConnectionManager) (s : State)
    : State :=
  with_remoteStream None
    (with_callStatus Idle
       (with_managers
          (alter (pcm_with_remotePeerId None) this
             (match pcm_pc mgr with
              | Some _ => alter (pcm_with_pc None) this (managers s)
              | None => managers s
              end))
          (match pcm_pc mgr with
           | Some p => with_pcs (alter pc_with_closed p (pcs s)) s
           | None => s
           end))).

(** The last four setters of [endCall]. *)
Definition ended (s : State) : State :=
  with_incomingCallData None
    (with_targetId "" (with_remoteStream None (with_callStatus CallEnded s))).

(** What [endCall] emits: [call-end] to the typed target or else to the
    pending caller, if either is a non-empty string. *)
Definition end_notice (render : State) : list Effect :=
  match or_else (targetId render) (callerId <$> incomingCallData render) with
  | Some peerId => if truthy peerId then [Emit (call_end peerId)] else []
  | None => []
  end.

(** [initPeerConnection] from [this.pc = new RTCPeerConnection(...)]
    on, that is, after the guard that closes an existing connection. *)
Definition initPeerConnection_from_new (this : nat) : M unit :=
  p ← pc_new;
  PeerConnectionManager.assign this (pcm_with_pc (Some p));;
  setCallStatus Connecting;;
  stream ← PeerConnectionManager.field this pcm_localStream;
  PeerConnectionManager.addTracks this stream;;
  p ← PeerConnectionManager.the_pc this;
  pc_update p (pc_with_this this).


(** ** The state a new call starts from *)

(** The connection [initPeerConnection] leaves behind: open, without
    descriptions, with the tracks of the local stream attached and the
    callbacks of manager [this] installed. *)
Definition connection_of (this : nat) (stream : MediaStream)
    : RTCPeerConnection :=
  mkPC false None None ice_new stream [] (Some this).

(** The page after [new PeerConnectionManager(...)], the assignment to
    [peerManagerRef] and [initPeerConnection(isInitiator, remotePeerId)]:
    one more manager and one more connection. *)
Definition prepared (stream : MediaStream) (isInitiator : bool)
    (remotePeerId : string) (s : State) : State :=
  with_pcs
    (pcs s ++ [connection_of (length (managers s)) stream])
    (with_callStatus Connecting
       (with_managers
          (managers s ++
           [mkManager stream (Some (length (pcs s))) isInitiator
              (Some remotePeerId)])
          (with_peerManagerRef (Some (length (managers s))) s))).

Definition prepare_trace (p : nat) (stream : MediaStream) : list Effect :=
  Pc p New :: SetCallStatus Connecting ::
  map (fun t => Pc p (AddTrack t)) stream.

(** [tracks] attached to a connection, after those it has. *)
Definition pc_with_senders (tracks : list MediaStreamTrack)
    (c : RTCPeerConnection) : RTCPeerConnection :=
  mkPC (pc_isClosed c) (pc_localDescription c) (pc_remoteDescription c)
    (pc_iceConnectionState c) (pc_senders c ++ tracks)
    (pc_remoteCandidates c) (pc_this c).

(** The calls of [getUserMedia] a handler makes before it has a stream:
    none when the page already holds one. *)
Definition acquisition (s : State) : list Effect :=
  match localStream s with
  | Some _ => []
  | None => [GetUserMedia]
  end.

(** The local stream a handler works with: the one the page holds, or
    else the one [getUserMedia] resolves with. *)
Definition stream_for (B : Browser) (s : State) : option MediaStream :=
  match localStream s with
  | Some stream => Some stream
  | None => getUserMedia B
  end.

(** A browser that fails to create an offer. *)
Definition without_offer : Browser :=
  {| getUserMedia := Some camera_and_mic;
     createOffer_resolves := None;
     createAnswer_resolves := Some local_answer;
     setLocalDescription_resolves := true;
     setRemoteDescription_resolves := true;
     addIceCandidate_resolves := true |}.

(** The user has typed the identifier of "B". *)
Definition typed_B : list (Browser * Event) :=
  [ (granting, TypeTargetId "B") ].

(** An offer arrives whose sender identifier is empty. *)
Definition ringing_from_nobody : list (Browser * Event) :=
  [ (granting, Socket "call-made" (data_offer remote_offer "")) ].

(** The connection [peerManagerRef.current.pc] designates, if the ref,
    the manager and its [pc] are all set. *)
Definition current_connection (s : State) : option nat :=
  m ← peerManagerRef s; mgr ← managers s !! m; pcm_pc mgr.

(** The manager has a peer identifier that is a non-empty string. *)
Definition usable_peer (mgr : PeerConnectionManager) : option string :=
  match pcm_remotePeerId mgr with
  | Some peer => if truthy peer then Some peer else None
  | None => None
  end.

Definition no_emit (e : Effect) : Prop := forall m, e <> Emit m.

(** The messages a turn may send, by the event it handles. *)
Definition sends (e : Event) (msg : OutMsg) : Prop :=
  match e, msg with
  | ClickCall, call_user _ _ => True
  | ClickAnswer, answer_call _ _ => True
  | ClickEnd, call_end _ => True
  | LocalCandidate _ (Some x), ice_candidate_out y _ => x = y
  | _, _ => False
  end.

(** The calls a turn may make on the browser, by the event it handles. *)
Definition calls (e : Event) (eff : Effect) : Prop :=
  match eff with
  | GetUserMedia | Pc _ New | Pc _ (AddTrack _)
  | Pc _ (SetLocalDescription _) => e = ClickCall \/ e = ClickAnswer
  | Pc _ CreateOffer => e = ClickCall
  | Pc _ CreateAnswer => e = ClickAnswer
  | Pc _ (SetRemoteDescription d) =>
      e = ClickAnswer \/ e = Socket "answer-made" (data_answer d)
  | Pc _ (AddIceCandidate x) =>
      e = Socket "ice-candidate" (data_candidate (Some x))
  | Pc _ Close => e = ClickEnd \/ exists p st, e = IceConnectionState p st
  | _ => True
  end.

Definition sends_only (e : Event) (eff : Effect) : Prop :=
  forall msg, eff = Emit msg -> sends e msg.

(** The state after [reject]. *)
Definition rejected (s : State) : State :=
  with_callStatus Idle (with_incomingCallData None s).

Definition ringing (o : RTCSessionDescriptionInit) (c : string)
    (B B' : Browser) : list (Browser * Event) :=
  [(B, Socket "call-made" (data_offer o c)); (B', ClickReject)].

(** [calls] without its row for [close()]. *)
Definition calls_but_close (e : Event) (eff : Effect) : Prop :=
  match eff with
  | Pc _ Close => True
  | _ => calls e eff
  end.

(** ** Relations between the state before and after a handler *)

(** [along R m]: whatever the state and the outcome, [m] leaves a state
    related by [R] to the one it started in. *)
Definition along {A} (R : State -> State -> Prop) (m : M A) : Prop :=
  forall s, R s (snd (fst (m s))).

(** [keeps f]: the observation [f] of the state is the same afterwards. *)
Definition keeps {A} (f : State -> A) (s s' : State) : Prop := f s' = f s.

(** What is left of a connection once it is closed: it stays closed and
    keeps its descriptions, senders and candidates. *)
Definition frozen (c c' : RTCPeerConnection) : Prop :=
  pc_isClosed c' = true /\
  pc_localDescription c' = pc_localDescription c /\
  pc_remoteDescription c' = pc_remoteDescription c /\
  pc_senders c' = pc_senders c /\
  pc_remoteCandidates c' = pc_remoteCandidates c.

(** The heaps only grow: every connection and manager is still there, a
    closed connection is frozen, a manager keeps the stream it was
    constructed with, and the page keeps its local stream once it has
    one. *)
Definition grows (s s' : State) : Prop :=
  (forall p c, pcs s !! p = Some c ->
     exists c', pcs s' !! p = Some c' /\
                (pc_isClosed c = true -> frozen c c')) /\
  (forall m mgr, managers s !! m = Some mgr ->
     exists mgr', managers s' !! m = Some mgr' /\
                  pcm_localStream mgr' = pcm_localStream mgr) /\
  (forall stream, localStream s = Some stream ->
                  localStream s' = Some stream).

(** The sizes of the two heaps. *)
Definition sizes (s : State) : nat * nat :=
  (length (managers s), length (pcs s)).

Definition no_acquisition (e : Effect) : Prop := e <> GetUserMedia.

(** Every manager's current connection is open, and no two managers
    have the same current connection. *)
Definition tidy (s : State) : Prop :=
  (forall m mgr p,
      managers s !! m = Some mgr -> pcm_pc mgr = Some p ->
      pc_open p s = true) /\
  (forall m m' mgr mgr' p,
      managers s !! m = Some mgr -> managers s !! m' = Some mgr' ->
      pcm_pc mgr = Some p -> pcm_pc mgr' = Some p -> m = m').

(** [upholds P]: if [P] held before, it holds afterwards. *)
Definition upholds (P : State -> Prop) (s s' : State) : Prop := P s -> P s'.

(** What a call on the browser may address in a turn that starts in
    state [s]: a connection that is open at the start of the turn, or
    the connection the turn creates. *)
Definition touches (s : State) (e : Effect) : Prop :=
  match e with
  | Pc q _ => pc_open q s = true \/ q = length (pcs s)
  | _ => True
  end.

(** The user hangs up the second call; then the transport of the
    first call, which [answerCall] left open, reports a failure. *)
Definition ended_second_call : list (Browser * Event) :=
  second_call ++ [ (granting, ClickEnd) ].

Definition orphan_fails_after_end : list (Browser * Event) :=
  ended_second_call ++ [ (granting, IceConnectionState 0 ice_failed) ].

(** ** The microphone and camera buttons

    [toggleMic] and [toggleCam], lines 306-324, work on the tracks of
    the local stream and on two flags of their own.  A track is an
    object of the browser with a kind and an [enabled] property; the
    stream holds references to its tracks. *)
Module Media.

Inductive TrackKind := audio | video.

Definition TrackKind_eqb (a b : TrackKind) : bool :=
  match a, b with
  | audio, audio | video, video => true
  | _, _ => false
  end.

Record Track := mkTrack { kind : TrackKind; enabled : bool }.

Record Page := mkPage {
  tracks : list Track;
  localStream : option (list nat);
  isMicMuted : bool;
  isCamOff : bool
}.

Definition with_tracks (v : list Track) (p : Page) : Page :=
  mkPage v (localStream p) (isMicMuted p) (isCamOff p).
Definition setIsMicMuted (v : bool) (p : Page) : Page :=
  mkPage (tracks p) (localStream p) v (isCamOff p).
Definition setIsCamOff (v : bool) (p : Page) : Page :=
  mkPage (tracks p) (localStream p) (isMicMuted p) v.

Definition has_kind (k : TrackKind) (p : Page) (t : nat) : bool :=
  match tracks p !! t with
  | Some tr => TrackKind_eqb (kind tr) k
  | None => false
  end.

(** [stream.getAudioTracks()] and [stream.getVideoTracks()]. *)
Definition getAudioTracks (p : Page) (stream : list nat) : list nat :=
  List.filter (has_kind audio p) stream.
Definition getVideoTracks (p : Page) (stream : list nat) : list nat :=
  List.filter (has_kind video p) stream.

(** [track.enabled]. *)
Definition track_enabled (p : Page) (t : nat) : bool :=
  match tracks p !! t with
  | Some tr => enabled tr
  | None => false
  end.

Definition flip (tr : Track) : Track := mkTrack (kind tr) (negb (enabled tr)).

(** [track.enabled = !track.enabled]. *)
Definition flip_enabled (t : nat) (p : Page) : Page :=
  with_tracks (alter flip t (tracks p)) p.

(** [toggleMic], lines 306-314. *)
Definition toggleMic (p : Page) : Page :=
  match localStream p with
  | Some stream =>
      match head (getAudioTracks p stream) with
      | Some audioTrack =>
          let p1 := flip_enabled audioTrack p in
          setIsMicMuted (negb (track_enabled p1 audioTrack)) p1
      | None => p
      end
  | None => p
  end.

(** [toggleCam], lines 316-324. *)
Definition toggleCam (p : Page) : Page :=
  match localStream p with
  | Some stream =>
      match head (getVideoTracks p stream) with
      | Some videoTrack =>
          let p1 := flip_enabled videoTrack p in
          setIsCamOff (negb (track_enabled p1 videoTrack)) p1
      | None => p
      end
  | None => p
  end.

(** The first audio and the first video track of the local stream. *)
Definition audioTrack (p : Page) : option nat :=
  stream ← localStream p; head (getAudioTracks p stream).
Definition videoTrack (p : Page) : option nat :=
  stream ← localStream p; head (getVideoTracks p stream).

(** A page with a camera and a microphone, both enabled. *)
Definition streaming : Page :=
  mkPage [mkTrack video true; mkTrack audio true] (Some [0; 1]) false false.

End Media.
(** ** Reasoning about handlers *)

Ltac unfold_M :=
  unfold mbind, mret, M_bind, M_ret, bind, ret, throw, try_catch, get,
    modify, tell, exec, setCallStatus, setRemoteStream, setLocalStream,
    setCurrentId, setTargetId, setIncomingCallData, console, socket_emit in *.

Lemma CallStatus_eqb_eq a b : CallStatus_eqb a b = true <-> a = b.
Proof. destruct a, b; simpl; split; intros H; try reflexivity; discriminate. Qed.

Lemma ice_eqb_eq a b : ice_eqb a b = true <-> a = b.
Proof. destruct a, b; simpl; split; intros H; try reflexivity; discriminate. Qed.

Lemma ice_eqb_refl a : ice_eqb a a = true.
Proof. destruct a; reflexivity. Qed.

Lemma truthy_empty s : truthy s = false <-> s = "".
Proof.
  unfold truthy. rewrite negb_false_iff. apply String.eqb_eq.
Qed.

Lemma fmap_alter_same {A B} (f : A -> B) (g : A -> A) (i : nat) (l : list A) :
  (forall x, f (g x) = f x) -> f <$> alter g i l = f <$> l.
Proof.
  intros H. revert i. induction l as [| a l IH]; intros [| i]; simpl;
    try reflexivity.
  - rewrite H. reflexivity.
  - f_equal. apply IH.
Qed.

(** A first step without effect on the outside world. *)
Lemma bind_silent {A B} (m : M A) (k : A -> M B) s a s1 :
  m s = (Some a, s1, []) -> (m ≫= k) s = k a s1.
Proof.
  intros E. unfold mbind, M_bind, bind. rewrite E.
  destruct (k a s1) as [[r s2] t2]. reflexivity.
Qed.

(** ** Rules of the trace logic *)

Section Only.
Context (Φ : Effect -> Prop).

Lemma only_ret {A} (a : A) : only Φ (mret a).
Proof. intros s. constructor. Qed.

Lemma only_throw {A} : only Φ (@throw A).
Proof. intros s. constructor. Qed.

Lemma only_get : only Φ get.
Proof. intros s. constructor. Qed.

Lemma only_modify f : only Φ (modify f).
Proof. intros s. constructor. Qed.

Lemma only_tell e : Φ e -> only Φ (tell e).
Proof. intros H s. repeat constructor. exact H. Qed.

Lemma only_bind {A B} (m : M A) (k : A -> M B) :
  only Φ m -> (forall a, only Φ (k a)) -> only Φ (m ≫= k).
Proof.
  intros Hm Hk s. specialize (Hm s). unfold mbind, M_bind, bind.
  destruct (m s) as [[[a |] s1] t1]; simpl in *; [| exact Hm].
  specialize (Hk a s1). destruct (k a s1) as [[r s2] t2]; simpl in *.
  apply Forall_app. split; assumption.
Qed.

Lemma only_try {A} (body handler : M A) :
  only Φ body -> only Φ handler -> only Φ (try_catch body handler).
Proof.
  intros Hb Hh s. specialize (Hb s). unfold try_catch.
  destruct (body s) as [[[a |] s1] t1]; simpl in *; [exact Hb |].
  specialize (Hh s1). destruct (handler s1) as [[r s2] t2]; simpl in *.
  apply Forall_app. split; assumption.
Qed.

Lemma only_field {A} this (f : PeerConnectionManager -> A) :
  only Φ (PeerConnectionManager.field this f).
Proof.
  intros s. unfold PeerConnectionManager.field.
  destruct (managers s !! this); constructor.
Qed.

Lemma only_pc_get {A} p (f : RTCPeerConnection -> A) : only Φ (pc_get p f).
Proof. intros s. unfold pc_get. destruct (pcs s !! p); constructor. Qed.

Lemma only_pc_method {A} p call (r : option A) f :
  Φ (Pc p call) -> only Φ (pc_method p call r f).
Proof.
  intros H s. unfold pc_method.
  destruct r; [destruct (pc_open p s) |]; repeat constructor; exact H.
Qed.

Lemma only_pc_close p : Φ (Pc p Close) -> only Φ (pc_close p).
Proof. intros H s. repeat constructor. exact H. Qed.

Lemma only_pc_new : (forall p, Φ (Pc p New)) -> only Φ pc_new.
Proof. intros H s. repeat constructor. apply H. Qed.

Lemma only_setCallStatus c : Φ (SetCallStatus c) -> only Φ (setCallStatus c).
Proof. intros H s. repeat constructor. exact H. Qed.

Lemma only_new stream : only Φ (PeerConnectionManager.new stream).
Proof. intros s. constructor. Qed.

Lemma only_getUserMedia B :
  Φ GetUserMedia -> only Φ (mediaDevices_getUserMedia B).
Proof. intros H s. repeat constructor. exact H. Qed.
End Only.

Ltac only_leaf :=
  first
    [ apply only_ret | apply only_throw | apply only_get | apply only_modify
    | apply only_field | apply only_pc_get | apply only_new
    | apply only_tell | apply only_pc_method | apply only_pc_close
    | apply only_pc_new | apply only_setCallStatus | apply only_getUserMedia ].

Ltac only_walk :=
  repeat
    match goal with
    | |- only _ (mbind _ _) => apply only_bind; [| intros ?]
    | |- only _ (try_catch _ _) => apply only_try
    | |- only _ (match ?x with _ => _ end) => destruct x
    | |- only _ (if ?b then _ else _) => destruct b
    | |- only _ _ => only_leaf
    end.

Ltac unfold_handlers :=
  unfold startCall, answerCall, endCall, rejectCall, localStream_or_getMedia,
    getMedia, on_me, on_call_made, on_answer_made, on_ice_candidate,
    PeerConnectionManager.initPeerConnection,
    PeerConnectionManager.createOffer, PeerConnectionManager.handleOffer,
    PeerConnectionManager.handleAnswer,
    PeerConnectionManager.handleIceCandidate,
    PeerConnectionManager.close, PeerConnectionManager.ontrack,
    PeerConnectionManager.onicecandidate,
    PeerConnectionManager.oniceconnectionstatechange,
    PeerConnectionManager.the_pc, PeerConnectionManager.has_remotePeerId,
    PeerConnectionManager.assign, pc_update, pc_createOffer, pc_createAnswer,
    pc_setLocalDescription, pc_setRemoteDescription, pc_addIceCandidate,
    pc_addTrack, setRemoteStream, setLocalStream, setCurrentId, setTargetId,
    setIncomingCallData, console, socket_emit.

Lemma addTracks_only Φ this tracks :
  (forall p t, Φ (Pc p (AddTrack t))) ->
  only Φ (PeerConnectionManager.addTracks this tracks).
Proof.
  intros H. induction tracks as [| t rest IH]; simpl.
  - apply only_ret.
  - unfold pc_addTrack. only_walk; [apply H | exact IH].
Qed.

Ltac not_connected_leaves :=
  try (apply addTracks_only); unfold not_connected; intros; discriminate.

Lemma startCall_not_connected B : only not_connected (startCall B).
Proof. unfold_handlers. only_walk. all: not_connected_leaves. Qed.

Lemma endCall_not_connected : only not_connected endCall.
Proof. unfold_handlers. only_walk. all: not_connected_leaves. Qed.

Lemma rejectCall_not_connected : only not_connected rejectCall.
Proof. unfold_handlers. only_walk. all: not_connected_leaves. Qed.

Lemma socket_receive_not_connected B name data :
  only not_connected (socket_receive B name data).
Proof.
  unfold socket_receive.
  destruct (listener name socket_on) as [h |] eqn:E; [| apply only_ret].
  unfold socket_on in E. cbn [listener] in E.
  repeat match type of E with
         | (if ?b then _ else _) = _ => destruct b
         end; try discriminate E; injection E as <-;
    unfold_handlers; only_walk; not_connected_leaves.
Qed.

Lemma fire_only Φ p (handler : nat -> M unit) :
  (forall this, only Φ (handler this)) -> only Φ (fire p handler).
Proof. intros H. unfold fire. only_walk. apply H. Qed.

Lemma ontrack_not_connected this stream0 :
  only not_connected (PeerConnectionManager.ontrack this stream0).
Proof. unfold_handlers. only_walk. all: not_connected_leaves. Qed.

Lemma onicecandidate_not_connected this candidate :
  only not_connected (PeerConnectionManager.onicecandidate this candidate).
Proof. unfold_handlers. only_walk. all: not_connected_leaves. Qed.

(** ** What the short methods compute *)

Lemma handleAnswer_eq B this a s :
  PeerConnectionManager.handleAnswer B this a s =
  match managers s !! this with
  | None => (None, s, [])
  | Some mgr =>
      match pcm_pc mgr with
      | None => (Some tt, s, [])
      | Some p =>
          if setRemoteDescription_resolves B && pc_open p s then
            (Some tt,
             with_pcs (alter (pc_with_remoteDescription a) p (pcs s)) s,
             [Pc p (SetRemoteDescription a);
              Console console_log "Answer received and set."])
          else
            (Some tt, with_callStatus CallFailed s,
             [Pc p (SetRemoteDescription a);
              Console console_error "Error handling answer:";
              SetCallStatus CallFailed])
      end
  end.
Proof.
  unfold PeerConnectionManager.handleAnswer, PeerConnectionManager.the_pc,
    PeerConnectionManager.field, pc_setRemoteDescription, pc_method, guard.
  unfold_M.
  destruct (managers s !! this) as [mgr |] eqn:Hm; [| reflexivity].
  destruct (pcm_pc mgr) as [p |] eqn:Hp; cbn; [| reflexivity].
  rewrite Hm. cbn. rewrite Hp. cbn.
  destruct (setRemoteDescription_resolves B); cbn; [| reflexivity].
  destruct (pc_open p s); reflexivity.
Qed.

Lemma handleIceCandidate_eq B this x s :
  PeerConnectionManager.handleIceCandidate B this x s =
  match managers s !! this with
  | None => (None, s, [])
  | Some mgr =>
      match pcm_pc mgr with
      | None => (Some tt, s, [])
      | Some p =>
          if addIceCandidate_resolves B && pc_open p s then
            (Some tt,
             with_pcs (alter (pc_with_remoteCandidate x) p (pcs s)) s,
             [Pc p (AddIceCandidate x);
              Console console_log "ICE candidate added."])
          else
            (Some tt, s,
             [Pc p (AddIceCandidate x);
              Console console_error "Error adding ICE candidate:"])
      end
  end.
Proof.
  unfold PeerConnectionManager.handleIceCandidate,
    PeerConnectionManager.the_pc, PeerConnectionManager.field,
    pc_addIceCandidate, pc_method, guard.
  unfold_M.
  destruct (managers s !! this) as [mgr |] eqn:Hm; [| reflexivity].
  destruct (pcm_pc mgr) as [p |] eqn:Hp; cbn; [| reflexivity].
  rewrite Hm. cbn. rewrite Hp. cbn.
  destruct (addIceCandidate_resolves B); cbn; [| reflexivity].
  destruct (pc_open p s); reflexivity.
Qed.

Lemma close_eq this s :
  PeerConnectionManager.close this s =
  match managers s !! this with
  | None => (None, s, [])
  | Some mgr =>
      (Some tt, closed this mgr s,
       match pcm_pc mgr with
       | Some p => [Pc p Close; SetCallStatus Idle]
       | None => [SetCallStatus Idle]
       end)
  end.
Proof.
  unfold PeerConnectionManager.close, PeerConnectionManager.field,
    PeerConnectionManager.assign, pc_close, closed.
  unfold_M.
  destruct (managers s !! this) as [mgr |] eqn:Hm; [| reflexivity].
  destruct (pcm_pc mgr) as [p |] eqn:Hp; reflexivity.
Qed.

Lemma endCall_eq s :
  endCall s =
  match peerManagerRef s with
  | Some m =>
      match managers s !! m with
      | None => (None, s, [])
      | Some mgr =>
          (Some tt, ended (with_peerManagerRef None (closed m mgr s)),
           match pcm_pc mgr with
           | Some p => [Pc p Close; SetCallStatus Idle]
           | None => [SetCallStatus Idle]
           end ++ end_notice s ++ [SetCallStatus CallEnded])
      end
  | None => (Some tt, ended s, end_notice s ++ [SetCallStatus CallEnded])
  end.
Proof.
  unfold endCall. unfold mbind at 1. unfold M_bind, bind, get.
  destruct (peerManagerRef s) as [m |] eqn:Href.
  - unfold mbind at 1. unfold M_bind, bind. unfold mbind at 1.
    unfold M_bind, bind. rewrite close_eq.
    destruct (managers s !! m) as [mgr |] eqn:Hm; [| reflexivity].
    unfold end_notice, ended. unfold_M. cbn.
    destruct (or_else _ _) as [peer |]; cbn;
      [destruct (truthy peer); cbn |];
      destruct (pcm_pc mgr); reflexivity.
  - unfold end_notice, ended. unfold_M. cbn.
    destruct (or_else _ _) as [peer |]; cbn;
      [destruct (truthy peer); cbn |]; reflexivity.
Qed.

(** ** The shape of the heap *)

Lemma wf_iff_shape s : wf s <-> wf_shape (shape s).
Proof.
  unfold wf, wf_shape, shape. rewrite length_fmap. split.
  - intros [H1 H2]. split; [exact H1 |].
    intros p m Hp. rewrite list_lookup_fmap in Hp.
    destruct (pcs s !! p) as [c |] eqn:Hc; [| discriminate Hp].
    cbn in Hp. injection Hp as Hcl Hthis.
    destruct (H2 p c m Hc Hcl Hthis) as (mgr & Hm & Hpc).
    rewrite list_lookup_fmap, Hm. cbn. rewrite Hpc. reflexivity.
  - intros [H1 H2]. split; [exact H1 |].
    intros p c m Hc Hcl Hthis.
    specialize (H2 p m). rewrite !list_lookup_fmap, Hc in H2. cbn in H2.
    rewrite Hcl, Hthis in H2. specialize (H2 eq_refl).
    destruct (managers s !! m) as [mgr |]; [| discriminate H2].
    cbn in H2. injection H2 as H2. exists mgr. split; [reflexivity | exact H2].
Qed.

Lemma quiet_iff_shape this s : quiet this s <-> quiet_shape this (shape s).
Proof.
  unfold quiet, quiet_shape, shape. split.
  - intros H p Hp. rewrite list_lookup_fmap in Hp.
    destruct (pcs s !! p) as [c |] eqn:Hc; [| discriminate Hp].
    cbn in Hp. injection Hp as Hcl Hthis. exact (H p c Hc Hcl Hthis).
  - intros H p c Hc Hcl Hthis. apply (H p).
    rewrite list_lookup_fmap, Hc. cbn. rewrite Hcl, Hthis. reflexivity.
Qed.

Lemma owns_iff_shape this p s : owns this p s <-> owns_shape this p (shape s).
Proof.
  unfold owns, owns_shape, shape. rewrite list_lookup_fmap. split.
  - intros (mgr & Hm & Hp). rewrite Hm. cbn. rewrite Hp. reflexivity.
  - intros H. destruct (managers s !! this) as [mgr |]; [| discriminate H].
    cbn in H. injection H as H. exists mgr. split; [reflexivity | exact H].
Qed.

Lemma wf_respects : respects_shape wf.
Proof. intros s s' E H. apply wf_iff_shape. rewrite <- E. apply wf_iff_shape, H. Qed.

Lemma quiet_respects this : respects_shape (quiet this).
Proof.
  intros s s' E H. apply quiet_iff_shape. rewrite <- E.
  apply quiet_iff_shape, H.
Qed.

Lemma owns_respects this p : respects_shape (owns this p).
Proof.
  intros s s' E H. apply owns_iff_shape. rewrite <- E.
  apply owns_iff_shape, H.
Qed.

Lemma respects_and P Q :
  respects_shape P -> respects_shape Q -> respects_shape (fun s => P s /\ Q s).
Proof. intros HP HQ s s' E [H1 H2]. split; eauto. Qed.

Lemma keeps_ret {A} (a : A) : keeps_shape (mret a).
Proof. intros s. reflexivity. Qed.

Lemma keeps_throw {A} : keeps_shape (@throw A).
Proof. intros s. reflexivity. Qed.

Lemma keeps_get : keeps_shape get.
Proof. intros s. reflexivity. Qed.

Lemma keeps_tell e : keeps_shape (tell e).
Proof. intros s. reflexivity. Qed.

Lemma keeps_modify f :
  (forall s, shape (f s) = shape s) -> keeps_shape (modify f).
Proof. intros H s. apply H. Qed.

Lemma keeps_bind {A B} (m : M A) (k : A -> M B) :
  keeps_shape m -> (forall a, keeps_shape (k a)) -> keeps_shape (m ≫= k).
Proof.
  intros Hm Hk s. specialize (Hm s). unfold mbind, M_bind, bind.
  destruct (m s) as [[[a |] s1] t1]; simpl in *; [| exact Hm].
  specialize (Hk a s1). destruct (k a s1) as [[r s2] t2]; simpl in *.
  congruence.
Qed.

Lemma keeps_try {A} (body handler : M A) :
  keeps_shape body -> keeps_shape handler ->
  keeps_shape (try_catch body handler).
Proof.
  intros Hb Hh s. specialize (Hb s). unfold try_catch.
  destruct (body s) as [[[a |] s1] t1]; simpl in *; [exact Hb |].
  specialize (Hh s1). destruct (handler s1) as [[r s2] t2]; simpl in *.
  congruence.
Qed.

Lemma keeps_field {A} this (f : PeerConnectionManager -> A) :
  keeps_shape (PeerConnectionManager.field this f).
Proof.
  intros s. unfold PeerConnectionManager.field.
  destruct (managers s !! this); reflexivity.
Qed.

Lemma keeps_pc_get {A} p (f : RTCPeerConnection -> A) :
  keeps_shape (pc_get p f).
Proof. intros s. unfold pc_get. destruct (pcs s !! p); reflexivity. Qed.

Lemma shape_alter_pc f p s :
  (forall c, pc_isClosed (f c) = pc_isClosed c) ->
  (forall c, pc_this (f c) = pc_this c) ->
  shape (with_pcs (alter f p (pcs s)) s) = shape s.
Proof.
  intros H1 H2. unfold shape. cbn. f_equal.
  apply fmap_alter_same. intros c. rewrite H1, H2. reflexivity.
Qed.

Lemma shape_alter_manager f this s :
  (forall m, pcm_pc (f m) = pcm_pc m) ->
  shape (with_managers (alter f this (managers s)) s) = shape s.
Proof.
  intros H. unfold shape. cbn. f_equal. f_equal.
  apply fmap_alter_same. exact H.
Qed.

Lemma keeps_pc_method {A} p call (r : option A) f :
  (forall c, pc_isClosed (f c) = pc_isClosed c) ->
  (forall c, pc_this (f c) = pc_this c) ->
  keeps_shape (pc_method p call r f).
Proof.
  intros H1 H2 s. unfold pc_method.
  destruct r; [destruct (pc_open p s) |]; try reflexivity.
  cbn. apply shape_alter_pc; assumption.
Qed.

Lemma keeps_setCallStatus c : keeps_shape (setCallStatus c).
Proof. intros s. reflexivity. Qed.

Lemma keeps_getUserMedia B : keeps_shape (mediaDevices_getUserMedia B).
Proof. intros s. reflexivity. Qed.

Ltac keeps_leaf :=
  first
    [ apply keeps_ret | apply keeps_throw | apply keeps_get | apply keeps_tell
    | apply keeps_field | apply keeps_pc_get | apply keeps_setCallStatus
    | apply keeps_getUserMedia
    | apply keeps_pc_method; intros ?; reflexivity
    | apply keeps_modify; intros ?;
      first [ reflexivity
            | apply shape_alter_manager; intros ?; reflexivity
            | apply shape_alter_pc; intros ?; reflexivity ] ].

Ltac keeps_walk :=
  repeat
    match goal with
    | |- keeps_shape (mbind _ _) => apply keeps_bind; [| intros ?]
    | |- keeps_shape (try_catch _ _) => apply keeps_try
    | |- keeps_shape (match ?x with _ => _ end) => destruct x
    | |- keeps_shape (if ?b then _ else _) => destruct b
    | |- keeps_shape _ => keeps_leaf
    end.

Lemma keeps_addTracks this tracks :
  keeps_shape (PeerConnectionManager.addTracks this tracks).
Proof.
  induction tracks as [| t rest IH]; simpl.
  - apply keeps_ret.
  - unfold pc_addTrack. keeps_walk. exact IH.
Qed.

Lemma keeps_createOffer B this :
  keeps_shape (PeerConnectionManager.createOffer B this).
Proof. unfold_handlers. keeps_walk. Qed.

Lemma keeps_handleOffer B this o :
  keeps_shape (PeerConnectionManager.handleOffer B this o).
Proof. unfold_handlers. keeps_walk. Qed.

Lemma keeps_handleAnswer B this a :
  keeps_shape (PeerConnectionManager.handleAnswer B this a).
Proof. unfold_handlers. keeps_walk. Qed.

Lemma keeps_handleIceCandidate B this x :
  keeps_shape (PeerConnectionManager.handleIceCandidate B this x).
Proof. unfold_handlers. keeps_walk. Qed.

Lemma keeps_ontrack this stream0 :
  keeps_shape (PeerConnectionManager.ontrack this stream0).
Proof. unfold_handlers. keeps_walk. Qed.

Lemma keeps_onicecandidate this x :
  keeps_shape (PeerConnectionManager.onicecandidate this x).
Proof. unfold_handlers. keeps_walk. Qed.

Lemma keeps_getMedia B : keeps_shape (getMedia B).
Proof. unfold_handlers. keeps_walk. Qed.

Lemma keeps_rejectCall : keeps_shape rejectCall.
Proof. unfold_handlers. keeps_walk. Qed.

Lemma keeps_socket_receive B name data :
  keeps_shape (socket_receive B name data).
Proof.
  unfold socket_receive.
  destruct (listener name socket_on) as [h |] eqn:E; [| apply keeps_ret].
  unfold socket_on in E. cbn [listener] in E.
  repeat match type of E with
         | (if ?b then _ else _) = _ => destruct b
         end; try discriminate E; injection E as <-;
    unfold_handlers; keeps_walk.
Qed.

(** ** Rules of the state logic *)

Lemma hoare_bind {A B} P (m : M A) (k : A -> M B) Q R E :
  hoare P m Q E -> (forall a, hoare (Q a) (k a) R E) -> hoare P (m ≫= k) R E.
Proof.
  intros Hm Hk s HP. specialize (Hm s HP). unfold mbind, M_bind, bind.
  destruct (m s) as [[[a |] s1] t1]; [| exact Hm].
  specialize (Hk a s1 Hm). destruct (k a s1) as [[[b |] s2] t2]; exact Hk.
Qed.

Lemma hoare_try {A} P (body handler : M A) Q E E' :
  hoare P body Q E' -> hoare E' handler Q E ->
  hoare P (try_catch body handler) Q E.
Proof.
  intros Hb Hh s HP. specialize (Hb s HP). unfold try_catch.
  destruct (body s) as [[[a |] s1] t1]; [exact Hb |].
  specialize (Hh s1 Hb). destruct (handler s1) as [[[b |] s2] t2]; exact Hh.
Qed.

Lemma hoare_weaken {A} (P P' : State -> Prop) (m : M A)
    (Q Q' : A -> State -> Prop) (E E' : State -> Prop) :
  hoare P m Q E ->
  (forall s, P' s -> P s) -> (forall a s, Q a s -> Q' a s) ->
  (forall s, E s -> E' s) ->
  hoare P' m Q' E'.
Proof.
  intros H HP HQ HE s Hs. specialize (H s (HP s Hs)).
  destruct (m s) as [[[a |] s1] t1]; auto.
Qed.

Lemma hoare_pre {A} (P P' : State -> Prop) (m : M A) Q E :
  (forall s, P' s -> P s) -> hoare P m Q E -> hoare P' m Q E.
Proof. intros HP H. eapply hoare_weaken; [exact H | auto ..]. Qed.

Lemma hoare_ret {A} P (a : A) E : hoare P (mret a) (fun _ => P) E.
Proof. intros s HP. exact HP. Qed.

Lemma hoare_get P E : hoare P get (fun _ => P) E.
Proof. intros s HP. exact HP. Qed.

(** A computation that keeps the shape preserves what only depends on
    the shape. *)
Lemma keeps_preserves {A} P (m : M A) :
  respects_shape P -> keeps_shape m -> preserves P m.
Proof.
  intros HP Hm s Hs. specialize (Hm s).
  destruct (m s) as [[[a |] s1] t1]; simpl in Hm;
    apply (HP s s1); auto.
Qed.

(** Reading a field of a manager tells that the manager exists. *)
Lemma hoare_field {A} P this (f : PeerConnectionManager -> A) :
  hoare P (PeerConnectionManager.field this f)
    (fun a s => P s /\ exists mgr, managers s !! this = Some mgr /\ a = f mgr)
    P.
Proof.
  intros s HP. unfold PeerConnectionManager.field.
  destruct (managers s !! this) as [mgr |] eqn:Hm; [| exact HP].
  split; [exact HP |]. exists mgr. split; [exact Hm | reflexivity].
Qed.

Lemma hoare_the_pc P this :
  hoare P (PeerConnectionManager.the_pc this)
    (fun p s => P s /\ owns this p s) P.
Proof.
  unfold PeerConnectionManager.the_pc.
  eapply hoare_bind; [apply hoare_field |].
  intros [p |] s (HP & mgr & Hm & Hp); cbn.
  - split; [exact HP |]. exists mgr. split; [exact Hm | symmetry; exact Hp].
  - exact HP.
Qed.

(** *** The steps that change the shape *)

Lemma wf_pc_close p s : wf s -> wf (with_pcs (alter pc_with_closed p (pcs s)) s).
Proof.
  intros [H1 H2]. split; [exact H1 |]. cbn.
  intros q c m Hc Hcl Hthis.
  destruct (decide (p = q)) as [-> | Hne].
  - rewrite list_lookup_alter_eq in Hc.
    destruct (pcs s !! q); [| discriminate Hc].
    cbn in Hc. injection Hc as <-. discriminate Hcl.
  - rewrite list_lookup_alter_ne in Hc by exact Hne. eauto.
Qed.

Lemma close_preserves_wf this : preserves wf (PeerConnectionManager.close this).
Proof.
  intros s Hwf. rewrite close_eq.
  destruct (managers s !! this) as [mgr |] eqn:Hm; [| exact Hwf].
  unfold closed. destruct (pcm_pc mgr) as [p |] eqn:Hp.
  - apply wf_pc_close with (p := p) in Hwf as [H1 H2].
    split; cbn in *.
    + intros m Href. rewrite !length_alter. auto.
    + intros q c m Hc Hcl Hthis.
      destruct (H2 q c m Hc Hcl Hthis) as (mgr' & Hm' & Hp').
      destruct (decide (this = m)) as [<- | Hne].
      * rewrite Hm in Hm'. injection Hm' as <-. rewrite Hp in Hp'.
        injection Hp' as <-. rewrite list_lookup_alter_eq in Hc.
        destruct (pcs s !! p); [| discriminate Hc].
        cbn in Hc. injection Hc as <-. discriminate Hcl.
      * exists mgr'. rewrite !list_lookup_alter_ne by exact Hne. auto.
  - destruct Hwf as [H1 H2]. split; cbn.
    + intros m Href. rewrite length_alter. auto.
    + intros q c m Hc Hcl Hthis.
      destruct (H2 q c m Hc Hcl Hthis) as (mgr' & Hm' & Hp').
      destruct (decide (this = m)) as [<- | Hne].
      * rewrite Hm in Hm'. injection Hm' as <-. congruence.
      * exists mgr'. rewrite list_lookup_alter_ne by exact Hne. auto.
Qed.

Lemma hoare_seq {A B} P (m : M A) (k : A -> M B) Q R E E1 :
  hoare P m Q E1 -> (forall s, E1 s -> E s) ->
  (forall a, hoare (Q a) (k a) R E) -> hoare P (m ≫= k) R E.
Proof.
  intros Hm HE Hk. apply hoare_bind with (Q := Q); [| exact Hk].
  eapply hoare_weaken; [exact Hm | auto ..].
Qed.

Lemma exists_manager_respects this : respects_shape (exists_manager this).
Proof.
  intros s s' E H. unfold exists_manager, shape in *.
  injection E as _ E _.
  apply (f_equal length) in E. rewrite !length_fmap in E. lia.
Qed.

Lemma quiet_after_close this mgr s :
  wf s -> managers s !! this = Some mgr ->
  match pcm_pc mgr with
  | Some old => quiet this (with_pcs (alter pc_with_closed old (pcs s)) s)
  | None => quiet this s
  end.
Proof.
  intros [_ H2] Hm. destruct (pcm_pc mgr) as [old |] eqn:Hp.
  - intros q c Hc Hcl Hthis. cbn in Hc.
    destruct (decide (old = q)) as [-> | Hne].
    + rewrite list_lookup_alter_eq in Hc.
      destruct (pcs s !! q); [| discriminate Hc].
      cbn in Hc. injection Hc as <-. discriminate Hcl.
    + rewrite list_lookup_alter_ne in Hc by exact Hne.
      destruct (H2 q c this Hc Hcl Hthis) as (mgr' & Hm' & Hp').
      rewrite Hm in Hm'. injection Hm' as <-. congruence.
  - intros q c Hc Hcl Hthis.
    destruct (H2 q c this Hc Hcl Hthis) as (mgr' & Hm' & Hp').
    rewrite Hm in Hm'. injection Hm' as <-. congruence.
Qed.

Lemma wf_pc_new s : wf s -> wf (with_pcs (pcs s ++ [fresh_pc]) s).
Proof.
  intros [H1 H2]. split; [exact H1 |]. cbn.
  intros q c m Hc Hcl Hthis.
  apply lookup_app_Some in Hc as [Hc | [_ Hc]].
  - eauto.
  - destruct (q - length (pcs s)) as [| n]; [| discriminate Hc].
    cbn in Hc. injection Hc as <-. discriminate Hthis.
Qed.

Lemma quiet_pc_new this s :
  quiet this s -> quiet this (with_pcs (pcs s ++ [fresh_pc]) s).
Proof.
  intros H q c Hc Hcl. cbn in Hc.
  apply lookup_app_Some in Hc as [Hc | [_ Hc]].
  - eauto.
  - destruct (q - length (pcs s)) as [| n]; [| discriminate Hc].
    cbn in Hc. injection Hc as <-. discriminate.
Qed.

Lemma wf_assign_pc this v s :
  wf s -> quiet this s ->
  wf (with_managers (alter (pcm_with_pc v) this (managers s)) s).
Proof.
  intros [H1 H2] Hq. split; cbn.
  - intros m Href. rewrite length_alter. auto.
  - intros q c m Hc Hcl Hthis.
    destruct (H2 q c m Hc Hcl Hthis) as (mgr & Hm & Hp).
    destruct (decide (this = m)) as [<- | Hne].
    + exfalso. exact (Hq q c Hc Hcl Hthis).
    + exists mgr. rewrite list_lookup_alter_ne by exact Hne. auto.
Qed.

Lemma wf_install this p s :
  wf s -> owns this p s ->
  wf (with_pcs (alter (pc_with_this this) p (pcs s)) s).
Proof.
  intros [H1 H2] Hown. split; [exact H1 |]. cbn.
  intros q c m Hc Hcl Hthis.
  destruct (decide (p = q)) as [-> | Hne].
  - rewrite list_lookup_alter_eq in Hc.
    destruct (pcs s !! q) as [c0 |]; [| discriminate Hc].
    cbn in Hc. injection Hc as <-. cbn in Hthis. injection Hthis as <-.
    exact Hown.
  - rewrite list_lookup_alter_ne in Hc by exact Hne. eauto.
Qed.

(** [initPeerConnection] on an existing manager keeps the heap well
    formed, also when it throws. *)
Lemma initPeerConnection_wf this b r :
  hoare (fun s => wf s /\ exists_manager this s)
    (PeerConnectionManager.initPeerConnection this b r)
    (fun _ => wf) wf.
Proof.
  unfold PeerConnectionManager.initPeerConnection.
  pose proof (respects_and _ _ wf_respects (exists_manager_respects this))
    as Hresp.
  eapply hoare_seq;
    [apply (keeps_preserves _ _ Hresp); unfold_handlers; keeps_leaf
    | intros s [H _]; exact H | intros ?].
  eapply hoare_seq;
    [apply (keeps_preserves _ _ Hresp); unfold_handlers; keeps_leaf
    | intros s [H _]; exact H | intros ?].
  eapply hoare_seq; [apply hoare_field | intros s [H _]; exact H |].
  intros pc.
  apply hoare_seq with
    (Q := fun _ s => wf s /\ quiet this s) (E1 := wf).
  { intros s ((Hwf & _) & mgr & Hm & Hpc). subst pc.
    pose proof (quiet_after_close this mgr s Hwf Hm) as Hq.
    destruct (pcm_pc mgr) as [old |]; cbn.
    - split; [apply wf_pc_close; exact Hwf | exact Hq].
    - split; assumption. }
  { auto. }
  intros ?.
  apply hoare_seq with
    (Q := fun _ s => wf s /\ quiet this s) (E1 := wf).
  { intros s [Hwf Hq]. cbn. split; [apply wf_pc_new | apply quiet_pc_new];
      assumption. }
  { auto. }
  intros p.
  apply hoare_seq with (Q := fun _ => wf) (E1 := wf).
  { intros s [Hwf Hq]. cbn. apply wf_assign_pc; assumption. }
  { auto. }
  intros ?.
  eapply hoare_seq;
    [apply (keeps_preserves _ _ wf_respects); keeps_leaf | auto | intros ?].
  eapply hoare_seq;
    [apply (keeps_preserves _ _ wf_respects); keeps_leaf | auto | intros stream].
  eapply hoare_seq;
    [apply (keeps_preserves _ _ wf_respects); apply keeps_addTracks
    | auto | intros ?].
  eapply hoare_seq; [apply hoare_the_pc | auto |]. intros p'.
  intros s [Hwf Hown]. cbn. apply wf_install; assumption.
Qed.

(** *** Every handler keeps the heap well formed *)

Lemma new_manager_wf stream :
  hoare wf (PeerConnectionManager.new stream)
    (fun this s => wf s /\ exists_manager this s) wf.
Proof.
  intros s [H1 H2]. cbn. unfold exists_manager. cbn.
  rewrite length_app. cbn. split; [split |]; cbn; [| | lia].
  - intros m Href. rewrite length_app. specialize (H1 m Href). lia.
  - intros q c m Hc Hcl Hthis.
    destruct (H2 q c m Hc Hcl Hthis) as (mgr & Hm & Hp).
    exists mgr. split; [apply lookup_app_l_Some; exact Hm | exact Hp].
Qed.

Lemma set_ref_wf this :
  preserves (fun s => wf s /\ exists_manager this s)
    (modify (with_peerManagerRef (Some this))).
Proof.
  intros s [[H1 H2] Hex]. cbn. split; [split |]; cbn.
  - intros m Href. injection Href as <-. exact Hex.
  - exact H2.
  - exact Hex.
Qed.

Lemma clear_ref_wf : preserves wf (modify (with_peerManagerRef None)).
Proof.
  intros s [H1 H2]. cbn. split; cbn; [intros m Href; discriminate Href |].
  exact H2.
Qed.

Ltac by_shape :=
  cbv beta; apply (keeps_preserves _ _ wf_respects);
  first [ apply keeps_getMedia | apply keeps_createOffer
        | apply keeps_handleOffer | apply keeps_handleAnswer
        | apply keeps_handleIceCandidate | apply keeps_ontrack
        | apply keeps_onicecandidate | apply keeps_rejectCall
        | apply keeps_socket_receive
        | unfold_handlers; keeps_walk ].

(** The part of [startCall] and [answerCall] that creates the manager
    and its connection. *)
Lemma create_manager_wf stream isInitiator remotePeerId (k : nat -> M unit) :
  (forall manager, preserves wf (k manager)) ->
  preserves wf
    (manager ← PeerConnectionManager.new stream;
     modify (with_peerManagerRef (Some manager));;
     PeerConnectionManager.initPeerConnection manager isInitiator
       remotePeerId;;
     k manager).
Proof.
  intros Hk.
  eapply hoare_seq with (E1 := wf); [apply new_manager_wf | auto |]. intros manager; cbv beta.
  eapply hoare_seq;
    [apply set_ref_wf | intros s [H _]; exact H |]. intros ?; cbv beta.
  eapply hoare_seq with (E1 := wf); [apply initPeerConnection_wf | auto |]. intros ?; cbv beta.
  apply Hk.
Qed.

Lemma startCall_wf B : preserves wf (startCall B).
Proof.
  unfold startCall.
  eapply hoare_seq; [apply (hoare_get wf wf) | auto |]. intros render; cbv beta.
  destruct (negb (truthy (targetId render))); [by_shape |].
  destruct (_ || _); [by_shape |].
  eapply hoare_seq with (E1 := wf); [| auto |].
  { unfold localStream_or_getMedia.
    destruct (localStream render); by_shape. }
  intros [stream |]; cbv beta; [| by_shape].
  apply create_manager_wf. intros manager. by_shape.
Qed.

Lemma answerCall_wf B : preserves wf (answerCall B).
Proof.
  unfold answerCall.
  eapply hoare_seq; [apply (hoare_get wf wf) | auto |]. intros render; cbv beta.
  destruct (incomingCallData render) as [data |]; [| by_shape].
  destruct (negb _); [by_shape |].
  eapply hoare_seq with (E1 := wf); [| auto |].
  { unfold localStream_or_getMedia.
    destruct (localStream render); by_shape. }
  intros [stream |]; cbv beta; [| by_shape].
  apply (create_manager_wf stream false (callerId data)
           (fun manager =>
              PeerConnectionManager.handleOffer B manager (offer data);;
              setIncomingCallData None)).
  intros manager. by_shape.
Qed.

Lemma endCall_wf : preserves wf endCall.
Proof.
  unfold endCall.
  eapply hoare_seq; [apply (hoare_get wf wf) | auto |]. intros render; cbv beta.
  eapply hoare_seq with (E1 := wf); [| auto |].
  { destruct (peerManagerRef render) as [manager |]; [| by_shape].
    eapply hoare_seq with (E1 := wf); [apply close_preserves_wf | auto |]. intros ?; cbv beta.
    apply clear_ref_wf. }
  intros ?. by_shape.
Qed.

Lemma oniceconnectionstatechange_wf this :
  preserves wf (PeerConnectionManager.oniceconnectionstatechange this).
Proof.
  unfold PeerConnectionManager.oniceconnectionstatechange.
  eapply hoare_seq with (E1 := wf); [apply (hoare_field wf) | auto |].
  intros [p |]; [| intros s [H _]; exact H].
  apply hoare_pre with (P := wf); [intros s [H _]; exact H |].
  eapply hoare_seq with (E1 := wf); [by_shape | auto |]. intros ?; cbv beta.
  eapply hoare_seq with (E1 := wf); [by_shape | auto |]. intros p'; cbv beta.
  eapply hoare_seq with (E1 := wf); [by_shape | auto |]. intros st; cbv beta.
  destruct (ice_eqb st ice_connected); [by_shape |].
  destruct (_ || _); [| by_shape].
  eapply hoare_seq with (E1 := wf); [by_shape | auto |]. intros ?; cbv beta.
  apply close_preserves_wf.
Qed.

Lemma fire_wf p (handler : nat -> M unit) :
  (forall this, preserves wf (handler this)) -> preserves wf (fire p handler).
Proof.
  intros H. unfold fire.
  eapply hoare_seq; [apply (hoare_get wf wf) | auto |]. intros s0; cbv beta.
  destruct (pcs s0 !! p) as [c |]; [| by_shape].
  destruct (pc_isClosed c); [by_shape |].
  destruct (pc_this c) as [this |]; [apply H | by_shape].
Qed.

Lemma ice_state_changes_wf p st : preserves wf (ice_state_changes p st).
Proof.
  unfold ice_state_changes.
  eapply hoare_seq; [apply (hoare_get wf wf) | auto |]. intros s0; cbv beta.
  destruct (pcs s0 !! p) as [c |]; [| by_shape].
  destruct (_ || _); [by_shape |].
  eapply hoare_seq with (E1 := wf); [by_shape | auto |]. intros ?; cbv beta.
  apply fire_wf. apply oniceconnectionstatechange_wf.
Qed.

Lemma handle_wf B e : preserves wf (handle B e).
Proof.
  destruct e as [v | | | | | name data | p st0 | p cand | p st]; simpl.
  - by_shape.
  - eapply hoare_seq; [apply (hoare_get wf wf) | auto |]. intros s0; cbv beta.
    destruct (call_disabled s0); [by_shape | apply startCall_wf].
  - eapply hoare_seq; [apply (hoare_get wf wf) | auto |]. intros s0; cbv beta.
    destruct (dialog_shown s0); [apply answerCall_wf | by_shape].
  - eapply hoare_seq; [apply (hoare_get wf wf) | auto |]. intros s0; cbv beta.
    destruct (dialog_shown s0); by_shape.
  - eapply hoare_seq; [apply (hoare_get wf wf) | auto |]. intros s0; cbv beta.
    destruct (end_disabled s0); [by_shape | apply endCall_wf].
  - by_shape.
  - apply fire_wf. intros this. by_shape.
  - apply fire_wf. intros this. by_shape.
  - apply ice_state_changes_wf.
Qed.

Lemma wf_initial : wf initial.
Proof.
  split.
  - intros m H. discriminate H.
  - intros p c m H. destruct p; discriminate H.
Qed.

Lemma wf_step B e s : wf s -> wf (fst (step B e s)).
Proof.
  intros H. pose proof (handle_wf B e s H) as Hs. unfold step, exec.
  destruct (handle B e s) as [[[a |] s'] t]; exact Hs.
Qed.

Lemma wf_run_from turns : forall s, wf s -> wf (fst (run turns s)).
Proof.
  induction turns as [| [B e] rest IH]; intros s H; [exact H |].
  simpl. pose proof (wf_step B e s H) as H1.
  destruct (step B e s) as [s1 t1]. specialize (IH s1 H1).
  destruct (run rest s1) as [s2 t2]. exact IH.
Qed.

(** Every state the page can reach is well formed. *)
Lemma wf_state_after turns : wf (state_after turns).
Proof. apply wf_run_from, wf_initial. Qed.

(** ** Empty target identifier *)

(** C10. [startCall] with an empty [targetId], whatever the status
    (Incoming Call included), writes the status Idle and nothing else:
    the state is otherwise unchanged, no manager and no connection is
    created, no media is requested, no method of a connection is called
    and nothing is emitted on the socket. *)
Theorem C10_start_with_empty_target_resets_to_idle :
  forall (B : Browser) (s : State),
    targetId s = "" ->
    let (s', t) := exec (startCall B) s in
    s' = with_callStatus Idle s /\
    callStatus s' = Idle /\
    managers s' = managers s /\ pcs s' = pcs s /\
    peerManagerRef s' = peerManagerRef s /\
    status_writes t = [Idle] /\
    emitted t = [] /\
    (forall p, calls_on p t = []) /\
    ~ In GetUserMedia t.
Proof.
  intros B s H. apply truthy_empty in H.
  unfold startCall. unfold_M. rewrite H. simpl.
  repeat split; try reflexivity.
  intros [F | [F | []]]; discriminate.
Qed.

Lemma C10_witness :
  targetId (state_after ringing_from_A) = "" /\
  callStatus (state_after ringing_from_A) = IncomingCall /\
  callStatus (fst (exec (startCall granting) (state_after ringing_from_A)))
  = Idle.
Proof.
  split; [reflexivity | split; [reflexivity |]].
  pose proof (C10_start_with_empty_target_resets_to_idle granting
                (state_after ringing_from_A) eq_refl) as H.
  destruct (exec (startCall granting) (state_after ringing_from_A)) as [s' t].
  destruct H as (_ & H & _). exact H.
Defined.

(** ** Denied media *)

(** C8. When the start intent or the answer intent gets as far as asking
    for local media and the request is denied, the status becomes Media
    Access Denied, and the state is otherwise unchanged: no manager and
    no connection is created and nothing is sent. *)
Theorem C8_media_denied :
  forall (B : Browser) (s : State),
    getUserMedia B = None ->
    localStream s = None ->
    (targetId s <> "" -> call_disabled s = false ->
     let (s', t) := exec (startCall B) s in
     s' = with_callStatus MediaAccessDenied s /\
     callStatus s' = MediaAccessDenied /\
     pcs s' = pcs s /\ managers s' = managers s /\
     peerManagerRef s' = peerManagerRef s /\
     status_writes t = [MediaAccessDenied] /\ emitted t = [] /\
     (forall p, calls_on p t = [])) /\
    (dialog_shown s = true ->
     let (s', t) := exec (answerCall B) s in
     s' = with_callStatus MediaAccessDenied s /\
     callStatus s' = MediaAccessDenied /\
     pcs s' = pcs s /\ managers s' = managers s /\
     peerManagerRef s' = peerManagerRef s /\
     status_writes t = [MediaAccessDenied] /\ emitted t = [] /\
     (forall p, calls_on p t = [])).
Proof.
  intros B s HB HL. split.
  - intros HT HC.
    assert (truthy (targetId s) = true) as HT'.
    { destruct (truthy (targetId s)) eqn:E; [reflexivity |].
      apply truthy_empty in E. contradiction. }
    unfold call_disabled in HC.
    unfold startCall, localStream_or_getMedia, getMedia,
      mediaDevices_getUserMedia. unfold_M.
    rewrite HT', HC, HL, HB. simpl. repeat split; reflexivity.
  - intros HD. unfold dialog_shown in HD.
    apply andb_true_iff in HD as [HI HS].
    apply bool_decide_eq_true in HI. destruct HI as [d HI].
    unfold answerCall, localStream_or_getMedia, getMedia,
      mediaDevices_getUserMedia. unfold_M.
    rewrite HI, HS, HL, HB. simpl. repeat split; reflexivity.
Qed.

Lemma C8_witness :
  callStatus
    (fst (exec (startCall denying)
            (with_targetId "B" (state_after ringing_from_A))))
  = MediaAccessDenied /\
  callStatus
    (fst (exec (answerCall denying)
            (with_targetId "B" (state_after ringing_from_A))))
  = MediaAccessDenied.
Proof.
  pose proof (C8_media_denied denying
                (with_targetId "B" (state_after ringing_from_A))
                eq_refl eq_refl) as [H1 H2].
  split.
  - assert (targetId (with_targetId "B" (state_after ringing_from_A)) <> "")
      as Ht by (simpl; discriminate).
    specialize (H1 Ht eq_refl).
    destruct (exec (startCall denying) _) as [s' t].
    destruct H1 as (_ & H & _). exact H.
  - specialize (H2 eq_refl).
    destruct (exec (answerCall denying) _) as [s' t].
    destruct H2 as (_ & H & _). exact H.
Defined.

(** ** Inbound offers *)

(** C9, as stated, fails: a CallOffer received in status Connected moves
    the status to Incoming Call, so Idle is not the only state from which
    an offer causes a transition; and when the user answers but refuses
    camera and microphone, the status is Media Access Denied while the
    pending offer is still held. *)
Lemma C9_counterexample :
  callStatus (state_after connected_to_B) = Connected /\
  callStatus (state_after ringing_while_connected) = IncomingCall /\
  callStatus (state_after ringing_then_media_denied) = MediaAccessDenied /\
  incomingCallData (state_after ringing_then_media_denied)
  = Some (mkIncoming remote_offer "A").
Proof. repeat split; reflexivity. Qed.

(** C9, amended. A received CallOffer sets the status to Incoming Call
    and stores the offer and its sender as the pending offer from every
    status, replacing a pending offer that is already held; nothing else
    changes.  The pending offer is cleared by reject and, in a
    well-formed state, by end. *)
Theorem C9_offer_received :
  forall (B : Browser) (s : State) (o : RTCSessionDescriptionInit)
         (caller : string),
    (let (s', t) := step B (Socket "call-made" (data_offer o caller)) s in
     s' = with_callStatus IncomingCall
            (with_incomingCallData (Some (mkIncoming o caller)) s) /\
     callStatus s' = IncomingCall /\
     incomingCallData s' = Some (mkIncoming o caller) /\
     status_writes t = [IncomingCall] /\
     emitted t = [] /\ (forall p, calls_on p t = [])) /\
    incomingCallData (fst (exec rejectCall s)) = None /\
    (wf s -> incomingCallData (fst (exec endCall s)) = None).
Proof.
  intros B s o caller. split; [| split].
  - unfold step, handle, socket_receive. simpl. unfold on_call_made. unfold_M.
    simpl. repeat split; reflexivity.
  - reflexivity.
  - intros [Href _]. unfold exec. rewrite endCall_eq.
    destruct (peerManagerRef s) as [m |] eqn:Hm; [| reflexivity].
    specialize (Href m eq_refl).
    destruct (managers s !! m) as [mgr |] eqn:Hmgr; [reflexivity |].
    apply lookup_ge_None in Hmgr. lia.
Qed.

Lemma C9_witness :
  incomingCallData
    (fst (exec endCall (state_after ringing_while_connected))) = None.
Proof.
  exact (proj2 (proj2 (C9_offer_received granting
                         (state_after ringing_while_connected)
                         remote_offer "C"))
           (wf_state_after ringing_while_connected)).
Defined.

(** ** Inbound end of call *)

(** C4, as stated, fails: after an inbound [call-end] the status is
    still Connected and the connection is still open, whereas the local
    end intent in the same state closes it and ends in Call Ended. *)
Lemma C4_counterexample :
  callStatus (state_after remote_hangs_up) = Connected /\
  length (live (state_after remote_hangs_up)) = 1 /\
  callStatus (state_after local_hangs_up) = CallEnded /\
  length (live (state_after local_hangs_up)) = 0.
Proof. repeat split; reflexivity. Qed.

Lemma listener_registered name h :
  listener name socket_on = Some h ->
  name = "me" \/ name = "call-made" \/ name = "answer-made"
  \/ name = "ice-candidate".
Proof.
  unfold socket_on. cbn [listener]. intros H.
  destruct (String.eqb "me" name) eqn:E1;
    [apply String.eqb_eq in E1; auto |].
  destruct (String.eqb "call-made" name) eqn:E2;
    [apply String.eqb_eq in E2; auto |].
  destruct (String.eqb "answer-made" name) eqn:E3;
    [apply String.eqb_eq in E3; auto |].
  destruct (String.eqb "ice-candidate" name) eqn:E4;
    [apply String.eqb_eq in E4; auto 6 |].
  discriminate H.
Qed.

(** C4, amended. No handler is registered for an inbound end-of-call
    message: an event named [call-end], and any event whose name is not
    one of the four registered ones, leaves the state as it is and has no
    effect on the outside world. *)
Theorem C4_inbound_call_end_is_ignored :
  forall (B : Browser) (s : State) (data : Payload),
    step B (Socket "call-end" data) s = (s, []) /\
    (forall name,
        name <> "me" -> name <> "call-made" -> name <> "answer-made" ->
        name <> "ice-candidate" ->
        step B (Socket name data) s = (s, [])).
Proof.
  intros B s data. split; [reflexivity |].
  intros name H1 H2 H3 H4. unfold step, handle, socket_receive.
  destruct (listener name socket_on) as [h |] eqn:E; [| reflexivity].
  apply listener_registered in E. tauto.
Qed.

Lemma C4_witness :
  step granting (Socket "bye" data_none) (state_after connected_to_B)
  = (state_after connected_to_B, []).
Proof.
  apply (proj2 (C4_inbound_call_end_is_ignored granting
                  (state_after connected_to_B) data_none) "bye");
    intros H; discriminate H.
Defined.

(** ** Early candidates *)

(** C2, as stated, fails.  A candidate that arrives before the answer
    is passed to [addIceCandidate] at once, before any remote
    description is set; the browser rejects it, and once the answer has
    been applied the connection has the remote description and no
    candidate: the early one was dropped.  Whatever the browser does with
    the early call, no [addIceCandidate] follows [setRemoteDescription]. *)
Lemma C2_counterexample :
  pc_remoteDescription <$> pcs (state_after (early_candidate
                                               no_remote_description_yet)) !! 0
  = Some (Some remote_answer) /\
  pc_remoteCandidates <$> pcs (state_after (early_candidate
                                              no_remote_description_yet)) !! 0
  = Some [] /\
  callStatus (state_after (early_candidate no_remote_description_yet))
  = WaitingForAnswer /\
  calls_on 0 (trace_of (early_candidate no_remote_description_yet))
  = [New; AddTrack 0; AddTrack 1; CreateOffer;
     SetLocalDescription local_offer; AddIceCandidate host_candidate;
     SetRemoteDescription remote_answer] /\
  calls_on 0 (trace_of (early_candidate granting))
  = [New; AddTrack 0; AddTrack 1; CreateOffer;
     SetLocalDescription local_offer; AddIceCandidate host_candidate;
     SetRemoteDescription remote_answer].
Proof. repeat split; reflexivity. Qed.

Lemma inbound_candidate B s x :
  let (s', t) := step B (Socket "ice-candidate"
                           (data_candidate (Some x))) s in
  callStatus s' = callStatus s /\ status_writes t = [] /\
  emitted t = [] /\
  (addIceCandidate_resolves B = false -> s' = s) /\
  (forall m mgr p c,
      peerManagerRef s = Some m -> managers s !! m = Some mgr ->
      pcm_pc mgr = Some p -> pcs s !! p = Some c ->
      calls_on p t = [AddIceCandidate x] /\
      (addIceCandidate_resolves B = true -> pc_isClosed c = false ->
       pc_remoteCandidates <$> pcs s' !! p
       = Some (pc_remoteCandidates c ++ [x]))).
Proof.
  unfold step, handle, socket_receive. cbn [listener socket_on].
  simpl. unfold on_ice_candidate. unfold mbind at 1.
  unfold M_bind, bind, get, exec.
  destruct (peerManagerRef s) as [m |] eqn:Href.
  2:{ simpl. repeat split; try reflexivity; discriminate. }
  rewrite handleIceCandidate_eq.
  destruct (managers s !! m) as [mgr |] eqn:Hm.
  2:{ simpl. repeat split; try reflexivity; intros; simplify_eq. }
  destruct (pcm_pc mgr) as [p |] eqn:Hp.
  2:{ simpl. repeat split; try reflexivity; intros; simplify_eq. }
  unfold pc_open.
  destruct (addIceCandidate_resolves B) eqn:HB;
    destruct (pcs s !! p) as [c |] eqn:Hc;
    try destruct (pc_isClosed c) eqn:Hcl; simpl.
  all: repeat split; try reflexivity; try discriminate.
  all: intros; simplify_eq; rewrite ?Nat.eqb_refl;
    rewrite ?list_lookup_alter_eq, ?Hc; try reflexivity.
  congruence.
Qed.

Lemma answer_keeps_candidates B s a :
  pc_remoteCandidates <$>
    pcs (fst (step B (Socket "answer-made" (data_answer a)) s))
  = pc_remoteCandidates <$> pcs s.
Proof.
  unfold step, handle, socket_receive. cbn [listener socket_on].
  simpl. unfold on_answer_made. unfold mbind at 1.
  unfold M_bind, bind, console, tell, exec.
  unfold mbind at 1. unfold M_bind, bind, get.
  destruct (peerManagerRef s) as [m |] eqn:Href; [| reflexivity].
  rewrite handleAnswer_eq.
  destruct (managers s !! m) as [mgr |] eqn:Hm; [| reflexivity].
  destruct (pcm_pc mgr) as [p |] eqn:Hp; [| reflexivity].
  destruct (setRemoteDescription_resolves B && pc_open p s);
    [| reflexivity].
  simpl. apply fmap_alter_same. intros c. reflexivity.
Qed.

(** C2, amended.  An inbound candidate is not buffered: it is passed to
    [addIceCandidate] of the current connection in the turn in which it
    arrives, once.  If the browser accepts it, it is appended to the
    candidates of that connection; if the browser rejects it (as it does
    before the remote description is set) the error is logged and the
    state is exactly as before, so the candidate is dropped.  In neither
    case is the status written or anything emitted, and applying a
    remote description later changes the candidates of no connection. *)
Theorem C2_candidates_are_applied_on_arrival :
  forall (B : Browser) (s : State) (x : RTCIceCandidateInit),
    (forall s' t,
        step B (Socket "ice-candidate" (data_candidate (Some x))) s = (s', t) ->
        callStatus s' = callStatus s /\ status_writes t = [] /\
        emitted t = [] /\
        (addIceCandidate_resolves B = false -> s' = s) /\
        (forall m mgr p c,
            peerManagerRef s = Some m -> managers s !! m = Some mgr ->
            pcm_pc mgr = Some p -> pcs s !! p = Some c ->
            calls_on p t = [AddIceCandidate x] /\
            (addIceCandidate_resolves B = true -> pc_isClosed c = false ->
             pc_remoteCandidates <$> pcs s' !! p
             = Some (pc_remoteCandidates c ++ [x])))) /\
    (forall a,
        pc_remoteCandidates <$>
          pcs (fst (step B (Socket "answer-made" (data_answer a)) s))
        = pc_remoteCandidates <$> pcs s).
Proof.
  intros B s x. split.
  - intros s' t E. pose proof (inbound_candidate B s x) as H.
    rewrite E in H. exact H.
  - intros a. apply answer_keeps_candidates.
Qed.

Lemma C2_witness :
  fst (step no_remote_description_yet
         (Socket "ice-candidate" (data_candidate (Some host_candidate)))
         (state_after calling_B))
  = state_after calling_B /\
  calls_on 0
    (snd (step no_remote_description_yet
            (Socket "ice-candidate" (data_candidate (Some host_candidate)))
            (state_after calling_B)))
  = [AddIceCandidate host_candidate].
Proof.
  assert (step no_remote_description_yet
            (Socket "ice-candidate" (data_candidate (Some host_candidate)))
            (state_after calling_B)
          = (state_after calling_B,
             [Pc 0 (AddIceCandidate host_candidate);
              Console console_error "Error adding ICE candidate:"])) as E
    by (vm_compute; reflexivity).
  destruct (proj1 (C2_candidates_are_applied_on_arrival
                     no_remote_description_yet (state_after calling_B)
                     host_candidate) _ _ E)
    as (_ & _ & _ & Hsame & Hsession).
  rewrite E. split.
  - exact (Hsame eq_refl).
  - refine (proj1 (Hsession 0 _ 0 _ _ _ _ _)); vm_compute; reflexivity.
Defined.

(** ** A second answer *)

(** C7, as stated, fails.  The connected initiator holds the remote
    description of the first answer.  When a second answer arrives and
    the browser rejects it, the status changes from Connected to Call
    Failed; were the browser to accept it, the stored remote description
    would be replaced.  Nothing in the program tells a stale answer from
    a first one. *)
Lemma C7_counterexample :
  callStatus (state_after connected_to_B) = Connected /\
  pc_remoteDescription <$> pcs (state_after connected_to_B) !! 0
  = Some (Some remote_answer) /\
  callStatus (state_after (answered_twice already_stable)) = CallFailed /\
  pc_remoteDescription <$> pcs (state_after (answered_twice granting)) !! 0
  = Some (Some second_answer).
Proof. repeat split; reflexivity. Qed.

(** C7, amended.  For the current Transport Session with a remote
    description already set, a second inbound CallAnswer is passed to
    [setRemoteDescription]; when the browser rejects it, the error is
    logged, every connection is left as it was (the stored remote
    description is not mutated and the session is not closed), no
    message is sent, but the status becomes Call Failed. *)
Theorem C7_second_answer_rejected_by_browser :
  forall (B : Browser) (s : State) (m : nat) (mgr : PeerConnectionManager)
         (p : nat) (c : RTCPeerConnection)
         (d a : RTCSessionDescriptionInit),
    peerManagerRef s = Some m ->
    managers s !! m = Some mgr ->
    pcm_pc mgr = Some p ->
    pcs s !! p = Some c ->
    pc_remoteDescription c = Some d ->
    setRemoteDescription_resolves B = false ->
    step B (Socket "answer-made" (data_answer a)) s
    = (with_callStatus CallFailed s,
       [Console console_log "Answer received from peer.";
        Pc p (SetRemoteDescription a);
        Console console_error "Error handling answer:";
        SetCallStatus CallFailed]) /\
    pcs (fst (step B (Socket "answer-made" (data_answer a)) s)) !! p
    = Some c.
Proof.
  intros B s m mgr p c d a Href Hm Hp Hc Hd HB.
  assert (step B (Socket "answer-made" (data_answer a)) s
          = (with_callStatus CallFailed s,
             [Console console_log "Answer received from peer.";
              Pc p (SetRemoteDescription a);
              Console console_error "Error handling answer:";
              SetCallStatus CallFailed])) as E.
  { unfold step, handle, socket_receive. cbn [listener socket_on]. simpl.
    unfold on_answer_made. unfold mbind at 1.
    unfold M_bind, bind, console, tell, exec.
    unfold mbind at 1. unfold M_bind, bind, get.
    rewrite Href, handleAnswer_eq, Hm, Hp, HB. reflexivity. }
  split; [exact E |]. rewrite E. exact Hc.
Qed.

Lemma C7_witness :
  step already_stable (Socket "answer-made" (data_answer second_answer))
    (state_after connected_to_B)
  = (with_callStatus CallFailed (state_after connected_to_B),
     [Console console_log "Answer received from peer.";
      Pc 0 (SetRemoteDescription second_answer);
      Console console_error "Error handling answer:";
      SetCallStatus CallFailed]).
Proof.
  refine (proj1 (C7_second_answer_rejected_by_browser already_stable
                   (state_after connected_to_B) 0 _ 0 _ remote_answer
                   second_answer _ _ _ _ _ _)); reflexivity.
Defined.

(** ** Transport failure *)

(** C1: what the code does.  When the transport of the manager's
    connection reports [failed] or [disconnected], the handler writes
    Call Ended and then calls [close()], which closes the connection and
    writes Idle: the status writes of the turn are Call Ended, Idle, and
    the turn ends in status Idle, not Call Ended. *)
Theorem C1_transport_failure_ends_in_idle :
  forall (B : Browser) (s : State) (p : nat) (c : RTCPeerConnection)
         (m : nat) (mgr : PeerConnectionManager)
         (st : RTCIceConnectionState),
    pcs s !! p = Some c ->
    pc_isClosed c = false ->
    pc_this c = Some m ->
    managers s !! m = Some mgr ->
    pcm_pc mgr = Some p ->
    pc_iceConnectionState c <> st ->
    st = ice_failed \/ st = ice_disconnected ->
    let (s', t) := step B (IceConnectionState p st) s in
    status_writes t = [CallEnded; Idle] /\
    callStatus s' = Idle /\
    calls_on p t = [Close] /\
    pc_open p s' = false /\
    pcm_pc <$> managers s' !! m = Some None.
Proof.
  intros B s p c m mgr st Hc Hcl Hthis Hm Hp Hne Hst.
  assert (ice_eqb (pc_iceConnectionState c) st = false) as Hne'.
  { destruct (ice_eqb _ st) eqn:E; [| reflexivity].
    apply ice_eqb_eq in E. contradiction. }
  unfold step, handle, ice_state_changes, fire, pc_update.
  unfold mbind at 1. unfold M_bind, bind, get, exec.
  rewrite Hc, Hcl, Hne'.
  assert (ice_eqb st ice_closed = false) as Hnc
    by (destruct Hst; subst st; reflexivity).
  rewrite Hnc. cbn [orb].
  unfold_M. cbn [pcs with_pcs]. rewrite list_lookup_alter_eq, Hc.
  cbn [fmap option_fmap option_map pc_isClosed pc_this
         pc_with_iceConnectionState].
  rewrite Hcl, Hthis.
  unfold PeerConnectionManager.oniceconnectionstatechange,
    PeerConnectionManager.the_pc, PeerConnectionManager.field, pc_get.
  unfold_M. cbn [managers with_pcs]. rewrite Hm. cbn. rewrite Hp. cbn.
  rewrite Hm. cbn. rewrite Hp. cbn.
  rewrite list_lookup_alter_eq, Hc. cbn.
  assert (ice_eqb st ice_connected = false) as Hncn
    by (destruct Hst; subst st; reflexivity).
  assert (ice_eqb st ice_disconnected || ice_eqb st ice_failed = true) as Hd
    by (destruct Hst; subst st; reflexivity).
  rewrite Hncn, Hd. cbn.
  rewrite close_eq. cbn [managers with_callStatus with_pcs]. rewrite Hm.
  cbn. rewrite Hp. cbn. rewrite Nat.eqb_refl.
  repeat split; try reflexivity.
  - unfold pc_open, closed. rewrite Hp. cbn.
    rewrite !list_lookup_alter_eq, Hc. reflexivity.
  - rewrite !list_lookup_alter_eq, Hm. reflexivity.
Qed.

Lemma C1_witness :
  callStatus
    (fst (step granting (IceConnectionState 0 ice_failed)
            (state_after connected_to_B))) = Idle.
Proof.
  pose proof (C1_transport_failure_ends_in_idle granting
                (state_after connected_to_B) 0 _ 0 _ ice_failed
                eq_refl eq_refl eq_refl eq_refl eq_refl) as H.
  assert (ice_connected <> ice_failed) as Hne by discriminate.
  specialize (H Hne (or_introl eq_refl)).
  destruct (step granting (IceConnectionState 0 ice_failed)
              (state_after connected_to_B)) as [s' t].
  destruct H as (_ & H & _). exact H.
Defined.

(** ** The end intent *)

Lemma status_writes_app t1 t2 :
  status_writes (t1 ++ t2) = status_writes t1 ++ status_writes t2.
Proof.
  induction t1 as [| e t1 IH]; [reflexivity |].
  destruct e; simpl; rewrite ?IH; reflexivity.
Qed.

Lemma status_writes_end_notice s : status_writes (end_notice s) = [].
Proof.
  unfold end_notice. destruct (or_else _ _) as [peer |]; [| reflexivity].
  destruct (truthy peer); reflexivity.
Qed.

Lemma managers_closed this mgr s :
  managers s !! this = Some mgr ->
  pcm_pc <$> managers (closed this mgr s) !! this = Some None.
Proof.
  intros Hm. unfold closed. destruct (pcm_pc mgr) eqn:Hp; cbn.
  - rewrite !list_lookup_alter_eq, Hm. reflexivity.
  - rewrite list_lookup_alter_eq, Hm. cbn. rewrite Hp. reflexivity.
Qed.

(** A manager without connection ignores a late report of its former
    transport. *)
Lemma oniceconnectionstatechange_late this s :
  pcm_pc <$> managers s !! this = Some None ->
  PeerConnectionManager.oniceconnectionstatechange this s = (Some tt, s, []).
Proof.
  intros H. unfold PeerConnectionManager.oniceconnectionstatechange,
    PeerConnectionManager.field. unfold_M.
  destruct (managers s !! this) as [mgr |]; [| discriminate H].
  cbn in H. injection H as H. rewrite H. reflexivity.
Qed.

(** What the end intent does in a well-formed state in which the end
    button is enabled: the turn ends in status Call Ended with
    [peerManagerRef] empty, and Call Ended is the last status the
    handler writes.  With a manager, [close()] runs first: the manager's
    connection, if any, is closed before any status is written, and
    [close()] writes Idle before the handler writes Call Ended, both in
    the same synchronous handler; afterwards the closed manager ignores
    a late report of its transport. *)
Lemma end_intent :
  forall (B : Browser) (s : State),
    wf s ->
    end_disabled s = false ->
    let (s', t) := step B ClickEnd s in
    callStatus s' = CallEnded /\
    peerManagerRef s' = None /\
    last (status_writes t) = Some CallEnded /\
    (peerManagerRef s = None -> status_writes t = [CallEnded]) /\
    (forall m mgr,
        peerManagerRef s = Some m -> managers s !! m = Some mgr ->
        status_writes t = [Idle; CallEnded] /\
        (forall p, pcm_pc mgr = Some p ->
                   pc_open p s' = false /\
                   exists t', t = Pc p Close :: SetCallStatus Idle :: t') /\
        PeerConnectionManager.oniceconnectionstatechange m s'
        = (Some tt, s', [])).
Proof.
  intros B s [Href _] Hen. unfold step, handle.
  unfold mbind at 1. unfold M_bind, bind, get, exec. rewrite Hen.
  rewrite endCall_eq.
  destruct (peerManagerRef s) as [m |] eqn:Hm.
  - specialize (Href m eq_refl).
    destruct (managers s !! m) as [mgr |] eqn:Hmgr.
    2:{ apply lookup_ge_None in Hmgr. lia. }
    cbn [app]. rewrite !status_writes_app.
    rewrite status_writes_end_notice.
    assert (status_writes
              match pcm_pc mgr with
              | Some p => [Pc p Close; SetCallStatus Idle]
              | None => [SetCallStatus Idle]
              end = [Idle]) as Hw by (destruct (pcm_pc mgr); reflexivity).
    rewrite Hw. cbn.
    refine (conj _ (conj _ (conj _ (conj _ _))));
      [reflexivity | reflexivity | reflexivity | discriminate |].
    intros m' mgr' Hm' Hmgr'. simplify_eq.
    refine (conj _ (conj _ _)); [reflexivity | |].
    + intros p Hp. split.
      * unfold pc_open, closed. rewrite Hp. cbn.
        rewrite list_lookup_alter_eq. destruct (pcs s !! p); reflexivity.
      * rewrite Hp. eexists. reflexivity.
    + apply oniceconnectionstatechange_late. cbn.
      apply managers_closed. assumption.
  - cbn [app]. rewrite status_writes_app.
    rewrite status_writes_end_notice. cbn.
    refine (conj _ (conj _ (conj _ (conj _ _))));
      [reflexivity | exact Hm | reflexivity | reflexivity |].
    intros m mgr Hm'. discriminate Hm'.
Qed.

Lemma close_not_connected this :
  only not_connected (PeerConnectionManager.close this).
Proof. unfold_handlers. only_walk. all: not_connected_leaves. Qed.

Lemma only_In {A} Φ (m : M A) s e : only Φ m -> In e (snd (m s)) -> Φ e.
Proof.
  intros H Hin. specialize (H s). rewrite Forall_forall in H.
  apply H. apply list_elem_of_In. exact Hin.
Qed.

(** The handler of [iceconnectionstatechange], run for its own
    connection [p] when that connection is in state [st]. *)
Lemma oniceconnectionstatechange_connected s this p c :
  owns this p s -> pcs s !! p = Some c ->
  In (SetCallStatus Connected)
     (snd (PeerConnectionManager.oniceconnectionstatechange this s)) ->
  pc_iceConnectionState c = ice_connected.
Proof.
  intros (mgr & Hm & Hp) Hc.
  unfold PeerConnectionManager.oniceconnectionstatechange,
    PeerConnectionManager.the_pc, PeerConnectionManager.field, pc_get.
  unfold_M. simpl. rewrite Hm, Hp. simpl. rewrite Hm, Hp. simpl.
  rewrite Hc. simpl.
  destruct (ice_eqb (pc_iceConnectionState c) ice_connected) eqn:E.
  - intros _. apply ice_eqb_eq. exact E.
  - destruct (ice_eqb _ ice_disconnected || ice_eqb _ ice_failed); simpl.
    + destruct (PeerConnectionManager.close this _) as [[r s2] t2] eqn:Ecl.
      simpl. intros [F | [F | F]]; try discriminate F.
      assert (In (SetCallStatus Connected)
                (snd (PeerConnectionManager.close this
                        (with_callStatus CallEnded s)))) as Hin.
      { rewrite Ecl. exact F. }
      apply (only_In _ _ _ _ (close_not_connected this)) in Hin.
      exfalso. apply Hin. reflexivity.
    + intros [F | []]. discriminate F.
Qed.

Lemma ice_state_changes_connected s p st :
  wf s ->
  In (SetCallStatus Connected) (snd (ice_state_changes p st s)) ->
  st = ice_connected.
Proof.
  intros [_ Hown]. unfold ice_state_changes, fire, pc_update. unfold_M. simpl.
  destruct (pcs s !! p) as [c |] eqn:Hc; simpl; [| intros []].
  destruct (pc_isClosed c) eqn:Hcl; simpl; [intros [] |].
  destruct (ice_eqb (pc_iceConnectionState c) st || ice_eqb st ice_closed);
    simpl; [intros [] |].
  rewrite list_lookup_alter_eq, Hc. simpl. rewrite Hcl.
  destruct (pc_this c) as [this |] eqn:Hthis; simpl; [| intros []].
  set (s1 := with_pcs _ s).
  destruct (PeerConnectionManager.oniceconnectionstatechange this s1)
    as [[r s2] t2] eqn:Eh.
  simpl. intros Hin.
  assert (In (SetCallStatus Connected)
            (snd (PeerConnectionManager.oniceconnectionstatechange this s1)))
    as Hin' by (rewrite Eh; exact Hin).
  apply (oniceconnectionstatechange_connected s1 this p
           (pc_with_iceConnectionState st c)) in Hin'.
  - exact Hin'.
  - exact (Hown p c this Hc Hcl Hthis).
  - subst s1. simpl. rewrite list_lookup_alter_eq, Hc. reflexivity.
Qed.

Lemma step_In Φ B e s x :
  only Φ (handle B e) -> In x (snd (step B e s)) -> Φ x.
Proof.
  intros H Hin. apply (only_In Φ (handle B e) s x H).
  unfold step, exec in Hin. destruct (handle B e s) as [[r s'] t]. exact Hin.
Qed.

Ltac never_connected H :=
  exfalso; apply (step_In not_connected) in H;
  [apply H; reflexivity | simpl].

(** ** When the status becomes Connected *)

(** C6, as stated, fails: once the responder has answered, the status is
    Connected although the transport has reported nothing and its ICE
    connection state is still [new]. *)
Lemma C6_counterexample :
  callStatus (state_after answering_A) = Connected /\
  pc_iceConnectionState <$> pcs (state_after answering_A) !! 0 = Some ice_new /\
  status_writes (trace_of answering_A) = [IncomingCall; Connecting; Connected].
Proof. repeat split; reflexivity. Qed.

(** C6, amended. In a well-formed state, [setCallStatus('Connected')] is
    called only in two turns: when the transport of a connection reports
    the ICE connection state [connected], and when the user answers an
    incoming call (the responder's [handleOffer], once the answer is
    sent).  An initiator that applies a received answer does not write
    Connected: the status is left as it is, or becomes Call Failed when
    applying the answer fails. *)
Theorem C6_when_connected_is_written :
  forall (B : Browser) (s : State),
    (forall e,
        wf s ->
        In (SetCallStatus Connected) (snd (step B e s)) ->
        e = ClickAnswer \/ exists p, e = IceConnectionState p ice_connected) /\
    (forall a,
        let (s', t) := step B (Socket "answer-made" (data_answer a)) s in
        (status_writes t = [] /\ callStatus s' = callStatus s) \/
        (status_writes t = [CallFailed] /\ callStatus s' = CallFailed)).
Proof.
  intros B s. split.
  - intros e Hwf Hin.
    destruct e as [v | | | | | name data | p st0 | p cand | p st].
    + never_connected Hin. apply only_modify.
    + never_connected Hin. only_walk. apply startCall_not_connected.
    + left. reflexivity.
    + never_connected Hin. only_walk. all: not_connected_leaves.
    + never_connected Hin. only_walk. apply endCall_not_connected.
    + never_connected Hin. apply socket_receive_not_connected.
    + never_connected Hin. apply fire_only. intros this.
      apply ontrack_not_connected.
    + never_connected Hin. apply fire_only. intros this.
      apply onicecandidate_not_connected.
    + right. exists p. f_equal.
      apply (ice_state_changes_connected s p st Hwf).
      unfold step, exec in Hin. simpl in Hin.
      destruct (ice_state_changes p st s) as [[r s'] t]. exact Hin.
  - intros a. unfold step, handle, socket_receive. cbn [listener socket_on].
    simpl. unfold on_answer_made. unfold mbind at 1.
    unfold M_bind, bind, console, tell, exec.
    unfold mbind at 1. unfold M_bind, bind, get.
    destruct (peerManagerRef s) as [m |]; [| left; split; reflexivity].
    rewrite handleAnswer_eq.
    destruct (managers s !! m) as [mgr |]; [| left; split; reflexivity].
    destruct (pcm_pc mgr) as [p |]; [| left; split; reflexivity].
    destruct (setRemoteDescription_resolves B && pc_open p s);
      [left | right]; split; reflexivity.
Qed.

Lemma C6_witness :
  IceConnectionState 0 ice_connected = ClickAnswer \/
  exists p, IceConnectionState 0 ice_connected
            = IceConnectionState p ice_connected.
Proof.
  apply (proj1 (C6_when_connected_is_written granting
                  (state_after
                     (calling_B ++
                      [(granting,
                        Socket "answer-made" (data_answer remote_answer))])))
           (IceConnectionState 0 ice_connected)).
  - apply wf_state_after.
  - vm_compute. right. left. reflexivity.
Defined.

(** ** One transport at a time *)

Ltac no_close_leaves :=
  try (apply addTracks_only); unfold no_close; intros; discriminate.

Lemma initPeerConnection_from_new_no_close this :
  only no_close (initPeerConnection_from_new this).
Proof.
  unfold initPeerConnection_from_new. unfold_handlers. only_walk.
  all: no_close_leaves.
Qed.

Lemma createOffer_no_close B this :
  only no_close (PeerConnectionManager.createOffer B this).
Proof. unfold_handlers. only_walk. all: no_close_leaves. Qed.

Lemma handleOffer_no_close B this o :
  only no_close (PeerConnectionManager.handleOffer B this o).
Proof. unfold_handlers. only_walk. all: no_close_leaves. Qed.

Lemma localStream_or_getMedia_no_close B render :
  only no_close (localStream_or_getMedia B render).
Proof. unfold_handlers. only_walk. all: no_close_leaves. Qed.

(** On a manager without connection the guard of [initPeerConnection]
    does nothing. *)
Lemma initPeerConnection_without_pc this b r s mgr :
  managers s !! this = Some mgr -> pcm_pc mgr = None ->
  PeerConnectionManager.initPeerConnection this b r s =
  initPeerConnection_from_new this
    (with_managers
       (alter (pcm_with_remotePeerId (Some r)) this
          (alter (pcm_with_isInitiator b) this (managers s))) s).
Proof.
  intros Hm Hp.
  change (PeerConnectionManager.initPeerConnection this b r) with
    (PeerConnectionManager.assign this (pcm_with_isInitiator b);;
     PeerConnectionManager.assign this (pcm_with_remotePeerId (Some r));;
     pc ← PeerConnectionManager.field this pcm_pc;
     match pc with
     | Some old =>
         console console_warn
           "Existing peer connection found, closing it first.";;
         pc_close old
     | None => mret tt
     end;;
     initPeerConnection_from_new this).
  erewrite bind_silent; [| reflexivity].
  erewrite bind_silent; [| reflexivity].
  erewrite bind_silent.
  2:{ unfold PeerConnectionManager.field. cbn [managers with_managers].
      rewrite !list_lookup_alter_eq, Hm. cbn. rewrite Hp. reflexivity. }
  erewrite bind_silent; reflexivity.
Qed.

(** Creating the manager of a new call closes nothing: the manager is
    fresh, so the closing guard of [initPeerConnection] is skipped. *)
Lemma new_call_no_close stream b r (k : nat -> M unit) s :
  (forall manager, only no_close (k manager)) ->
  Forall no_close
    (snd ((manager ← PeerConnectionManager.new stream;
           modify (with_peerManagerRef (Some manager));;
           PeerConnectionManager.initPeerConnection manager b r;;
           k manager) s)).
Proof.
  intros Hk.
  erewrite bind_silent; [| reflexivity].
  erewrite bind_silent; [| reflexivity].
  set (s1 := with_peerManagerRef _ _).
  set (this := length (managers s)).
  assert (managers s1 !! this = Some (mkManager stream None false None)) as Hm
    by (apply list_lookup_middle; reflexivity).
  unfold mbind, M_bind, bind.
  rewrite (initPeerConnection_without_pc this b r s1 _ Hm eq_refl).
  pose proof (initPeerConnection_from_new_no_close this) as H1.
  match goal with
  | |- context [initPeerConnection_from_new this ?s2] => specialize (H1 s2);
      destruct (initPeerConnection_from_new this s2) as [[[u |] s3] t3]
  end; cbn in *; [| exact H1].
  specialize (Hk this s3).
  destruct (k this s3) as [[o s4] t4]. cbn in *.
  apply Forall_app. split; assumption.
Qed.

Lemma startCall_no_close B : only no_close (startCall B).
Proof.
  intros s. unfold startCall. erewrite bind_silent; [| reflexivity].
  destruct (negb (truthy (targetId s))).
  { revert s. change (only no_close
                        (console console_error "Please enter a User ID to call.";;
                         setCallStatus Idle)).
    unfold_handlers. only_walk. all: no_close_leaves. }
  destruct (_ || _); [constructor |].
  unfold mbind at 1. unfold M_bind, bind.
  pose proof (localStream_or_getMedia_no_close B s s) as H1.
  destruct (localStream_or_getMedia B s s) as [[[stream |] s1] t1];
    cbn in H1; [| exact H1].
  destruct stream as [stream |].
  - match goal with
    | |- Forall _ (snd (let (_, _) := ?X in _)) =>
        assert (Forall no_close (snd X)) as H2
          by (apply new_call_no_close; apply createOffer_no_close);
        destruct X as [[o s2] t2]
    end.
    cbn in *. apply Forall_app. split; assumption.
  - cbn. rewrite app_nil_r. exact H1.
Qed.

Lemma answerCall_no_close B : only no_close (answerCall B).
Proof.
  intros s. unfold answerCall. erewrite bind_silent; [| reflexivity].
  destruct (incomingCallData s) as [data |]; [| constructor].
  destruct (negb _); [constructor |].
  unfold mbind at 1. unfold M_bind, bind.
  pose proof (localStream_or_getMedia_no_close B s s) as H1.
  destruct (localStream_or_getMedia B s s) as [[[stream |] s1] t1];
    cbn in H1; [| exact H1].
  destruct stream as [stream |].
  - match goal with
    | |- Forall _ (snd (let (_, _) := ?X in _)) =>
        assert (Forall no_close (snd X)) as H2;
        [| destruct X as [[o s2] t2]]
    end.
    { apply (new_call_no_close stream false (callerId data)
               (fun manager =>
                  PeerConnectionManager.handleOffer B manager (offer data);;
                  setIncomingCallData None)).
      intros manager. apply only_bind; [apply handleOffer_no_close |].
      intros ?. apply only_modify. }
    cbn in *. apply Forall_app. split; assumption.
  - cbn. rewrite app_nil_r. exact H1.
Qed.

(** C3: what the code does.  The start and the answer intent never call
    [close()] on any connection, whatever the state: they build a fresh
    manager, whose [pc] is [null], so the guard of [initPeerConnection]
    that closes an existing connection is skipped, and the connection of
    the previous manager is left as it is.  In the run: during the
    connected call with "B" an offer from "C" arrives and the user
    answers; connection 0 is never closed, the first manager still owns
    it, and two connections are open at once. *)
Theorem C3_two_live_transports :
  (forall (B : Browser) (s : State) (p : nat),
      ~ In (Pc p Close) (snd (step B ClickCall s)) /\
      ~ In (Pc p Close) (snd (step B ClickAnswer s))) /\
  pc_isClosed <$> pcs (state_after second_call) = [false; false] /\
  length (live (state_after second_call)) = 2 /\
  pcm_pc <$> managers (state_after second_call) = [Some 0; Some 1] /\
  peerManagerRef (state_after second_call) = Some 1 /\
  calls_on 0 (trace_of second_call)
  = [New; AddTrack 0; AddTrack 1; CreateOffer;
     SetLocalDescription local_offer; SetRemoteDescription remote_answer] /\
  calls_on 1 (trace_of second_call)
  = [New; AddTrack 0; AddTrack 1; SetRemoteDescription remote_offer;
     CreateAnswer; SetLocalDescription local_answer].
Proof.
  split; [| repeat split; reflexivity].
  intros B s p. split; intros Hin.
  - apply (step_In no_close) in Hin; [exact (Hin p eq_refl) |].
    simpl. apply only_bind; [apply only_get |]. intros s0.
    destruct (call_disabled s0); [apply only_ret | apply startCall_no_close].
  - apply (step_In no_close) in Hin; [exact (Hin p eq_refl) |].
    simpl. apply only_bind; [apply only_get |]. intros s0.
    destruct (dialog_shown s0); [apply answerCall_no_close | apply only_ret].
Qed.

(** ** Creating the manager and the connection of a call *)

Lemma pc_eta c :
  mkPC (pc_isClosed c) (pc_localDescription c) (pc_remoteDescription c)
    (pc_iceConnectionState c) (pc_senders c) (pc_remoteCandidates c)
    (pc_this c) = c.
Proof. destruct c; reflexivity. Qed.

Lemma state_eta s :
  mkState (currentId s) (targetId s) (localStream s) (remoteStream s)
    (callStatus s) (incomingCallData s) (peerManagerRef s) (managers s)
    (pcs s) = s.
Proof. destruct s; reflexivity. Qed.

Lemma addTracks_eq this p tracks : forall s c,
  owns this p s -> pcs s !! p = Some c -> pc_isClosed c = false ->
  PeerConnectionManager.addTracks this tracks s =
  (Some tt, with_pcs (alter (pc_with_senders tracks) p (pcs s)) s,
   map (fun t => Pc p (AddTrack t)) tracks).
Proof.
  induction tracks as [| t rest IH]; intros s c Hown Hc Hcl.
  - cbn [PeerConnectionManager.addTracks map]. rewrite list_alter_id.
    + unfold with_pcs. rewrite state_eta. reflexivity.
    + intros x. unfold pc_with_senders. rewrite app_nil_r. apply pc_eta.
  - destruct Hown as (mgr & Hm & Hp).
    cbn [PeerConnectionManager.addTracks].
    erewrite bind_silent.
    2:{ unfold PeerConnectionManager.field. rewrite Hm, Hp. reflexivity. }
    unfold pc_addTrack, pc_method. unfold mbind, M_bind, bind.
    unfold pc_open. rewrite Hc, Hcl. cbn [negb].
    rewrite (IH _ (pc_with_sender t c)).
    + cbn. f_equal. f_equal. unfold with_pcs. cbn. f_equal.
      rewrite list_alter_alter_eq. apply list_alter_ext; [| reflexivity].
      intros x _. unfold pc_with_senders, pc_with_sender. cbn.
      rewrite <- app_assoc. reflexivity.
    + exists mgr. split; assumption.
    + cbn. rewrite list_lookup_alter_eq, Hc. reflexivity.
    + exact Hcl.
Qed.

Lemma bind_eq {A B} (m : M A) (k : A -> M B) s a s1 t1 r s2 t2 :
  m s = (Some a, s1, t1) -> k a s1 = (r, s2, t2) ->
  (m ≫= k) s = (r, s2, t1 ++ t2).
Proof.
  intros E1 E2. unfold mbind, M_bind, bind. rewrite E1, E2. reflexivity.
Qed.

Lemma alter_last {A} (f : A -> A) (l : list A) (x : A) :
  alter f (length l) (l ++ [x]) = l ++ [f x].
Proof.
  rewrite alter_app_r_alt by lia. rewrite Nat.sub_diag. reflexivity.
Qed.

Lemma initPeerConnection_from_new_eq this s mgr :
  managers s !! this = Some mgr ->
  initPeerConnection_from_new this s =
  (Some tt,
   with_pcs (pcs s ++ [connection_of this (pcm_localStream mgr)])
     (with_callStatus Connecting
        (with_managers
           (alter (pcm_with_pc (Some (length (pcs s)))) this (managers s)) s)),
   prepare_trace (length (pcs s)) (pcm_localStream mgr)).
Proof.
  intros Hm. unfold initPeerConnection_from_new.
  set (p := length (pcs s)).
  etransitivity.
  { eapply bind_eq; [reflexivity |].
    eapply bind_eq; [reflexivity |].
    eapply bind_eq; [reflexivity |].
    eapply bind_eq.
    { unfold PeerConnectionManager.field. cbn.
      rewrite list_lookup_alter_eq, Hm. reflexivity. }
    eapply bind_eq.
    { apply (addTracks_eq this p _ _ fresh_pc).
      - eexists. cbn. rewrite list_lookup_alter_eq, Hm. split; reflexivity.
      - cbn. apply list_lookup_middle. reflexivity.
      - reflexivity. }
    eapply bind_eq.
    { unfold PeerConnectionManager.the_pc. eapply bind_eq.
      - unfold PeerConnectionManager.field. cbn.
        rewrite list_lookup_alter_eq, Hm. reflexivity.
      - reflexivity. }
    reflexivity. }
  cbn. unfold prepare_trace, with_pcs. cbn. fold p.
  rewrite !app_nil_r. f_equal. f_equal. f_equal.
  subst p. rewrite !alter_last. reflexivity.
Qed.

(** [new PeerConnectionManager], the assignment to [peerManagerRef] and
    [initPeerConnection] in a row, as in [startCall] and [answerCall]. *)
Lemma new_call_eq stream b r (k : nat -> M unit) s :
  (manager ← PeerConnectionManager.new stream;
   modify (with_peerManagerRef (Some manager));;
   PeerConnectionManager.initPeerConnection manager b r;;
   k manager) s =
  match k (length (managers s)) (prepared stream b r s) with
  | (o, s', t) => (o, s', prepare_trace (length (pcs s)) stream ++ t)
  end.
Proof.
  erewrite bind_silent; [| reflexivity].
  erewrite bind_silent; [| reflexivity].
  set (this := length (managers s)).
  set (s1 := with_peerManagerRef _ _).
  assert (managers s1 !! this = Some (mkManager stream None false None)) as Hm
    by (apply list_lookup_middle; reflexivity).
  unfold mbind, M_bind, bind.
  rewrite (initPeerConnection_without_pc this b r s1 _ Hm eq_refl).
  erewrite initPeerConnection_from_new_eq.
  2:{ cbn. rewrite !list_lookup_alter_eq. subst s1. cbn.
      rewrite list_lookup_middle by reflexivity. reflexivity. }
  match goal with
  | |- context [k this ?X] => replace X with (prepared stream b r s)
  end.
  - cbn. destruct (k this (prepared stream b r s)) as [[o s'] t]. reflexivity.
  - unfold prepared, with_pcs, with_callStatus, with_managers. cbn.
    subst this. rewrite !alter_last. reflexivity.
Qed.

(** ** The two negotiations *)

Lemma with_pcs_alter_id p s :
  with_pcs (alter (fun c : RTCPeerConnection => c) p (pcs s)) s = s.
Proof.
  rewrite list_alter_id by reflexivity. unfold with_pcs. apply state_eta.
Qed.

Lemma createOffer_eq B this s mgr p peer c :
  managers s !! this = Some mgr -> pcm_pc mgr = Some p ->
  pcm_remotePeerId mgr = Some peer -> truthy peer = true ->
  pcs s !! p = Some c -> pc_isClosed c = false ->
  PeerConnectionManager.createOffer B this s =
  match createOffer_resolves B with
  | Some d =>
      if setLocalDescription_resolves B then
        (Some tt,
         with_callStatus WaitingForAnswer
           (with_pcs (alter (pc_with_localDescription d) p (pcs s)) s),
         [Pc p CreateOffer; Pc p (SetLocalDescription d);
          Console console_log "Sending offer to peer:";
          Emit (call_user (Some d) (Some peer));
          SetCallStatus WaitingForAnswer])
      else
        (Some tt, with_callStatus CallFailed s,
         [Pc p CreateOffer; Pc p (SetLocalDescription d);
          Console console_error "Error creating or sending offer:";
          SetCallStatus CallFailed])
  | None =>
      (Some tt, with_callStatus CallFailed s,
       [Pc p CreateOffer;
        Console console_error "Error creating or sending offer:";
        SetCallStatus CallFailed])
  end.
Proof.
  intros Hm Hp Hpeer Htr Hc Hcl.
  unfold PeerConnectionManager.createOffer, PeerConnectionManager.the_pc,
    PeerConnectionManager.has_remotePeerId, PeerConnectionManager.field,
    pc_createOffer, pc_setLocalDescription, pc_method, pc_get, guard, pc_open.
  unfold_M.
  repeat first [ rewrite Hm | rewrite Hp | rewrite Hpeer | rewrite Htr
               | progress cbn ].
  destruct (createOffer_resolves B) as [d |]; [| reflexivity].
  repeat first [ rewrite Hm | rewrite Hp | rewrite Hpeer | rewrite Htr
               | rewrite Hc | rewrite Hcl | rewrite with_pcs_alter_id
               | progress cbn ].
  destruct (setLocalDescription_resolves B); [| reflexivity].
  repeat first [ rewrite Hm | rewrite Hp | rewrite Hpeer | rewrite Htr
               | rewrite Hc | rewrite Hcl | rewrite list_lookup_alter_eq
               | progress cbn ].
  reflexivity.
Qed.

Lemma handleOffer_eq B this o s mgr p peer c :
  managers s !! this = Some mgr -> pcm_pc mgr = Some p ->
  pcm_remotePeerId mgr = Some peer -> truthy peer = true ->
  pcs s !! p = Some c -> pc_isClosed c = false ->
  PeerConnectionManager.handleOffer B this o s =
  if setRemoteDescription_resolves B then
    match createAnswer_resolves B with
    | Some a =>
        if setLocalDescription_resolves B then
          (Some tt,
           with_callStatus Connected
             (with_pcs
                (alter (pc_with_localDescription a) p
                   (alter (pc_with_remoteDescription o) p (pcs s))) s),
           [Pc p (SetRemoteDescription o); Pc p CreateAnswer;
            Pc p (SetLocalDescription a);
            Console console_log "Sending answer back to caller:";
            Emit (answer_call (Some a) (Some peer));
            SetCallStatus Connected])
        else
          (Some tt,
           with_callStatus CallFailed
             (with_pcs (alter (pc_with_remoteDescription o) p (pcs s)) s),
           [Pc p (SetRemoteDescription o); Pc p CreateAnswer;
            Pc p (SetLocalDescription a);
            Console console_error "Error handling offer or creating answer:";
            SetCallStatus CallFailed])
    | None =>
        (Some tt,
         with_callStatus CallFailed
           (with_pcs (alter (pc_with_remoteDescription o) p (pcs s)) s),
         [Pc p (SetRemoteDescription o); Pc p CreateAnswer;
          Console console_error "Error handling offer or creating answer:";
          SetCallStatus CallFailed])
    end
  else
    (Some tt, with_callStatus CallFailed s,
     [Pc p (SetRemoteDescription o);
      Console console_error "Error handling offer or creating answer:";
      SetCallStatus CallFailed]).
Proof.
  intros Hm Hp Hpeer Htr Hc Hcl.
  unfold PeerConnectionManager.handleOffer, PeerConnectionManager.the_pc,
    PeerConnectionManager.has_remotePeerId, PeerConnectionManager.field,
    pc_createAnswer, pc_setRemoteDescription, pc_setLocalDescription,
    pc_method, pc_get, guard, pc_open.
  unfold_M.
  repeat first [ rewrite Hm | rewrite Hp | rewrite Hpeer | rewrite Htr
               | progress cbn ].
  destruct (setRemoteDescription_resolves B); [| reflexivity].
  repeat first [ rewrite Hm | rewrite Hp | rewrite Hpeer | rewrite Htr
               | rewrite Hc | rewrite Hcl | rewrite list_lookup_alter_eq
               | rewrite (list_alter_id (fun x : RTCPeerConnection => x))
                   by reflexivity
               | progress cbn ].
  destruct (createAnswer_resolves B) as [a |]; [| reflexivity].
  repeat first [ rewrite Hm | rewrite Hp | rewrite Hpeer | rewrite Htr
               | rewrite Hc | rewrite Hcl | rewrite list_lookup_alter_eq
               | rewrite (list_alter_id (fun x : RTCPeerConnection => x))
                   by reflexivity
               | progress cbn ].
  destruct (setLocalDescription_resolves B); [| reflexivity].
  repeat first [ rewrite Hm | rewrite Hp | rewrite Hpeer | rewrite Htr
               | rewrite Hc | rewrite Hcl | rewrite list_lookup_alter_eq
               | rewrite (list_alter_id (fun x : RTCPeerConnection => x))
                   by reflexivity
               | progress cbn ].
  reflexivity.
Qed.

(** Without a usable peer identifier neither negotiation starts. *)
Lemma negotiation_without_peer B this o s mgr :
  managers s !! this = Some mgr ->
  match pcm_remotePeerId mgr with
  | Some peer => truthy peer = false
  | None => True
  end ->
  PeerConnectionManager.createOffer B this s = (Some tt, s, []) /\
  PeerConnectionManager.handleOffer B this o s = (Some tt, s, []).
Proof.
  intros Hm Hpeer.
  assert (PeerConnectionManager.field this pcm_pc s
          = (Some (pcm_pc mgr), s, [])) as Hpc
    by (unfold PeerConnectionManager.field; rewrite Hm; reflexivity).
  assert (PeerConnectionManager.has_remotePeerId this s
          = (Some false, s, [])) as Hhas.
  { unfold PeerConnectionManager.has_remotePeerId.
    erewrite bind_silent;
      [| unfold PeerConnectionManager.field; rewrite Hm; reflexivity].
    destruct (pcm_remotePeerId mgr) as [peer |]; [rewrite Hpeer |];
      reflexivity. }
  unfold PeerConnectionManager.createOffer, PeerConnectionManager.handleOffer.
  rewrite !(bind_silent _ _ _ _ _ Hpc), !(bind_silent _ _ _ _ _ Hhas).
  cbn [negb]. rewrite orb_true_r. split; reflexivity.
Qed.

(** ** The start and the answer intent, step by step *)

Lemma localStream_or_getMedia_eq B s stream :
  stream_for B s = Some stream ->
  localStream_or_getMedia B s s =
  (Some (Some stream), with_localStream (Some stream) s, acquisition s).
Proof.
  unfold stream_for, localStream_or_getMedia, acquisition.
  destruct (localStream s) as [st |] eqn:HL.
  - intros [= ->]. cbn. unfold with_localStream. rewrite <- HL, state_eta.
    reflexivity.
  - intros HB. unfold getMedia, mediaDevices_getUserMedia. unfold_M.
    rewrite HB. reflexivity.
Qed.

Lemma startCall_eq B s stream :
  truthy (targetId s) = true -> call_disabled s = false ->
  stream_for B s = Some stream ->
  startCall B s =
  match PeerConnectionManager.createOffer B (length (managers s))
          (prepared stream true (targetId s)
             (with_localStream (Some stream) s)) with
  | (o, s', t) =>
      (o, s', acquisition s ++ prepare_trace (length (pcs s)) stream ++ t)
  end.
Proof.
  intros Ht Hd Hs. unfold startCall.
  erewrite bind_silent; [| reflexivity].
  rewrite Ht. cbn [negb]. unfold call_disabled in Hd. rewrite Hd.
  unfold mbind at 1. unfold M_bind, bind.
  rewrite (localStream_or_getMedia_eq B s stream Hs).
  rewrite new_call_eq. cbn [managers pcs with_localStream targetId].
  destruct (PeerConnectionManager.createOffer _ _ _) as [[o s'] t].
  reflexivity.
Qed.

Lemma answerCall_eq B s stream data :
  incomingCallData s = Some data -> callStatus s = IncomingCall ->
  stream_for B s = Some stream ->
  answerCall B s =
  match (PeerConnectionManager.handleOffer B (length (managers s))
           (offer data);; setIncomingCallData None)
          (prepared stream false (callerId data)
             (with_localStream (Some stream) s)) with
  | (o, s', t) =>
      (o, s', acquisition s ++ prepare_trace (length (pcs s)) stream ++ t)
  end.
Proof.
  intros Hi Hc Hs. unfold answerCall.
  erewrite bind_silent; [| reflexivity].
  rewrite Hi, Hc. cbn [CallStatus_eqb negb].
  unfold mbind at 1. unfold M_bind, bind.
  rewrite (localStream_or_getMedia_eq B s stream Hs).
  rewrite new_call_eq. cbn [managers pcs with_localStream].
  destruct ((PeerConnectionManager.handleOffer _ _ _;; _) _)
    as [[o s'] t].
  reflexivity.
Qed.

Lemma emitted_app t1 t2 : emitted (t1 ++ t2) = emitted t1 ++ emitted t2.
Proof.
  induction t1 as [| e t1 IH]; [reflexivity |].
  destruct e; simpl; rewrite ?IH; reflexivity.
Qed.

Lemma calls_on_app p t1 t2 :
  calls_on p (t1 ++ t2) = calls_on p t1 ++ calls_on p t2.
Proof.
  induction t1 as [| e t1 IH]; [reflexivity |].
  destruct e; simpl; rewrite ?IH; try reflexivity.
  destruct (Nat.eqb _ p); simpl; rewrite ?IH; reflexivity.
Qed.

Lemma attach_trace_observed p stream :
  status_writes (map (fun t => Pc p (AddTrack t)) stream) = [] /\
  emitted (map (fun t => Pc p (AddTrack t)) stream) = [] /\
  calls_on p (map (fun t => Pc p (AddTrack t)) stream) = map AddTrack stream.
Proof.
  repeat split; induction stream as [| t rest IH]; cbn;
    rewrite ?Nat.eqb_refl; try reflexivity; try exact IH.
  f_equal. exact IH.
Qed.

Lemma prepare_trace_observed p stream :
  status_writes (prepare_trace p stream) = [Connecting] /\
  emitted (prepare_trace p stream) = [] /\
  calls_on p (prepare_trace p stream) = New :: map AddTrack stream.
Proof.
  unfold prepare_trace. cbn. rewrite Nat.eqb_refl.
  repeat split; [f_equal | | f_equal];
    induction stream as [| t rest IH]; cbn; rewrite ?Nat.eqb_refl;
    try reflexivity; try exact IH.
  f_equal. exact IH.
Qed.

Lemma acquisition_observed s p :
  status_writes (acquisition s) = [] /\ emitted (acquisition s) = [] /\
  calls_on p (acquisition s) = [].
Proof. unfold acquisition. destruct (localStream s); repeat split. Qed.

(** What a trace shows to the three observers, taken apart. *)
Ltac observe :=
  rewrite ?status_writes_app, ?emitted_app, ?calls_on_app;
  repeat match goal with
         | |- context [acquisition ?s] =>
             first
               [ rewrite (proj1 (acquisition_observed s 0))
               | rewrite (proj1 (proj2 (acquisition_observed s 0)))
               | match goal with
                 | |- context [calls_on ?p (acquisition s)] =>
                     rewrite (proj2 (proj2 (acquisition_observed s p)))
                 end ]
         | |- context [map (fun t => Pc ?p (AddTrack t)) ?st] =>
             first
               [ rewrite (proj1 (attach_trace_observed p st))
               | rewrite (proj1 (proj2 (attach_trace_observed p st)))
               | rewrite (proj2 (proj2 (attach_trace_observed p st))) ]
         | |- context [prepare_trace ?p ?st] =>
             first
               [ rewrite (proj1 (prepare_trace_observed p st))
               | rewrite (proj1 (proj2 (prepare_trace_observed p st)))
               | rewrite (proj2 (proj2 (prepare_trace_observed p st))) ]
         end.

Section NewCall.
Context (B : Browser) (s : State) (stream : MediaStream).
Context (isInitiator : bool) (peer : string).

Let this := length (managers s).
Let p := length (pcs s).
Let s0 := prepared stream isInitiator peer (with_localStream (Some stream) s).

Lemma prepared_manager :
  managers s0 !! this
  = Some (mkManager stream (Some p) isInitiator (Some peer)).
Proof. apply list_lookup_middle. reflexivity. Qed.

Lemma prepared_connection :
  pcs s0 !! p = Some (connection_of this stream).
Proof. apply list_lookup_middle. reflexivity. Qed.

End NewCall.

Lemma truthy_nonempty (x : string) : x <> "" -> truthy x = true.
Proof.
  intros H. destruct (truthy x) eqn:E; [reflexivity |].
  apply truthy_empty in E. contradiction.
Qed.

Lemma step_ClickCall B s :
  call_disabled s = false -> step B ClickCall s = exec (startCall B) s.
Proof.
  intros H. unfold step, handle, exec.
  erewrite bind_silent; [| reflexivity]. rewrite H. reflexivity.
Qed.

Lemma step_ClickAnswer B s :
  dialog_shown s = true -> step B ClickAnswer s = exec (answerCall B) s.
Proof.
  intros H. unfold step, handle, exec.
  erewrite bind_silent; [| reflexivity]. rewrite H. reflexivity.
Qed.

(** X1.  A Call click with a target, in a status in which the button is
    enabled, with a local stream at hand or granted, and with a browser
    that produces and applies the offer: one manager (initiator, aimed
    at the target) and one connection are added after the existing
    ones, the connection carries the tracks of the stream in order and
    the offer as local description, exactly one [call-user] message with
    that offer goes to the target, the status is written twice
    (Connecting..., Waiting for answer...), and [peerManagerRef] names
    the new manager. *)
Theorem start_sends_one_offer :
  forall (B : Browser) (s : State) (stream : MediaStream)
         (d : RTCSessionDescriptionInit) (s' : State) (t : list Effect),
    targetId s <> "" ->
    call_disabled s = false ->
    stream_for B s = Some stream ->
    createOffer_resolves B = Some d ->
    setLocalDescription_resolves B = true ->
    step B ClickCall s = (s', t) ->
    callStatus s' = WaitingForAnswer /\
    localStream s' = Some stream /\
    peerManagerRef s' = Some (length (managers s)) /\
    managers s'
    = managers s ++
      [mkManager stream (Some (length (pcs s))) true (Some (targetId s))] /\
    pcs s'
    = pcs s ++
      [mkPC false (Some d) None ice_new stream [] (Some (length (managers s)))] /\
    status_writes t = [Connecting; WaitingForAnswer] /\
    emitted t = [call_user (Some d) (Some (targetId s))] /\
    calls_on (length (pcs s)) t
    = New :: map AddTrack stream ++ [CreateOffer; SetLocalDescription d].
Proof.
  intros B s stream d s' t Ht Hd Hs Ho Hl E.
  rewrite (step_ClickCall B s Hd) in E. unfold exec in E.
  rewrite (startCall_eq B s stream (truthy_nonempty _ Ht) Hd Hs) in E.
  erewrite createOffer_eq in E;
    [ | apply prepared_manager | reflexivity | reflexivity
      | apply truthy_nonempty, Ht | apply prepared_connection | reflexivity ].
  rewrite Ho, Hl in E. injection E as <- <-.
  cbn [callStatus localStream peerManagerRef managers pcs with_callStatus
         with_pcs prepared with_managers with_peerManagerRef
         with_localStream].
  rewrite alter_last. observe. cbn. rewrite ?Nat.eqb_refl.
  repeat split; observe; cbn; rewrite ?Nat.eqb_refl; reflexivity.
Qed.

Ltac observed :=
  repeat split;
  repeat (progress (observe; cbn; rewrite ?Nat.eqb_refl, ?app_nil_r));
  reflexivity.

(** X2.  When the browser fails to create the offer, or to apply it as
    local description, the Call click ends in Call Failed and nothing is
    sent; the manager and the connection created for the call stay: the
    connection is left open, without local description, and
    [peerManagerRef] names the new manager. *)
Theorem start_fails_without_offer :
  forall (B : Browser) (s : State) (stream : MediaStream)
         (s' : State) (t : list Effect),
    targetId s <> "" ->
    call_disabled s = false ->
    stream_for B s = Some stream ->
    createOffer_resolves B = None \/ setLocalDescription_resolves B = false ->
    step B ClickCall s = (s', t) ->
    callStatus s' = CallFailed /\
    peerManagerRef s' = Some (length (managers s)) /\
    managers s'
    = managers s ++
      [mkManager stream (Some (length (pcs s))) true (Some (targetId s))] /\
    pcs s' = pcs s ++ [connection_of (length (managers s)) stream] /\
    status_writes t = [Connecting; CallFailed] /\
    emitted t = [].
Proof.
  intros B s stream s' t Ht Hd Hs Hfail E.
  rewrite (step_ClickCall B s Hd) in E. unfold exec in E.
  rewrite (startCall_eq B s stream (truthy_nonempty _ Ht) Hd Hs) in E.
  erewrite createOffer_eq in E;
    [ | apply prepared_manager | reflexivity | reflexivity
      | apply truthy_nonempty, Ht | apply prepared_connection | reflexivity ].
  destruct (createOffer_resolves B) as [d |].
  - destruct Hfail as [Hfail | Hfail]; [discriminate Hfail |].
    rewrite Hfail in E. injection E as <- <-. observed.
  - injection E as <- <-. observed.
Qed.

Lemma step_answer B s stream data :
  incomingCallData s = Some data -> callStatus s = IncomingCall ->
  stream_for B s = Some stream ->
  step B ClickAnswer s =
  match (PeerConnectionManager.handleOffer B (length (managers s))
           (offer data);; setIncomingCallData None)
          (prepared stream false (callerId data)
             (with_localStream (Some stream) s)) with
  | (o, s', t) =>
      (s', acquisition s ++ prepare_trace (length (pcs s)) stream ++ t)
  end.
Proof.
  intros Hi Hc Hs. rewrite step_ClickAnswer.
  - unfold exec. rewrite (answerCall_eq B s stream data Hi Hc Hs).
    destruct ((PeerConnectionManager.handleOffer _ _ _;; _) _)
      as [[o s'] t].
    reflexivity.
  - unfold dialog_shown. rewrite Hi, Hc. reflexivity.
Qed.

(** X3.  An Answer click on a pending offer whose sender has a non-empty
    identifier, with a local stream at hand or granted and a browser
    that accepts the offer and produces and applies the answer: one
    manager (responder, aimed at the caller) and one connection are
    added, the connection holds the offer as remote and the answer as
    local description, exactly one [answer-call] message with the answer
    goes to the caller, the pending offer is cleared and the status is
    written twice (Connecting..., Connected). *)
Theorem answer_sends_one_answer :
  forall (B : Browser) (s : State) (stream : MediaStream)
         (data : IncomingCallData) (a : RTCSessionDescriptionInit)
         (s' : State) (t : list Effect),
    incomingCallData s = Some data ->
    callStatus s = IncomingCall ->
    callerId data <> "" ->
    stream_for B s = Some stream ->
    setRemoteDescription_resolves B = true ->
    createAnswer_resolves B = Some a ->
    setLocalDescription_resolves B = true ->
    step B ClickAnswer s = (s', t) ->
    callStatus s' = Connected /\
    incomingCallData s' = None /\
    localStream s' = Some stream /\
    peerManagerRef s' = Some (length (managers s)) /\
    managers s'
    = managers s ++
      [mkManager stream (Some (length (pcs s))) false (Some (callerId data))] /\
    pcs s'
    = pcs s ++
      [mkPC false (Some a) (Some (offer data)) ice_new stream []
         (Some (length (managers s)))] /\
    status_writes t = [Connecting; Connected] /\
    emitted t = [answer_call (Some a) (Some (callerId data))] /\
    calls_on (length (pcs s)) t
    = New :: map AddTrack stream ++
      [SetRemoteDescription (offer data); CreateAnswer; SetLocalDescription a].
Proof.
  intros B s stream data a s' t Hi Hc Hcaller Hs Hr Ha Hl E.
  rewrite (step_answer B s stream data Hi Hc Hs) in E.
  erewrite bind_eq in E.
  2:{ erewrite handleOffer_eq;
        [ | apply prepared_manager | reflexivity | reflexivity
          | apply truthy_nonempty, Hcaller | apply prepared_connection
          | reflexivity ].
      rewrite Hr, Ha, Hl. reflexivity. }
  2:{ reflexivity. }
  injection E as <- <-.
  cbn [callStatus localStream peerManagerRef managers pcs with_callStatus
         with_pcs prepared with_managers with_peerManagerRef
         with_localStream incomingCallData with_incomingCallData].
  rewrite !alter_last. observed.
Qed.

(** X4.  When the browser rejects the offer, or fails to create or to
    apply the answer, the Answer click ends in Call Failed and nothing
    is sent; the pending offer is cleared all the same, and the
    connection created for the call is left open, without local
    description. *)
Theorem answer_fails_without_answer :
  forall (B : Browser) (s : State) (stream : MediaStream)
         (data : IncomingCallData) (s' : State) (t : list Effect),
    incomingCallData s = Some data ->
    callStatus s = IncomingCall ->
    callerId data <> "" ->
    stream_for B s = Some stream ->
    setRemoteDescription_resolves B = false \/
    createAnswer_resolves B = None \/
    setLocalDescription_resolves B = false ->
    step B ClickAnswer s = (s', t) ->
    callStatus s' = CallFailed /\
    incomingCallData s' = None /\
    peerManagerRef s' = Some (length (managers s)) /\
    length (pcs s') = S (length (pcs s)) /\
    (exists c, pcs s' !! length (pcs s) = Some c /\
               pc_isClosed c = false /\ pc_localDescription c = None) /\
    status_writes t = [Connecting; CallFailed] /\
    emitted t = [].
Proof.
  intros B s stream data s' t Hi Hc Hcaller Hs Hfail E.
  rewrite (step_answer B s stream data Hi Hc Hs) in E.
  pose proof (handleOffer_eq B (length (managers s)) (offer data) _ _ _ _ _
                (prepared_manager s stream false (callerId data)) eq_refl
                eq_refl (truthy_nonempty _ Hcaller)
                (prepared_connection s stream false (callerId data)) eq_refl)
    as H.
  destruct (setRemoteDescription_resolves B);
    [destruct (createAnswer_resolves B) as [a |];
     [destruct (setLocalDescription_resolves B) |] |].
  1:{ destruct Hfail as [F | [F | F]]; discriminate F. }
  all: rewrite (bind_eq _ _ _ _ _ _ _ _ _ H eq_refl) in E;
    injection E as <- <-;
    cbn [callStatus localStream peerManagerRef managers pcs with_callStatus
           with_pcs prepared with_managers with_peerManagerRef
           with_localStream incomingCallData with_incomingCallData];
    rewrite ?alter_last, ?length_app; cbn [length];
    refine (conj _ (conj _ (conj _ (conj _ (conj _ _)))));
      [reflexivity | reflexivity | reflexivity | lia
      | eexists; split; [apply list_lookup_middle; reflexivity
                        | split; reflexivity]
      | observed].
Qed.

(** X5.  An Answer click on a pending offer whose sender identifier is
    the empty string: the manager and the connection are created and
    the tracks attached, but [handleOffer] returns at its guard, so no
    description is applied and no answer is sent; the pending offer is
    cleared and the status stays at Connecting.... *)
Theorem answer_to_empty_caller_negotiates_nothing :
  forall (B : Browser) (s : State) (stream : MediaStream)
         (data : IncomingCallData) (s' : State) (t : list Effect),
    incomingCallData s = Some data ->
    callStatus s = IncomingCall ->
    callerId data = "" ->
    stream_for B s = Some stream ->
    step B ClickAnswer s = (s', t) ->
    callStatus s' = Connecting /\
    incomingCallData s' = None /\
    pcs s' = pcs s ++ [connection_of (length (managers s)) stream] /\
    status_writes t = [Connecting] /\
    emitted t = [] /\
    calls_on (length (pcs s)) t = New :: map AddTrack stream.
Proof.
  intros B s stream data s' t Hi Hc Hcaller Hs E.
  rewrite (step_answer B s stream data Hi Hc Hs) in E.
  erewrite bind_eq in E.
  2:{ refine (proj2 (negotiation_without_peer B _ (offer data) _ _
                       (prepared_manager s stream false (callerId data)) _)).
      cbn. rewrite Hcaller. reflexivity. }
  2:{ reflexivity. }
  injection E as <- <-. observed.
Qed.

Lemma start_sends_one_offer_witness :
  callStatus (fst (step granting ClickCall (state_after typed_B)))
  = WaitingForAnswer /\
  emitted (snd (step granting ClickCall (state_after typed_B)))
  = [call_user (Some local_offer) (Some "B")].
Proof.
  assert (targetId (state_after typed_B) <> "") as Ht
    by (intros F; discriminate F).
  pose proof (start_sends_one_offer granting (state_after typed_B)
                camera_and_mic local_offer _ _ Ht eq_refl eq_refl eq_refl
                eq_refl (surjective_pairing _)) as H.
  split; [exact (proj1 H) |].
  exact (proj1 (proj2 (proj2 (proj2 (proj2 (proj2 (proj2 H))))))).
Defined.

Lemma start_fails_without_offer_witness :
  callStatus (fst (step without_offer ClickCall (state_after typed_B)))
  = CallFailed.
Proof.
  assert (targetId (state_after typed_B) <> "") as Ht
    by (intros F; discriminate F).
  exact (proj1 (start_fails_without_offer without_offer (state_after typed_B)
                  camera_and_mic _ _ Ht eq_refl eq_refl (or_introl eq_refl)
                  (surjective_pairing _))).
Defined.

Lemma answer_sends_one_answer_witness :
  emitted (snd (step granting ClickAnswer (state_after ringing_from_A)))
  = [answer_call (Some local_answer) (Some "A")].
Proof.
  assert ("A" <> "") as Hc by (intros F; discriminate F).
  pose proof (answer_sends_one_answer granting (state_after ringing_from_A)
                camera_and_mic (mkIncoming remote_offer "A") local_answer
                _ _ eq_refl eq_refl Hc eq_refl eq_refl eq_refl eq_refl
                (surjective_pairing _)) as H.
  exact (proj1 (proj2 (proj2 (proj2 (proj2 (proj2 (proj2 (proj2 H)))))))).
Defined.

Lemma answer_fails_without_answer_witness :
  callStatus
    (fst (step already_stable ClickAnswer (state_after ringing_from_A)))
  = CallFailed.
Proof.
  assert ("A" <> "") as Hc by (intros F; discriminate F).
  exact (proj1 (answer_fails_without_answer already_stable
                  (state_after ringing_from_A) camera_and_mic
                  (mkIncoming remote_offer "A") _ _ eq_refl eq_refl Hc
                  eq_refl (or_introl eq_refl) (surjective_pairing _))).
Defined.

Lemma answer_to_empty_caller_witness :
  callStatus
    (fst (step granting ClickAnswer (state_after ringing_from_nobody)))
  = Connecting.
Proof.
  exact (proj1 (answer_to_empty_caller_negotiates_nothing granting
                  (state_after ringing_from_nobody) camera_and_mic
                  (mkIncoming remote_offer "") _ _ eq_refl eq_refl eq_refl
                  eq_refl (surjective_pairing _))).
Defined.

(** ** Local candidates *)

(** X6.  A candidate gathered by an open connection is forwarded once,
    as one [ice-candidate] message addressed to the peer identifier of
    the manager whose callbacks the connection carries, provided that
    identifier is a non-empty string; the end-of-gathering event (null
    candidate) and a candidate of a manager without peer identifier (as
    after [close()]) are not forwarded.  The state never changes. *)
Theorem local_candidate_forwarding :
  forall (B : Browser) (s : State) (p : nat) (c : RTCPeerConnection)
         (m : nat) (mgr : PeerConnectionManager),
    pcs s !! p = Some c ->
    pc_isClosed c = false ->
    pc_this c = Some m ->
    managers s !! m = Some mgr ->
    step B (LocalCandidate p None) s = (s, []) /\
    forall x,
      step B (LocalCandidate p (Some x)) s =
      (s, match usable_peer mgr with
          | Some peer =>
              [Console console_log "Sending ICE candidate to peer:";
               Emit (ice_candidate_out x (Some peer))]
          | None => []
          end).
Proof.
  intros B s p c m mgr Hc Hcl Hthis Hm.
  assert (forall cand,
             step B (LocalCandidate p cand) s
             = exec (PeerConnectionManager.onicecandidate m cand) s) as Hfire.
  { intros cand. unfold step, handle, fire, exec.
    erewrite bind_silent; [| reflexivity]. rewrite Hc, Hcl, Hthis.
    reflexivity. }
  assert (PeerConnectionManager.has_remotePeerId m s
          = (Some (match usable_peer mgr with Some _ => true | None => false end), s, [])) as Hhas.
  { unfold PeerConnectionManager.has_remotePeerId, usable_peer.
    erewrite bind_silent;
      [| unfold PeerConnectionManager.field; rewrite Hm; reflexivity].
    destruct (pcm_remotePeerId mgr) as [peer |]; [| reflexivity].
    destruct (truthy peer); reflexivity. }
  split.
  - rewrite Hfire. unfold exec, PeerConnectionManager.onicecandidate.
    rewrite (bind_silent _ _ _ _ _ Hhas). reflexivity.
  - intros x. rewrite Hfire.
    unfold exec, PeerConnectionManager.onicecandidate.
    rewrite (bind_silent _ _ _ _ _ Hhas).
    unfold usable_peer.
    destruct (pcm_remotePeerId mgr) as [peer |] eqn:Hpeer; [| reflexivity].
    destruct (truthy peer); [| reflexivity].
    unfold PeerConnectionManager.field. unfold_M. cbn.
    rewrite Hm, Hpeer. reflexivity.
Qed.

Lemma local_candidate_forwarding_witness :
  step granting (LocalCandidate 0 (Some host_candidate))
    (state_after calling_B)
  = (state_after calling_B,
     [Console console_log "Sending ICE candidate to peer:";
      Emit (ice_candidate_out host_candidate (Some "B"))]).
Proof.
  exact (proj2 (local_candidate_forwarding granting (state_after calling_B)
                  0 _ 0 _ eq_refl eq_refl eq_refl eq_refl) host_candidate).
Defined.

(** ** Closing twice *)

Lemma alter_alter_same {A} (f : A -> A) i (l : list A) :
  (forall x, f (f x) = f x) -> alter f i (alter f i l) = alter f i l.
Proof.
  intros H. rewrite list_alter_alter_eq. apply list_alter_ext; [| reflexivity].
  intros x _. apply H.
Qed.

(** X7.  [close()] is idempotent: on a manager that exists, a second
    [close()] leaves the state of the first, calls no method of any
    connection and only writes the status Idle again. *)
Theorem close_twice :
  forall (this : nat) (s : State) (mgr : PeerConnectionManager),
    managers s !! this = Some mgr ->
    exec (PeerConnectionManager.close this)
      (fst (exec (PeerConnectionManager.close this) s))
    = (fst (exec (PeerConnectionManager.close this) s), [SetCallStatus Idle]).
Proof.
  intros this s mgr Hm. unfold exec at 2 3. rewrite close_eq, Hm.
  cbn [fst]. unfold exec. rewrite close_eq.
  pose proof (managers_closed this mgr s Hm) as Hc.
  destruct (managers (closed this mgr s) !! this) as [mgr' |] eqn:Hm';
    [| discriminate Hc].
  cbn in Hc. injection Hc as Hc. rewrite Hc. f_equal.
  unfold closed at 1. rewrite Hc.
  unfold closed, with_remoteStream, with_callStatus, with_managers. cbn.
  f_equal. apply alter_alter_same. intros x. reflexivity.
Qed.

Lemma close_twice_witness :
  exec (PeerConnectionManager.close 0)
    (fst (exec (PeerConnectionManager.close 0) (state_after connected_to_B)))
  = (fst (exec (PeerConnectionManager.close 0) (state_after connected_to_B)),
     [SetCallStatus Idle]).
Proof.
  exact (close_twice 0 (state_after connected_to_B) _ eq_refl).
Defined.

(** ** Messages that find no connection *)

(** X8.  When [peerManagerRef] designates no connection (no manager yet,
    or a manager whose [pc] is null, as after [close()]), an inbound
    answer and an inbound candidate change nothing: the state is the
    same, no method of any connection is called, the status is not
    written; the answer leaves only its console line. *)
Theorem messages_without_connection_are_dropped :
  forall (B : Browser) (s : State),
    current_connection s = None ->
    (forall a,
        step B (Socket "answer-made" (data_answer a)) s
        = (s, [Console console_log "Answer received from peer."])) /\
    (forall cand,
        step B (Socket "ice-candidate" (data_candidate cand)) s = (s, [])).
Proof.
  intros B s Hcur. unfold current_connection in Hcur. split.
  - intros a. unfold step, handle, socket_receive.
    change (listener "answer-made" socket_on) with (Some on_answer_made).
    unfold on_answer_made, exec. unfold_M. cbn.
    destruct (peerManagerRef s) as [m |]; [| reflexivity].
    rewrite handleAnswer_eq. cbn in Hcur.
    destruct (managers s !! m) as [mgr |]; [| reflexivity].
    cbn in Hcur. rewrite Hcur. reflexivity.
  - intros cand. unfold step, handle, socket_receive.
    change (listener "ice-candidate" socket_on) with (Some on_ice_candidate).
    unfold on_ice_candidate, exec. unfold_M. cbn.
    destruct (peerManagerRef s) as [m |]; [| reflexivity].
    destruct cand as [x |]; [| reflexivity].
    rewrite handleIceCandidate_eq. cbn in Hcur.
    destruct (managers s !! m) as [mgr |]; [| reflexivity].
    cbn in Hcur. rewrite Hcur. reflexivity.
Qed.

Lemma messages_without_connection_witness :
  step granting (Socket "answer-made" (data_answer remote_answer))
    (state_after transport_fails)
  = (state_after transport_fails,
     [Console console_log "Answer received from peer."]).
Proof.
  exact (proj1 (messages_without_connection_are_dropped granting
                  (state_after transport_fails) eq_refl) remote_answer).
Defined.

(** ** Reports of the transport that are not acted on *)

Lemma ice_report_eq B s p c m mgr st :
  pcs s !! p = Some c ->
  pc_isClosed c = false ->
  pc_this c = Some m ->
  managers s !! m = Some mgr ->
  pcm_pc mgr = Some p ->
  pc_iceConnectionState c <> st ->
  st = ice_new \/ st = ice_checking \/ st = ice_completed \/
  st = ice_connected ->
  step B (IceConnectionState p st) s
  = (let s1 := with_pcs (alter (pc_with_iceConnectionState st) p (pcs s)) s in
     if ice_eqb st ice_connected then with_callStatus Connected s1 else s1,
     Console console_log "ICE connection state:" ::
     if ice_eqb st ice_connected then [SetCallStatus Connected] else []).
Proof.
  intros Hc Hcl Hthis Hm Hp Hne Hst.
  assert (ice_eqb (pc_iceConnectionState c) st = false) as Hne'.
  { destruct (ice_eqb _ st) eqn:E; [| reflexivity].
    apply ice_eqb_eq in E. contradiction. }
  unfold step, handle, ice_state_changes, fire, pc_update.
  unfold mbind at 1. unfold M_bind, bind, get, exec.
  rewrite Hc, Hcl, Hne'.
  assert (ice_eqb st ice_closed = false) as Hnc
    by (destruct Hst as [-> | [-> | [-> | ->]]]; reflexivity).
  rewrite Hnc. cbn [orb].
  unfold_M. cbn [pcs with_pcs]. rewrite list_lookup_alter_eq, Hc.
  cbn [fmap option_fmap option_map pc_isClosed pc_this
         pc_with_iceConnectionState].
  rewrite Hcl, Hthis.
  unfold PeerConnectionManager.oniceconnectionstatechange,
    PeerConnectionManager.the_pc, PeerConnectionManager.field, pc_get.
  unfold_M. cbn [managers with_pcs]. rewrite Hm. cbn. rewrite Hp. cbn.
  rewrite Hm. cbn. rewrite Hp. cbn.
  rewrite list_lookup_alter_eq, Hc. cbn.
  destruct Hst as [-> | [-> | [-> | ->]]]; reflexivity.
Qed.

(** X9.  A report of the ICE connection state by the open current
    connection of a manager, other than [failed], [disconnected] and
    [closed]: the connection's state is updated and the report logged;
    [connected] writes the status Connected, once; [new], [checking]
    and [completed] leave the status alone.  Nothing is closed and
    nothing is sent. *)
Theorem transport_progress :
  forall (B : Browser) (s : State) (p : nat) (c : RTCPeerConnection)
         (m : nat) (mgr : PeerConnectionManager)
         (st : RTCIceConnectionState),
    pcs s !! p = Some c ->
    pc_isClosed c = false ->
    pc_this c = Some m ->
    managers s !! m = Some mgr ->
    pcm_pc mgr = Some p ->
    pc_iceConnectionState c <> st ->
    (st = ice_connected ->
     step B (IceConnectionState p st) s
     = (with_callStatus Connected
          (with_pcs (alter (pc_with_iceConnectionState st) p (pcs s)) s),
        [Console console_log "ICE connection state:";
         SetCallStatus Connected])) /\
    (st = ice_new \/ st = ice_checking \/ st = ice_completed ->
     step B (IceConnectionState p st) s
     = (with_pcs (alter (pc_with_iceConnectionState st) p (pcs s)) s,
        [Console console_log "ICE connection state:"])).
Proof.
  intros B s p c m mgr st Hc Hcl Hthis Hm Hp Hne. split; intros Hst.
  - rewrite (ice_report_eq B s p c m mgr st Hc Hcl Hthis Hm Hp Hne)
      by auto.
    subst st. reflexivity.
  - rewrite (ice_report_eq B s p c m mgr st Hc Hcl Hthis Hm Hp Hne)
      by tauto.
    destruct Hst as [-> | [-> | ->]]; reflexivity.
Qed.

Lemma transport_progress_witness :
  step granting (IceConnectionState 0 ice_completed)
    (state_after connected_to_B)
  = (with_pcs (alter (pc_with_iceConnectionState ice_completed) 0
                 (pcs (state_after connected_to_B)))
       (state_after connected_to_B),
     [Console console_log "ICE connection state:"]).
Proof.
  assert (ice_connected <> ice_completed) as Hne by discriminate.
  exact (proj2 (transport_progress granting
                  (state_after connected_to_B) 0 _ 0 _ ice_completed
                  eq_refl eq_refl eq_refl eq_refl eq_refl Hne)
           (or_intror (or_intror eq_refl))).
Defined.

(** ** Whom the end of a call is announced to *)

Lemma emitted_end_notice s :
  emitted (end_notice s) =
  match or_else (targetId s) (callerId <$> incomingCallData s) with
  | Some peerId => if truthy peerId then [call_end peerId] else []
  | None => []
  end.
Proof.
  unfold end_notice. destruct (or_else _ _) as [peer |]; [| reflexivity].
  destruct (truthy peer); reflexivity.
Qed.

Lemma emitted_close_part (o : option nat) :
  emitted match o with
          | Some p => [Pc p Close; SetCallStatus Idle]
          | None => [SetCallStatus Idle]
          end = [].
Proof. destruct o; reflexivity. Qed.

Lemma step_ClickEnd B s :
  wf s -> end_disabled s = false ->
  exists s0 t0,
    step B ClickEnd s = (ended s0, t0 ++ end_notice s ++ [SetCallStatus CallEnded])
    /\ emitted t0 = [] /\ localStream s0 = localStream s
    /\ currentId s0 = currentId s /\ length (pcs s0) = length (pcs s)
    /\ length (managers s0) = length (managers s).
Proof.
  intros [Href _] Hen. unfold step, handle.
  unfold mbind at 1. unfold M_bind, bind, get, exec. rewrite Hen.
  rewrite endCall_eq.
  destruct (peerManagerRef s) as [m |] eqn:Hm.
  - specialize (Href m eq_refl).
    destruct (managers s !! m) as [mgr |] eqn:Hmgr.
    2:{ apply lookup_ge_None in Hmgr. lia. }
    eexists _, _. split; [reflexivity |].
    split; [apply emitted_close_part |].
    unfold closed. destruct (pcm_pc mgr); cbn; rewrite ?length_alter;
      repeat split; reflexivity.
  - exists s, []. repeat split; reflexivity.
Qed.

(** X10.  When the end button is enabled (in a well-formed state), the
    end intent announces the end with at most one [call-end] message,
    addressed from what the page holds, not from the manager: to the
    typed target if it is not empty, otherwise to the sender of the
    pending offer if there is one with a non-empty identifier, otherwise
    to nobody.  It clears the target, the pending offer and the remote
    stream, and keeps the local stream and the page's own identifier;
    no connection or manager is created or removed. *)
Theorem end_announcement :
  forall (B : Browser) (s s' : State) (t : list Effect),
    wf s ->
    end_disabled s = false ->
    step B ClickEnd s = (s', t) ->
    (targetId s <> "" -> emitted t = [call_end (targetId s)]) /\
    (forall data,
        targetId s = "" -> incomingCallData s = Some data ->
        callerId data <> "" -> emitted t = [call_end (callerId data)]) /\
    (targetId s = "" -> incomingCallData s = None -> emitted t = []) /\
    targetId s' = "" /\ incomingCallData s' = None /\ remoteStream s' = None /\
    localStream s' = localStream s /\ currentId s' = currentId s /\
    length (pcs s') = length (pcs s) /\
    length (managers s') = length (managers s).
Proof.
  intros B s s' t Hwf Hen E.
  destruct (step_ClickEnd B s Hwf Hen)
    as (s0 & t0 & E0 & Ht0 & Hl & Hc & Hp & Hm).
  rewrite E0 in E. injection E as <- <-.
  rewrite !emitted_app, Ht0, emitted_end_notice. cbn [app emitted].
  rewrite app_nil_r. unfold or_else.
  refine (conj _ (conj _ (conj _ _))).
  - intros Ht. rewrite (truthy_nonempty _ Ht). rewrite (truthy_nonempty _ Ht).
    reflexivity.
  - intros data Ht Hd Hcaller. rewrite Ht, Hd. cbn.
    rewrite (truthy_nonempty _ Hcaller). reflexivity.
  - intros Ht Hd. rewrite Ht, Hd. reflexivity.
  - unfold ended. cbn. repeat split; assumption.
Qed.

Lemma end_announcement_witness :
  emitted (snd (step granting ClickEnd (state_after connected_to_B)))
  = [call_end "B"].
Proof.
  assert (targetId (state_after connected_to_B) <> "") as Ht
    by (intros F; discriminate F).
  exact (proj1 (end_announcement granting (state_after connected_to_B) _ _
                  (wf_state_after connected_to_B) eq_refl
                  (surjective_pairing _)) Ht).
Defined.

(** ** Ringing and rejecting *)

(** X11.  An offer followed by Reject leaves the state the page had
    before, except that the status is Idle and no offer is pending,
    whatever the status was before (a call that was connected stays
    open, with status Idle); nothing is sent to the caller and the
    browser is not called.  On an idle page without pending offer the
    two turns are a round trip. *)
Theorem ring_and_reject :
  forall (B B' : Browser) (s : State) (o : RTCSessionDescriptionInit)
         (c : string),
    fst (run (ringing o c B B') s) = rejected s /\
    status_writes (snd (run (ringing o c B B') s)) = [IncomingCall; Idle] /\
    Forall (fun e => match e with
                     | SetCallStatus _ | Console _ _ => True
                     | _ => False
                     end) (snd (run (ringing o c B B') s)) /\
    (callStatus s = Idle -> incomingCallData s = None ->
     fst (run (ringing o c B B') s) = s).
Proof.
  intros B B' s o c.
  assert (run (ringing o c B B') s
          = (rejected s,
             [Console console_log "Incoming call offer from:";
              SetCallStatus IncomingCall; SetCallStatus Idle])) as E.
  { unfold ringing, run, step, handle, socket_receive.
    change (listener "call-made" socket_on) with (Some on_call_made).
    unfold on_call_made, rejectCall, exec. unfold_M. cbn.
    unfold dialog_shown. cbn. reflexivity. }
  rewrite E. cbn [fst snd].
  refine (conj eq_refl (conj eq_refl (conj _ _))).
  - repeat constructor.
  - intros Hs Hd. destruct s. cbn in *. subst. reflexivity.
Qed.

Lemma ring_and_reject_witness :
  fst (run (ringing remote_offer "A" granting granting) initial) = initial.
Proof.
  exact (proj2 (proj2 (proj2 (ring_and_reject granting granting initial
                                remote_offer "A"))) eq_refl eq_refl).
Defined.

(** ** Which turn sends what *)

Ltac sends_leaves :=
  try (apply addTracks_only);
  unfold sends_only; intros; simplify_eq; try discriminate;
  first [exact I | reflexivity].

Lemma socket_receive_only Φ B name data :
  only Φ (on_me B data) -> only Φ (on_call_made B data) ->
  (name = "answer-made" -> only Φ (on_answer_made B data)) ->
  (name = "ice-candidate" -> only Φ (on_ice_candidate B data)) ->
  only Φ (socket_receive B name data).
Proof.
  intros H1 H2 H3 H4. unfold socket_receive.
  destruct (listener name socket_on) as [h |] eqn:E; [| apply only_ret].
  unfold socket_on in E. cbn [listener] in E.
  destruct (String.eqb "me" name); [injection E as <-; exact H1 |].
  destruct (String.eqb "call-made" name); [injection E as <-; exact H2 |].
  destruct (String.eqb "answer-made" name) eqn:E3.
  { injection E as <-. apply H3. apply String.eqb_eq in E3. congruence. }
  destruct (String.eqb "ice-candidate" name) eqn:E4; [| discriminate E].
  injection E as <-. apply H4. apply String.eqb_eq in E4. congruence.
Qed.

Lemma handle_sends_only B e : only (sends_only e) (handle B e).
Proof.
  destruct e as [v | | | | | name data | p st0 | p cand | p st]; simpl.
  - apply only_modify.
  - unfold_handlers. only_walk. all: sends_leaves.
  - unfold_handlers. only_walk. all: sends_leaves.
  - unfold_handlers. only_walk. all: sends_leaves.
  - unfold_handlers. only_walk. all: sends_leaves.
  - apply socket_receive_only; intros; unfold_handlers; only_walk;
      sends_leaves.
  - apply fire_only. intros this. unfold_handlers. only_walk.
    all: sends_leaves.
  - apply fire_only. intros this. unfold_handlers. only_walk.
    all: sends_leaves.
  - unfold ice_state_changes, pc_update. only_walk.
    all: try (apply fire_only; intros this; unfold_handlers; only_walk).
    all: try (unfold_handlers; only_walk).
    all: sends_leaves.
Qed.

Lemma In_emitted msg t : In msg (emitted t) -> In (Emit msg) t.
Proof.
  induction t as [| e t IH]; [intros [] |].
  destruct e; cbn; intros H; try (right; apply IH; exact H).
  destruct H as [-> | H]; [left; reflexivity | right; apply IH; exact H].
Qed.

(** X12.  Every message a turn sends has the kind of the event that the
    turn handles: [call-user] only on the Call click, [answer-call] only
    on the Answer click, [call-end] only on the End click, and
    [ice-candidate] only for a candidate the local transport has just
    gathered, which is the candidate sent.  In particular no inbound
    message, no report of the transport, no Reject and no typing ever
    sends anything. *)
Theorem every_message_has_its_turn :
  forall (B : Browser) (e : Event) (s : State) (msg : OutMsg),
    In msg (emitted (snd (step B e s))) -> sends e msg.
Proof.
  intros B e s msg Hin. apply In_emitted in Hin.
  apply (step_In (sends_only e) B e s _ (handle_sends_only B e)) in Hin.
  apply Hin. reflexivity.
Qed.

Lemma every_message_has_its_turn_witness :
  sends ClickCall (call_user (Some local_offer) (Some "B")).
Proof.
  apply (every_message_has_its_turn granting ClickCall (state_after typed_B)).
  left. reflexivity.
Defined.

(** ** Which turn calls the browser *)

Ltac calls_leaves :=
  try (apply addTracks_only);
  intros; cbn;
  first [ exact I | reflexivity | left; reflexivity | right; reflexivity
        | right; eexists _, _; reflexivity | discriminate ].

Lemma only_and {A} (Φ Ψ : Effect -> Prop) (m : M A) :
  only Φ m -> only Ψ m -> only (fun e => Φ e /\ Ψ e) m.
Proof.
  intros H1 H2 s. specialize (H1 s). specialize (H2 s).
  rewrite Forall_forall in *. intros x Hx. split; auto.
Qed.

Lemma only_impl {A} (Φ Ψ : Effect -> Prop) (m : M A) :
  (forall e, Φ e -> Ψ e) -> only Φ m -> only Ψ m.
Proof. intros H H1 s. eapply Forall_impl; [apply H1 | exact H]. Qed.

Lemma calls_from_parts e eff :
  calls_but_close e eff /\ no_close eff -> calls e eff.
Proof.
  intros [H1 H2]. destruct eff as [| | p c | |]; try exact H1.
  destruct c; try exact H1. exfalso. exact (H2 p eq_refl).
Qed.

Lemma startCall_calls B : only (calls_but_close ClickCall) (startCall B).
Proof. unfold_handlers. only_walk. all: calls_leaves. Qed.

Lemma answerCall_calls B : only (calls_but_close ClickAnswer) (answerCall B).
Proof. unfold_handlers. only_walk. all: calls_leaves. Qed.

Lemma handle_calls B e : only (calls e) (handle B e).
Proof.
  destruct e as [v | | | | | name data | p st0 | p cand | p st]; simpl.
  - apply only_modify.
  - apply only_bind; [apply only_get |]. intros s0.
    destruct (call_disabled s0); [apply only_ret |].
    apply (only_impl _ _ _ (calls_from_parts ClickCall)).
    apply only_and; [apply startCall_calls | apply startCall_no_close].
  - apply only_bind; [apply only_get |]. intros s0.
    destruct (dialog_shown s0); [| apply only_ret].
    apply (only_impl _ _ _ (calls_from_parts ClickAnswer)).
    apply only_and; [apply answerCall_calls | apply answerCall_no_close].
  - unfold_handlers. only_walk. all: calls_leaves.
  - unfold_handlers. only_walk. all: calls_leaves.
  - apply socket_receive_only; intros; subst; unfold_handlers; only_walk;
      calls_leaves.
  - apply fire_only. intros this. unfold_handlers. only_walk.
    all: calls_leaves.
  - apply fire_only. intros this. unfold_handlers. only_walk.
    all: calls_leaves.
  - unfold ice_state_changes, pc_update. only_walk.
    all: try (apply fire_only; intros this; unfold_handlers; only_walk).
    all: try (unfold_handlers; only_walk).
    all: calls_leaves.
Qed.

(** X13.  Every call a turn makes on the browser belongs to the event
    the turn handles: [getUserMedia], [new RTCPeerConnection],
    [addTrack] and [setLocalDescription] only on the Call and Answer
    clicks; [createOffer] only on Call; [createAnswer] only on Answer;
    [setRemoteDescription] only on Answer or for the answer an
    [answer-made] message carries; [addIceCandidate] only for the
    candidate an [ice-candidate] message carries; [close] only on the
    End click or on a report of the transport. *)
Theorem every_browser_call_has_its_turn :
  forall (B : Browser) (e : Event) (s : State) (eff : Effect),
    In eff (snd (step B e s)) -> calls e eff.
Proof.
  intros B e s eff Hin.
  exact (step_In (calls e) B e s eff (handle_calls B e) Hin).
Qed.

Lemma every_browser_call_has_its_turn_witness :
  calls (Socket "answer-made" (data_answer remote_answer))
    (Pc 0 (SetRemoteDescription remote_answer)).
Proof.
  apply (every_browser_call_has_its_turn granting _ (state_after calling_B)).
  right. left. reflexivity.
Defined.

(** ** Rules for relations between the state before and after *)

Section Along.
Context (R : State -> State -> Prop) `{!PreOrder R}.

Lemma along_ret {A} (a : A) : along R (mret a).
Proof. intros s. reflexivity. Qed.

Lemma along_throw {A} : along R (@throw A).
Proof. intros s. reflexivity. Qed.

Lemma along_get : along R get.
Proof. intros s. reflexivity. Qed.

Lemma along_tell e : along R (tell e).
Proof. intros s. reflexivity. Qed.

Lemma along_modify f : (forall s, R s (f s)) -> along R (modify f).
Proof. intros H s. apply H. Qed.

Lemma along_bind_at {A B} (m : M A) (k : A -> M B) s :
  R s (snd (fst (m s))) -> (forall a, along R (k a)) ->
  R s (snd (fst ((m ≫= k) s))).
Proof.
  intros Hm Hk. unfold mbind, M_bind, bind.
  destruct (m s) as [[[a |] s1] t1]; simpl in *; [| exact Hm].
  specialize (Hk a s1). destruct (k a s1) as [[r s2] t2]; simpl in *.
  etransitivity; eassumption.
Qed.

Lemma along_bind {A B} (m : M A) (k : A -> M B) :
  along R m -> (forall a, along R (k a)) -> along R (m ≫= k).
Proof. intros Hm Hk s. apply along_bind_at; auto. Qed.

(** After [get] the value read is the state the rest starts in. *)
Lemma along_get_bind {B} (k : State -> M B) :
  (forall s, R s (snd (fst (k s s)))) -> along R (get ≫= k).
Proof.
  intros H s. unfold mbind, M_bind, bind, get. specialize (H s).
  destruct (k s s) as [[r s2] t2]. exact H.
Qed.

Lemma along_try {A} (body handler : M A) :
  along R body -> along R handler -> along R (try_catch body handler).
Proof.
  intros Hb Hh s. specialize (Hb s). unfold try_catch.
  destruct (body s) as [[[a |] s1] t1]; simpl in *; [exact Hb |].
  specialize (Hh s1). destruct (handler s1) as [[r s2] t2]; simpl in *.
  etransitivity; eassumption.
Qed.

Lemma along_field {A} this (f : PeerConnectionManager -> A) :
  along R (PeerConnectionManager.field this f).
Proof.
  intros s. unfold PeerConnectionManager.field.
  destruct (managers s !! this); reflexivity.
Qed.

Lemma along_pc_get {A} p (f : RTCPeerConnection -> A) : along R (pc_get p f).
Proof. intros s. unfold pc_get. destruct (pcs s !! p); reflexivity. Qed.

Lemma along_getUserMedia B : along R (mediaDevices_getUserMedia B).
Proof. intros s. reflexivity. Qed.

Lemma along_setCallStatus c :
  (forall s, R s (with_callStatus c s)) -> along R (setCallStatus c).
Proof. intros H s. apply H. Qed.

(** A method of a connection changes it only when it is open. *)
Lemma along_pc_method {A} p call (r : option A) f :
  (forall s, pc_open p s = true -> R s (with_pcs (alter f p (pcs s)) s)) ->
  along R (pc_method p call r f).
Proof.
  intros H s. unfold pc_method.
  destruct r; [| reflexivity].
  destruct (pc_open p s) eqn:E; [apply H, E | reflexivity].
Qed.

Lemma along_pc_close p :
  (forall s, R s (with_pcs (alter pc_with_closed p (pcs s)) s)) ->
  along R (pc_close p).
Proof. intros H s. apply H. Qed.

Lemma along_pc_new :
  (forall s, R s (with_pcs (pcs s ++ [fresh_pc]) s)) -> along R pc_new.
Proof. intros H s. apply H. Qed.

Lemma along_new stream :
  (forall s, R s (with_managers
                    (managers s ++ [mkManager stream None false None]) s)) ->
  along R (PeerConnectionManager.new stream).
Proof. intros H s. apply H. Qed.

Lemma along_fire p (handler : nat -> M unit) :
  (forall this, along R (handler this)) -> along R (fire p handler).
Proof.
  intros H. unfold fire. apply along_bind; [apply along_get |]. intros s0.
  destruct (pcs s0 !! p) as [c |]; [| apply along_ret].
  destruct (pc_isClosed c); [apply along_ret |].
  destruct (pc_this c); [apply H | apply along_ret].
Qed.

Lemma along_socket_receive B name data :
  (name = "me" -> along R (on_me B data)) ->
  (name = "call-made" -> along R (on_call_made B data)) ->
  (name = "answer-made" -> along R (on_answer_made B data)) ->
  (name = "ice-candidate" -> along R (on_ice_candidate B data)) ->
  along R (socket_receive B name data).
Proof.
  intros H1 H2 H3 H4. unfold socket_receive.
  destruct (listener name socket_on) as [h |] eqn:E; [| apply along_ret].
  unfold socket_on in E. cbn [listener] in E.
  destruct (String.eqb_spec "me" name) as [<- | _];
    [injection E as <-; auto |].
  destruct (String.eqb_spec "call-made" name) as [<- | _];
    [injection E as <-; auto |].
  destruct (String.eqb_spec "answer-made" name) as [<- | _];
    [injection E as <-; auto |].
  destruct (String.eqb_spec "ice-candidate" name) as [<- | _];
    [injection E as <-; auto | discriminate E].
Qed.

Lemma along_step B e s : along R (handle B e) -> R s (fst (step B e s)).
Proof.
  intros H. specialize (H s). unfold step, exec.
  destruct (handle B e s) as [[r s'] t]. exact H.
Qed.

Lemma along_run turns :
  (forall B e s, R s (fst (step B e s))) ->
  forall s, R s (fst (run turns s)).
Proof.
  intros H. induction turns as [| [B e] rest IH]; intros s; cbn.
  - reflexivity.
  - specialize (H B e s). destruct (step B e s) as [s1 t1].
    specialize (IH s1). destruct (run rest s1) as [s2 t2]. cbn in *.
    etransitivity; eassumption.
Qed.
End Along.

Ltac along_leaf :=
  match goal with
  | |- along ?R (mret _) => apply (along_ret R)
  | |- along ?R (@throw _) => apply (along_throw R)
  | |- along ?R get => apply (along_get R)
  | |- along ?R (tell _) => apply (along_tell R)
  | |- along ?R (PeerConnectionManager.field _ _) => apply (along_field R)
  | |- along ?R (pc_get _ _) => apply (along_pc_get R)
  | |- along ?R (mediaDevices_getUserMedia _) =>
      apply (along_getUserMedia R)
  | |- along ?R (modify _) => apply (along_modify R)
  | |- along ?R (setCallStatus _) => apply (along_setCallStatus R)
  | |- along ?R (pc_method _ _ _ _) => apply (along_pc_method R)
  | |- along ?R (pc_close _) => apply (along_pc_close R)
  | |- along ?R pc_new => apply (along_pc_new R)
  | |- along ?R (PeerConnectionManager.new _) => apply (along_new R)
  end.

Ltac along_walk :=
  repeat
    match goal with
    | |- along ?R (mbind _ _) => apply (along_bind R); [| intros ?]
    | |- along ?R (try_catch _ _) => apply (along_try R)
    | |- along _ (match ?x with _ => _ end) => destruct x
    | |- along _ (if ?b then _ else _) => destruct b
    | |- along _ _ => along_leaf
    end.

Lemma along_addTracks R `{!PreOrder R} this tracks :
  (forall p t s, pc_open p s = true ->
                 R s (with_pcs (alter (pc_with_sender t) p (pcs s)) s)) ->
  along R (PeerConnectionManager.addTracks this tracks).
Proof.
  intros H. induction tracks as [| t rest IH]; simpl.
  - apply (along_ret R).
  - unfold pc_addTrack. along_walk.
    + intros s. apply H.
    + exact IH.
Qed.

#[global] Instance keeps_preorder {A} (f : State -> A) : PreOrder (keeps f).
Proof.
  split; [intros s; reflexivity |].
  intros s1 s2 s3 H1 H2. unfold keeps in *. congruence.
Qed.

(** The handler of an event, cut into its primitive steps; what is left
    are the steps that change the state. *)
Ltac along_handler :=
  match goal with
  | |- along ?R (socket_receive _ _ _) =>
      apply (along_socket_receive R); intros ?
  | |- along ?R (fire _ _) => apply (along_fire R); intros ?
  | |- along ?R (PeerConnectionManager.addTracks _ _) =>
      apply (along_addTracks R)
  | |- _ => idtac
  end.

Ltac along_handle :=
  cbn [handle]; unfold ice_state_changes;
  along_handler; unfold_handlers; along_walk;
  along_handler; unfold_handlers; along_walk;
  along_handler; unfold_handlers; along_walk.

Ltac keeps_leaves :=
  intros; unfold keeps, sizes; cbn; rewrite ?length_alter; reflexivity.

(** ** What a turn may change *)

Lemma frame_currentId B e :
  (exists data, e = Socket "me" data) \/
  along (keeps currentId) (handle B e).
Proof.
  destruct e as [v | | | | | name data | p st0 | p cand | p st].
  6:{ destruct (String.eqb_spec "me" name) as [<- | Hn];
        [left; eexists; reflexivity |].
      right; cbn [handle]; apply (along_socket_receive _); intros ?;
        try congruence; unfold_handlers; along_walk; keeps_leaves. }
  all: right; along_handle; keeps_leaves.
Qed.

Lemma frame_targetId B e :
  ((exists v, e = TypeTargetId v) \/ e = ClickEnd) \/
  along (keeps targetId) (handle B e).
Proof.
  destruct e as [v | | | | | name data | p st0 | p cand | p st].
  1: left; left; eexists; reflexivity.
  4: left; right; reflexivity.
  all: right; along_handle; keeps_leaves.
Qed.

Lemma frame_localStream B e :
  (e = ClickCall \/ e = ClickAnswer) \/
  along (keeps localStream) (handle B e).
Proof.
  destruct e as [v | | | | | name data | p st0 | p cand | p st].
  2: left; left; reflexivity.
  2: left; right; reflexivity.
  all: right; along_handle; keeps_leaves.
Qed.

Lemma frame_remoteStream B e :
  ((exists p stream0, e = RemoteTrack p stream0) \/ e = ClickEnd \/
   exists p st, e = IceConnectionState p st) \/
  along (keeps remoteStream) (handle B e).
Proof.
  destruct e as [v | | | | | name data | p st0 | p cand | p st].
  5: left; right; left; reflexivity.
  6: left; left; eexists _, _; reflexivity.
  7: left; right; right; eexists _, _; reflexivity.
  all: right; along_handle; keeps_leaves.
Qed.

Lemma frame_incomingCallData B e :
  ((exists data, e = Socket "call-made" data) \/
   e = ClickAnswer \/ e = ClickReject \/ e = ClickEnd) \/
  along (keeps incomingCallData) (handle B e).
Proof.
  destruct e as [v | | | | | name data | p st0 | p cand | p st].
  3: left; right; left; reflexivity.
  3: left; right; right; left; reflexivity.
  3: left; right; right; right; reflexivity.
  3:{ destruct (String.eqb_spec "call-made" name) as [<- | Hn];
        [left; left; eexists; reflexivity |].
      right; cbn [handle]; apply (along_socket_receive _); intros ?;
        try congruence; unfold_handlers; along_walk; keeps_leaves. }
  all: right; along_handle; keeps_leaves.
Qed.

Lemma frame_peerManagerRef B e :
  (e = ClickCall \/ e = ClickAnswer \/ e = ClickEnd) \/
  along (keeps peerManagerRef) (handle B e).
Proof.
  destruct e as [v | | | | | name data | p st0 | p cand | p st].
  2: left; left; reflexivity.
  2: left; right; left; reflexivity.
  3: left; right; right; reflexivity.
  all: right; along_handle; keeps_leaves.
Qed.

Lemma frame_sizes B e :
  (e = ClickCall \/ e = ClickAnswer) \/ along (keeps sizes) (handle B e).
Proof.
  destruct e as [v | | | | | name data | p st0 | p cand | p st].
  2: left; left; reflexivity.
  2: left; right; reflexivity.
  all: right; along_handle; keeps_leaves.
Qed.

Lemma frame_step {A} (f : State -> A) (P : Prop) B e s :
  P \/ along (keeps f) (handle B e) ->
  f (fst (step B e s)) <> f s -> P.
Proof.
  intros [H | H] Hne; [exact H |]. exfalso. apply Hne.
  exact (along_step (keeps f) B e s H).
Qed.

(** X14.  What a turn may change, field by field: the page's own
    identifier only on a [me] message; the target only by typing and by
    End; the local stream only on Call and Answer; the remote stream
    only on a track of the transport, on End and on a report of the
    transport; the pending offer only on a [call-made] message, Answer,
    Reject and End; [peerManagerRef] only on Call, Answer and End (a
    transport failure closes the manager but leaves it in the ref).
    For the two messages the statement is about the event name only,
    whatever the payload. *)
Theorem what_a_turn_may_change :
  forall (B : Browser) (e : Event) (s : State),
    (currentId (fst (step B e s)) <> currentId s ->
     exists data, e = Socket "me" data) /\
    (targetId (fst (step B e s)) <> targetId s ->
     (exists v, e = TypeTargetId v) \/ e = ClickEnd) /\
    (localStream (fst (step B e s)) <> localStream s ->
     e = ClickCall \/ e = ClickAnswer) /\
    (remoteStream (fst (step B e s)) <> remoteStream s ->
     (exists p stream0, e = RemoteTrack p stream0) \/ e = ClickEnd \/
     exists p st, e = IceConnectionState p st) /\
    (incomingCallData (fst (step B e s)) <> incomingCallData s ->
     (exists data, e = Socket "call-made" data) \/
     e = ClickAnswer \/ e = ClickReject \/ e = ClickEnd) /\
    (peerManagerRef (fst (step B e s)) <> peerManagerRef s ->
     e = ClickCall \/ e = ClickAnswer \/ e = ClickEnd).
Proof.
  intros B e s. repeat split.
  - apply frame_step, frame_currentId.
  - apply frame_step, frame_targetId.
  - apply frame_step, frame_localStream.
  - apply frame_step, frame_remoteStream.
  - apply frame_step, frame_incomingCallData.
  - apply frame_step, frame_peerManagerRef.
Qed.

Lemma what_a_turn_may_change_witness :
  exists data, Socket "me" (data_id "abc") = Socket "me" data.
Proof.
  apply (proj1 (what_a_turn_may_change granting (Socket "me" (data_id "abc"))
                  initial)).
  cbn. discriminate.
Defined.

(** ** The heaps only grow *)

#[global] Instance grows_preorder : PreOrder grows.
Proof.
  split.
  - intros s. repeat split.
    + intros p c Hc. exists c. split; [exact Hc |].
      intros Hcl. repeat split; auto.
    + intros m mgr Hm. exists mgr. split; [exact Hm | reflexivity].
    + auto.
  - intros s1 s2 s3 (P1 & M1 & L1) (P2 & M2 & L2). repeat split.
    + intros p c Hc. destruct (P1 p c Hc) as (c' & Hc' & F1).
      destruct (P2 p c' Hc') as (c'' & Hc'' & F2).
      exists c''. split; [exact Hc'' |]. intros Hcl.
      destruct (F1 Hcl) as (A1 & A2 & A3 & A4 & A5).
      destruct (F2 A1) as (B1 & B2 & B3 & B4 & B5).
      repeat split; congruence.
    + intros m mgr Hm. destruct (M1 m mgr Hm) as (mgr' & Hm' & E1).
      destruct (M2 m mgr' Hm') as (mgr'' & Hm'' & E2).
      exists mgr''. split; [exact Hm'' | congruence].
    + auto.
Qed.

Lemma grows_same s s' :
  pcs s' = pcs s -> managers s' = managers s ->
  localStream s' = localStream s -> grows s s'.
Proof.
  intros Hp Hm Hl. unfold grows. rewrite Hp, Hm, Hl.
  exact (reflexivity (R := grows) s).
Qed.

Lemma grows_alter_pc f p s :
  (forall c, pcs s !! p = Some c -> pc_isClosed c = true -> frozen c (f c)) ->
  grows s (with_pcs (alter f p (pcs s)) s).
Proof.
  intros H. repeat split; cbn.
  - intros q c Hc. destruct (decide (p = q)) as [-> | Hne].
    + exists (f c). rewrite list_lookup_alter_eq, Hc. split; [reflexivity |].
      apply H, Hc.
    + exists c. rewrite list_lookup_alter_ne by exact Hne.
      split; [exact Hc |]. intros Hcl. repeat split; auto.
  - intros m mgr Hm. exists mgr. split; [exact Hm | reflexivity].
  - auto.
Qed.

Lemma grows_alter_pc_open f p s :
  pc_open p s = true -> grows s (with_pcs (alter f p (pcs s)) s).
Proof.
  intros Ho. apply grows_alter_pc. intros c Hc Hcl.
  unfold pc_open in Ho. rewrite Hc, Hcl in Ho. discriminate Ho.
Qed.

Lemma grows_alter_manager f this s :
  (forall m, pcm_localStream (f m) = pcm_localStream m) ->
  grows s (with_managers (alter f this (managers s)) s).
Proof.
  intros H. repeat split; cbn.
  - intros p c Hc. exists c. split; [exact Hc |].
    intros Hcl. repeat split; auto.
  - intros m mgr Hm. destruct (decide (this = m)) as [-> | Hne].
    + exists (f mgr). rewrite list_lookup_alter_eq, Hm. split; [reflexivity |].
      apply H.
    + exists mgr. rewrite list_lookup_alter_ne by exact Hne.
      split; [exact Hm | reflexivity].
  - auto.
Qed.

Lemma grows_pc_new c0 s : grows s (with_pcs (pcs s ++ [c0]) s).
Proof.
  repeat split; cbn.
  - intros p c Hc. exists c. split; [apply lookup_app_l_Some, Hc |].
    intros Hcl. repeat split; auto.
  - intros m mgr Hm. exists mgr. split; [exact Hm | reflexivity].
  - auto.
Qed.

Lemma grows_new m0 s : grows s (with_managers (managers s ++ [m0]) s).
Proof.
  repeat split; cbn.
  - intros p c Hc. exists c. split; [exact Hc |].
    intros Hcl. repeat split; auto.
  - intros m mgr Hm. exists mgr.
    split; [apply lookup_app_l_Some, Hm | reflexivity].
  - auto.
Qed.

Lemma grows_first_stream stream s :
  localStream s = None -> grows s (with_localStream (Some stream) s).
Proof.
  intros H. repeat split; cbn.
  - intros p c Hc. exists c. split; [exact Hc |].
    intros Hcl. repeat split; auto.
  - intros m mgr Hm. exists mgr. split; [exact Hm | reflexivity].
  - intros st Hst. congruence.
Qed.

Ltac frozen_leaf :=
  let c := fresh "c" in
  let H := fresh "H" in
  intros c _ H; repeat split; cbn; first [exact H | reflexivity].

Ltac grows_leaves :=
  intros;
  first
    [ apply grows_same; reflexivity
    | apply grows_alter_pc_open; assumption
    | apply grows_alter_pc; frozen_leaf
    | apply grows_alter_manager; reflexivity
    | apply grows_pc_new
    | apply grows_new ].

Lemma grows_localStream_or_getMedia B s :
  grows s (snd (fst (localStream_or_getMedia B s s))).
Proof.
  unfold localStream_or_getMedia.
  destruct (localStream s) as [stream |] eqn:E; [reflexivity |].
  unfold getMedia, mediaDevices_getUserMedia. unfold_M.
  destruct (getUserMedia B) as [stream |]; cbn.
  - apply grows_first_stream, E.
  - apply grows_same; reflexivity.
Qed.

Lemma new_call_grows stream b r (k : nat -> M unit) :
  (forall manager, along grows (k manager)) ->
  along grows
    (manager ← PeerConnectionManager.new stream;
     modify (with_peerManagerRef (Some manager));;
     PeerConnectionManager.initPeerConnection manager b r;;
     k manager).
Proof.
  intros Hk. unfold_handlers. along_walk. all: try apply Hk.
  all: along_handler. all: grows_leaves.
Qed.

Lemma startCall_grows B : along grows (startCall B).
Proof.
  unfold startCall. apply (along_get_bind grows). intros s.
  destruct (negb (truthy (targetId s))).
  { match goal with
    | |- grows s (snd (fst (?m s))) =>
        assert (along grows m) as H
          by (unfold_handlers; along_walk; grows_leaves);
        exact (H s)
    end. }
  destruct (_ || _); [reflexivity |].
  apply (along_bind_at grows); [apply grows_localStream_or_getMedia |].
  intros [stream |]; [| apply (along_ret grows)].
  apply new_call_grows. intros manager. unfold_handlers. along_walk.
  all: grows_leaves.
Qed.

Lemma answerCall_grows B : along grows (answerCall B).
Proof.
  unfold answerCall. apply (along_get_bind grows). intros s.
  destruct (incomingCallData s) as [data |]; [| reflexivity].
  destruct (negb _); [reflexivity |].
  apply (along_bind_at grows); [apply grows_localStream_or_getMedia |].
  intros [stream |]; [| apply (along_ret grows)].
  apply (new_call_grows stream false (callerId data)
           (fun manager =>
              PeerConnectionManager.handleOffer B manager (offer data);;
              setIncomingCallData None)).
  intros manager. unfold_handlers. along_walk. all: grows_leaves.
Qed.

Lemma handle_grows B e : along grows (handle B e).
Proof.
  destruct e as [v | | | | | name data | p st0 | p cand | p st].
  2:{ cbn [handle]. along_walk. apply startCall_grows. }
  2:{ cbn [handle]. along_walk. apply answerCall_grows. }
  all: along_handle; grows_leaves.
Qed.

Lemma step_grows B e s : grows s (fst (step B e s)).
Proof. apply (along_step grows), handle_grows. Qed.

Lemma run_grows turns s : grows s (fst (run turns s)).
Proof. apply (along_run grows). apply step_grows. Qed.

(** ** One manager, one connection *)

Lemma localStream_or_getMedia_sizes B render :
  along (keeps sizes) (localStream_or_getMedia B render).
Proof. unfold_handlers. along_walk. all: keeps_leaves. Qed.

Lemma new_call_sizes stream b r (k : nat -> M unit) s :
  (forall manager, along (keeps sizes) (k manager)) ->
  sizes (snd (fst ((manager ← PeerConnectionManager.new stream;
                    modify (with_peerManagerRef (Some manager));;
                    PeerConnectionManager.initPeerConnection manager b r;;
                    k manager) s)))
  = (S (length (managers s)), S (length (pcs s))).
Proof.
  intros Hk. rewrite new_call_eq.
  specialize (Hk (length (managers s)) (prepared stream b r s)).
  destruct (k _ _) as [[o s'] t]. cbn [fst snd] in *.
  unfold keeps in Hk. rewrite Hk. unfold sizes, prepared. cbn.
  rewrite !length_app. cbn. f_equal; lia.
Qed.

Lemma state_bind {A B} (m : M A) (k : A -> M B) s :
  snd (fst ((m ≫= k) s)) =
  match m s with
  | (Some a, s1, _) => snd (fst (k a s1))
  | (None, s1, _) => s1
  end.
Proof.
  unfold mbind, M_bind, bind.
  destruct (m s) as [[[a |] s1] t1]; [| reflexivity].
  destruct (k a s1) as [[r s2] t2]. reflexivity.
Qed.

Lemma startCall_sizes B s :
  sizes (snd (fst (startCall B s))) = sizes s \/
  sizes (snd (fst (startCall B s)))
  = (S (length (managers s)), S (length (pcs s))).
Proof.
  unfold startCall. erewrite bind_silent; [| reflexivity].
  destruct (negb (truthy (targetId s))); [left; reflexivity |].
  destruct (_ || _); [left; reflexivity |].
  rewrite state_bind.
  pose proof (localStream_or_getMedia_sizes B s s) as H1.
  destruct (localStream_or_getMedia B s s) as [[[[stream |] |] s1] t1];
    cbn [fst snd] in H1; unfold keeps in H1; [| left; exact H1 ..].
  right. rewrite new_call_sizes.
  - unfold sizes in H1. injection H1 as -> ->. reflexivity.
  - intros manager. unfold_handlers. along_walk. all: keeps_leaves.
Qed.

Lemma answerCall_sizes B s :
  sizes (snd (fst (answerCall B s))) = sizes s \/
  sizes (snd (fst (answerCall B s)))
  = (S (length (managers s)), S (length (pcs s))).
Proof.
  unfold answerCall. erewrite bind_silent; [| reflexivity].
  destruct (incomingCallData s) as [data |]; [| left; reflexivity].
  destruct (negb _); [left; reflexivity |].
  rewrite state_bind.
  pose proof (localStream_or_getMedia_sizes B s s) as H1.
  destruct (localStream_or_getMedia B s s) as [[[[stream |] |] s1] t1];
    cbn [fst snd] in H1; unfold keeps in H1; [| left; exact H1 ..].
  right.
  rewrite (new_call_sizes stream false (callerId data)
             (fun manager =>
                PeerConnectionManager.handleOffer B manager (offer data);;
                setIncomingCallData None)).
  - unfold sizes in H1. injection H1 as -> ->. reflexivity.
  - intros manager. unfold_handlers. along_walk. all: keeps_leaves.
Qed.

Lemma exec_state {A} (m : M A) s : fst (exec m s) = snd (fst (m s)).
Proof. unfold exec. destruct (m s) as [[r s'] t]. reflexivity. Qed.

(** X17.  Managers and connections are created in pairs and never
    removed: a turn leaves the numbers of managers and of connections as
    they are, or, on a Call or Answer click only, adds exactly one
    manager and exactly one connection. *)
Theorem heaps_grow_in_pairs :
  forall (B : Browser) (e : Event) (s : State),
    sizes (fst (step B e s)) = sizes s \/
    ((e = ClickCall \/ e = ClickAnswer) /\
     sizes (fst (step B e s)) = (S (length (managers s)), S (length (pcs s)))).
Proof.
  intros B e s.
  destruct (frame_sizes B e) as [[-> | ->] | H].
  - unfold step. rewrite exec_state. cbn [handle].
    erewrite bind_silent; [| reflexivity].
    destruct (call_disabled s); [left; reflexivity |].
    destruct (startCall_sizes B s) as [H | H]; [left | right]; auto.
  - unfold step. rewrite exec_state. cbn [handle].
    erewrite bind_silent; [| reflexivity].
    destruct (dialog_shown s); [| left; reflexivity].
    destruct (answerCall_sizes B s) as [H | H]; [left | right]; auto.
  - left. exact (along_step (keeps sizes) B e s H).
Qed.

(** ** The local stream is acquired once *)

Ltac no_acquisition_leaves :=
  try (apply addTracks_only); unfold no_acquisition; intros; discriminate.

Lemma new_call_no_acquisition stream b r (k : nat -> M unit) :
  (forall manager, only no_acquisition (k manager)) ->
  only no_acquisition
    (manager ← PeerConnectionManager.new stream;
     modify (with_peerManagerRef (Some manager));;
     PeerConnectionManager.initPeerConnection manager b r;;
     k manager).
Proof.
  intros Hk. unfold_handlers. only_walk. all: try apply Hk.
  all: no_acquisition_leaves.
Qed.

Lemma with_stream_at_hand B s stream :
  localStream s = Some stream ->
  localStream_or_getMedia B s s = (Some (Some stream), s, []).
Proof. intros H. unfold localStream_or_getMedia. rewrite H. reflexivity. Qed.

Lemma startCall_no_acquisition B s stream :
  localStream s = Some stream ->
  Forall no_acquisition (snd (startCall B s)).
Proof.
  intros H. unfold startCall. erewrite bind_silent; [| reflexivity].
  destruct (negb (truthy (targetId s))).
  { match goal with
    | |- Forall _ (snd (?m s)) =>
        assert (only no_acquisition m) as H1
          by (unfold_handlers; only_walk; no_acquisition_leaves);
        exact (H1 s)
    end. }
  destruct (_ || _); [constructor |].
  rewrite (bind_silent _ _ _ _ _ (with_stream_at_hand B s stream H)).
  apply new_call_no_acquisition. intros manager.
  unfold_handlers. only_walk. all: no_acquisition_leaves.
Qed.

Lemma answerCall_no_acquisition B s stream :
  localStream s = Some stream ->
  Forall no_acquisition (snd (answerCall B s)).
Proof.
  intros H. unfold answerCall. erewrite bind_silent; [| reflexivity].
  destruct (incomingCallData s) as [data |]; [| constructor].
  destruct (negb _); [constructor |].
  rewrite (bind_silent _ _ _ _ _ (with_stream_at_hand B s stream H)).
  apply (new_call_no_acquisition stream false (callerId data)
           (fun manager =>
              PeerConnectionManager.handleOffer B manager (offer data);;
              setIncomingCallData None)).
  intros manager. unfold_handlers. only_walk. all: no_acquisition_leaves.
Qed.

Lemma classic_event (e : Event) :
  e = ClickCall \/ e = ClickAnswer \/ (e <> ClickCall /\ e <> ClickAnswer).
Proof.
  destruct e; auto; right; right; split; discriminate.
Qed.

Lemma step_no_acquisition B e s stream :
  localStream s = Some stream ->
  Forall no_acquisition (snd (step B e s)).
Proof.
  intros H.
  assert (e = ClickCall \/ e = ClickAnswer \/
          only no_acquisition (handle B e)) as [-> | [-> | Ho]].
  { destruct (classic_event e) as [-> | [-> | He]]; auto.
    right. right. intros s0. apply Forall_forall. intros eff Hin Heff.
    subst eff. apply list_elem_of_In in Hin.
    pose proof (only_In (calls e) (handle B e) s0 _ (handle_calls B e) Hin)
      as Hc.
    cbn in Hc. tauto. }
  - unfold step, exec, handle. erewrite bind_silent; [| reflexivity].
    destruct (call_disabled s); [constructor |].
    pose proof (startCall_no_acquisition B s stream H) as Hs.
    destruct (startCall B s) as [[r s'] t]. exact Hs.
  - unfold step, exec, handle. erewrite bind_silent; [| reflexivity].
    destruct (dialog_shown s); [| constructor].
    pose proof (answerCall_no_acquisition B s stream H) as Hs.
    destruct (answerCall B s) as [[r s'] t]. exact Hs.
  - specialize (Ho s). unfold step, exec.
    destruct (handle B e s) as [[r s'] t]. exact Ho.
Qed.

Lemma stream_at_hand B s stream :
  localStream s = Some stream -> stream_for B s = Some stream.
Proof. intros H. unfold stream_for. rewrite H. reflexivity. Qed.

Lemma createOffer_managers B this :
  along (keeps managers) (PeerConnectionManager.createOffer B this).
Proof. unfold_handlers. along_walk. all: keeps_leaves. Qed.

Lemma handleOffer_managers B this o :
  along (keeps managers)
    (PeerConnectionManager.handleOffer B this o;; setIncomingCallData None).
Proof. unfold_handlers. along_walk. all: keeps_leaves. Qed.

Lemma new_manager_stream stream b r (l : list PeerConnectionManager) p m mgr :
  (l ++ [mkManager stream p b r]) !! m = Some mgr ->
  length l <= m -> pcm_localStream mgr = stream.
Proof.
  intros H Hle. apply lookup_app_Some in H as [H | [_ H]].
  - apply lookup_lt_Some in H. lia.
  - destruct (m - length l) as [| n]; [| discriminate H].
    cbn in H. injection H as <-. reflexivity.
Qed.

Lemma old_managers_only (s s' : State) m mgr :
  length (managers s') = length (managers s) ->
  managers s' !! m = Some mgr -> length (managers s) <= m -> False.
Proof. intros E H Hle. apply lookup_lt_Some in H. lia. Qed.

Lemma startCall_managers B s stream m mgr :
  localStream s = Some stream ->
  managers (snd (fst (startCall B s))) !! m = Some mgr ->
  length (managers s) <= m -> pcm_localStream mgr = stream.
Proof.
  intros HL Hm Hle.
  destruct (truthy (targetId s)) eqn:Ht.
  - destruct (call_disabled s) eqn:Hd.
    + exfalso. revert Hm. unfold startCall.
      erewrite bind_silent; [| reflexivity]. rewrite Ht. cbn [negb].
      unfold call_disabled in Hd. rewrite Hd. cbn. intros Hm.
      exact (old_managers_only s s m mgr eq_refl Hm Hle).
    + rewrite (startCall_eq B s stream Ht Hd (stream_at_hand B s stream HL))
        in Hm.
      pose proof (createOffer_managers B (length (managers s))
                    (prepared stream true (targetId s)
                       (with_localStream (Some stream) s))) as Hk.
      destruct (PeerConnectionManager.createOffer _ _ _) as [[o s'] t].
      cbn [fst snd] in *. unfold keeps in Hk. rewrite Hk in Hm.
      exact (new_manager_stream _ _ _ _ _ _ _ Hm Hle).
  - exfalso. revert Hm. unfold startCall.
    erewrite bind_silent; [| reflexivity]. rewrite Ht. cbn. intros Hm.
    exact (old_managers_only s s m mgr eq_refl Hm Hle).
Qed.

Lemma answerCall_managers B s stream m mgr :
  localStream s = Some stream ->
  managers (snd (fst (answerCall B s))) !! m = Some mgr ->
  length (managers s) <= m -> pcm_localStream mgr = stream.
Proof.
  intros HL Hm Hle.
  destruct (incomingCallData s) as [data |] eqn:Hi.
  - destruct (CallStatus_eqb (callStatus s) IncomingCall) eqn:Hc.
    + apply CallStatus_eqb_eq in Hc.
      rewrite (answerCall_eq B s stream data Hi Hc
                 (stream_at_hand B s stream HL)) in Hm.
      pose proof (handleOffer_managers B (length (managers s)) (offer data)
                    (prepared stream false (callerId data)
                       (with_localStream (Some stream) s))) as Hk.
      destruct ((PeerConnectionManager.handleOffer _ _ _;; _) _)
        as [[o s'] t].
      cbn [fst snd] in *. unfold keeps in Hk. rewrite Hk in Hm.
      exact (new_manager_stream _ _ _ _ _ _ _ Hm Hle).
    + exfalso. revert Hm. unfold answerCall.
      erewrite bind_silent; [| reflexivity]. rewrite Hi, Hc. cbn. intros Hm.
      exact (old_managers_only s s m mgr eq_refl Hm Hle).
  - exfalso. revert Hm. unfold answerCall.
    erewrite bind_silent; [| reflexivity]. rewrite Hi. cbn. intros Hm.
    exact (old_managers_only s s m mgr eq_refl Hm Hle).
Qed.

(** X16.  A handler that starts with a local stream at hand works with
    that stream: it does not call [getUserMedia] (the
    [localStream || await getMedia()] of Call and Answer takes the
    stream the page holds), it leaves the page's local stream as it is
    (End and the transport-failure callback included: they neither
    release nor replace it), and a manager it creates is built on that
    stream.  The statement is about the effects of the one handler that
    runs in the turn. *)
Theorem stream_at_hand_is_reused :
  forall (B : Browser) (e : Event) (s : State) (stream : MediaStream),
    localStream s = Some stream ->
    localStream (fst (step B e s)) = Some stream /\
    ~ In GetUserMedia (snd (step B e s)) /\
    (forall m mgr,
        managers (fst (step B e s)) !! m = Some mgr ->
        length (managers s) <= m ->
        pcm_localStream mgr = stream).
Proof.
  intros B e s stream H. split; [| split].
  - destruct (step_grows B e s) as (_ & _ & Hkeep). exact (Hkeep stream H).
  - pose proof (step_no_acquisition B e s stream H) as Hno.
    intros Hin. rewrite Forall_forall in Hno. apply list_elem_of_In in Hin.
    exact (Hno _ Hin eq_refl).
  - intros m mgr Hm Hle.
    destruct (frame_sizes B e) as [[-> | ->] | Hk].
    + revert Hm. unfold step. rewrite exec_state. cbn [handle].
      erewrite bind_silent; [| reflexivity].
      destruct (call_disabled s).
      * intros Hm. exfalso.
        exact (old_managers_only s s m mgr eq_refl Hm Hle).
      * intros Hm. exact (startCall_managers B s stream m mgr H Hm Hle).
    + revert Hm. unfold step. rewrite exec_state. cbn [handle].
      erewrite bind_silent; [| reflexivity].
      destruct (dialog_shown s).
      * intros Hm. exact (answerCall_managers B s stream m mgr H Hm Hle).
      * intros Hm. exfalso.
        exact (old_managers_only s s m mgr eq_refl Hm Hle).
    + exfalso. pose proof (along_step (keeps sizes) B e s Hk) as E.
      unfold keeps, sizes in E. injection E as E _.
      exact (old_managers_only s _ m mgr E Hm Hle).
Qed.

Lemma stream_at_hand_is_reused_witness :
  localStream (fst (step granting ClickEnd (state_after connected_to_B)))
  = Some camera_and_mic.
Proof.
  exact (proj1 (stream_at_hand_is_reused granting ClickEnd
                  (state_after connected_to_B) camera_and_mic eq_refl)).
Defined.

(** ** A whole handshake *)

Lemma lookup_last {A} (l : list A) (x : A) : (l ++ [x]) !! length l = Some x.
Proof. apply list_lookup_middle. reflexivity. Qed.

Lemma status_writes_cons_console l text t :
  status_writes (Console l text :: t) = status_writes t.
Proof. reflexivity. Qed.

(** X22.  The initiator's handshake, from any state in which the Call
    button works: Call (with media at hand or granted and an offer
    produced), then the peer's answer accepted by the transport, then
    the transport reporting [connected].  The page ends Connected with
    one new connection that holds the offer as local and the answer as
    remote description; over the three turns exactly one message was
    sent, the offer to the target, and the status was written
    Connecting, Waiting for answer, Connected. *)
Theorem initiator_handshake :
  forall (B1 B2 B3 : Browser) (s : State) (stream : MediaStream)
         (d a : RTCSessionDescriptionInit),
    targetId s <> "" ->
    call_disabled s = false ->
    stream_for B1 s = Some stream ->
    createOffer_resolves B1 = Some d ->
    setLocalDescription_resolves B1 = true ->
    setRemoteDescription_resolves B2 = true ->
    forall s' t,
      run [(B1, ClickCall);
           (B2, Socket "answer-made" (data_answer a));
           (B3, IceConnectionState (length (pcs s)) ice_connected)] s
      = (s', t) ->
      callStatus s' = Connected /\
      peerManagerRef s' = Some (length (managers s)) /\
      managers s'
      = managers s ++
        [mkManager stream (Some (length (pcs s))) true (Some (targetId s))] /\
      pcs s'
      = pcs s ++
        [mkPC false (Some d) (Some a) ice_connected stream []
           (Some (length (managers s)))] /\
      emitted t = [call_user (Some d) (Some (targetId s))] /\
      status_writes t = [Connecting; WaitingForAnswer; Connected].
Proof.
  intros B1 B2 B3 s stream d a Ht Hd Hs Ho Hl Hr s' t E.
  cbn [run] in E.
  (* the Call click *)
  rewrite (step_ClickCall B1 s Hd) in E. unfold exec in E.
  rewrite (startCall_eq B1 s stream (truthy_nonempty _ Ht) Hd Hs) in E.
  erewrite createOffer_eq in E;
    [ | apply prepared_manager | reflexivity | reflexivity
      | apply truthy_nonempty, Ht | apply prepared_connection | reflexivity ].
  rewrite Ho, Hl in E.
  match type of E with
  | context [step B2 _ ?s1] => set (s1' := s1) in E
  end.
  assert (managers s1'
          = managers s ++
            [mkManager stream (Some (length (pcs s))) true
               (Some (targetId s))]) as Hms1 by reflexivity.
  assert (managers s1' !! length (managers s)
          = Some (mkManager stream (Some (length (pcs s))) true
                    (Some (targetId s)))) as Hm1
    by (rewrite Hms1; apply lookup_last).
  assert (pcs s1'
          = pcs s ++ [mkPC false (Some d) None ice_new stream []
                        (Some (length (managers s)))]) as Hp1.
  { subst s1'. cbn. rewrite alter_last. reflexivity. }
  assert (peerManagerRef s1' = Some (length (managers s))) as Href1
    by reflexivity.
  clearbody s1'.
  (* the answer *)
  assert (step B2 (Socket "answer-made" (data_answer a)) s1'
          = (with_pcs (alter (pc_with_remoteDescription a) (length (pcs s))
                         (pcs s1')) s1',
             [Console console_log "Answer received from peer.";
              Pc (length (pcs s)) (SetRemoteDescription a);
              Console console_log "Answer received and set."])) as E2.
  { unfold step, handle, socket_receive.
    change (listener "answer-made" socket_on) with (Some on_answer_made).
    unfold on_answer_made, exec. unfold_M. cbn. rewrite Href1.
    rewrite handleAnswer_eq, Hm1. cbn [pcm_pc]. rewrite Hr.
    unfold pc_open. rewrite Hp1, lookup_last. reflexivity. }
  rewrite E2 in E. clear E2.
  match type of E with
  | context [step B3 _ ?s2] => set (s2' := s2) in E
  end.
  assert (pcs s2'
          = pcs s ++ [mkPC false (Some d) (Some a) ice_new stream []
                        (Some (length (managers s)))]) as Hp2
    by (subst s2'; cbn; rewrite Hp1, alter_last; reflexivity).
  assert (managers s2' = managers s1') as Hms2 by reflexivity.
  assert (peerManagerRef s2' = peerManagerRef s1') as Href2 by reflexivity.
  clearbody s2'. rewrite <- Hms2 in Hm1.
  (* the transport *)
  assert (ice_new <> ice_connected) as Hne by discriminate.
  assert (pcs s2' !! length (pcs s)
          = Some (mkPC false (Some d) (Some a) ice_new stream []
                    (Some (length (managers s))))) as Hc2
    by (rewrite Hp2; apply lookup_last).
  rewrite (ice_report_eq B3 s2' (length (pcs s)) _ (length (managers s)) _
             ice_connected Hc2 eq_refl eq_refl Hm1 eq_refl Hne) in E
    by tauto.
  cbn [ice_eqb] in E. injection E as <- <-.
  cbn [callStatus peerManagerRef managers pcs with_callStatus with_pcs].
  rewrite Hp2, alter_last, Href2, Href1, Hms2, Hms1.
  refine (conj eq_refl (conj eq_refl (conj eq_refl (conj eq_refl _)))).
  rewrite !emitted_app, !status_writes_app.
  repeat (progress (observe; cbn; rewrite ?Nat.eqb_refl, ?app_nil_r)).
  split; reflexivity.
Qed.

Lemma initiator_handshake_witness :
  callStatus
    (fst (run [(granting, ClickCall);
               (granting, Socket "answer-made" (data_answer remote_answer));
               (granting, IceConnectionState
                            (length (pcs (state_after typed_B)))
                            ice_connected)]
            (state_after typed_B))) = Connected.
Proof.
  assert (targetId (state_after typed_B) <> "") as Ht
    by (intros F; discriminate F).
  exact (proj1 (initiator_handshake granting granting granting
                  (state_after typed_B) camera_and_mic local_offer
                  remote_answer Ht eq_refl eq_refl eq_refl eq_refl eq_refl
                  (fst (run _ _)) (snd (run _ _)) (surjective_pairing _))).
Defined.

(** X23.  The responder's handshake, from any state and any status: an
    offer from a caller with a non-empty identifier, then Answer (with
    media at hand or granted, the offer accepted and an answer produced
    and applied).  The page ends Connected, before the transport has
    reported anything, with one new manager aimed at the caller and one
    new connection that holds the offer as remote and the answer as
    local description; the connections that existed are untouched;
    exactly one message was sent, the answer to the caller; no offer is
    pending. *)
Theorem responder_handshake :
  forall (B1 B2 : Browser) (s : State) (stream : MediaStream)
         (o a : RTCSessionDescriptionInit) (c : string),
    c <> "" ->
    stream_for B2 s = Some stream ->
    setRemoteDescription_resolves B2 = true ->
    createAnswer_resolves B2 = Some a ->
    setLocalDescription_resolves B2 = true ->
    forall s' t,
      run [(B1, Socket "call-made" (data_offer o c)); (B2, ClickAnswer)] s
      = (s', t) ->
      callStatus s' = Connected /\
      incomingCallData s' = None /\
      peerManagerRef s' = Some (length (managers s)) /\
      managers s'
      = managers s ++
        [mkManager stream (Some (length (pcs s))) false (Some c)] /\
      pcs s'
      = pcs s ++
        [mkPC false (Some a) (Some o) ice_new stream []
           (Some (length (managers s)))] /\
      emitted t = [answer_call (Some a) (Some c)] /\
      status_writes t = [IncomingCall; Connecting; Connected].
Proof.
  intros B1 B2 s stream o a c Hc Hs Hr Ha Hl s' t E.
  cbn [run] in E.
  assert (step B1 (Socket "call-made" (data_offer o c)) s
          = (with_callStatus IncomingCall
               (with_incomingCallData (Some (mkIncoming o c)) s),
             [Console console_log "Incoming call offer from:";
              SetCallStatus IncomingCall])) as E1.
  { unfold step, handle, socket_receive.
    change (listener "call-made" socket_on) with (Some on_call_made).
    reflexivity. }
  rewrite E1 in E. clear E1.
  rewrite (step_answer B2
             (with_callStatus IncomingCall
                (with_incomingCallData (Some (mkIncoming o c)) s))
             stream (mkIncoming o c) eq_refl eq_refl Hs) in E.
  erewrite bind_eq in E.
  2:{ erewrite handleOffer_eq;
        [ | apply prepared_manager | reflexivity | reflexivity
          | apply truthy_nonempty, Hc | apply prepared_connection
          | reflexivity ].
      rewrite Hr, Ha, Hl. reflexivity. }
  2:{ reflexivity. }
  injection E as <- <-.
  cbn [callStatus localStream peerManagerRef managers pcs with_callStatus
         with_pcs prepared with_managers with_peerManagerRef
         with_localStream incomingCallData with_incomingCallData
         offer callerId].
  rewrite !alter_last.
  refine (conj eq_refl (conj eq_refl (conj eq_refl (conj eq_refl
            (conj eq_refl _))))).
  rewrite ?app_nil_r. cbn [app emitted status_writes].
  repeat (progress (observe; cbn; rewrite ?Nat.eqb_refl, ?app_nil_r)).
  split; reflexivity.
Qed.

Lemma responder_handshake_witness :
  callStatus
    (fst (run [(granting, Socket "call-made" (data_offer remote_offer "C"));
               (granting, ClickAnswer)]
            (state_after connected_to_B))) = Connected.
Proof.
  assert ("C" <> "") as Hc by (intros F; discriminate F).
  exact (proj1 (responder_handshake granting granting
                  (state_after connected_to_B) camera_and_mic remote_offer
                  local_answer "C" Hc eq_refl eq_refl eq_refl eq_refl
                  (fst (run _ _)) (snd (run _ _)) (surjective_pairing _))).
Defined.

(** ** Managers and their connections *)

#[global] Instance upholds_preorder P : PreOrder (upholds P).
Proof. split; [intros s H; exact H | intros s1 s2 s3 H1 H2 H; auto]. Qed.

Lemma tidy_same s s' :
  managers s' = managers s -> pcs s' = pcs s -> upholds tidy s s'.
Proof.
  intros Hm Hp [H1 H2]. unfold tidy, pc_open. rewrite Hm, Hp.
  split; assumption.
Qed.

Lemma tidy_alter_pc f p s :
  (forall c, pc_isClosed (f c) = pc_isClosed c) ->
  upholds tidy s (with_pcs (alter f p (pcs s)) s).
Proof.
  intros Hf [H1 H2]. split; [| exact H2].
  intros m mgr q Hm Hq. specialize (H1 m mgr q Hm Hq).
  unfold pc_open in *. cbn.
  destruct (decide (p = q)) as [-> | Hne].
  - rewrite list_lookup_alter_eq. destruct (pcs s !! q) as [c |]; cbn;
      [rewrite Hf; exact H1 | discriminate H1].
  - rewrite list_lookup_alter_ne by exact Hne. exact H1.
Qed.

Lemma lookup_alter_manager f this (l : list PeerConnectionManager) m mgr' :
  (forall x, pcm_pc (f x) = pcm_pc x) ->
  alter f this l !! m = Some mgr' ->
  exists mgr, l !! m = Some mgr /\ pcm_pc mgr = pcm_pc mgr'.
Proof.
  intros Hf H. destruct (decide (this = m)) as [-> | Hne].
  - rewrite list_lookup_alter_eq in H.
    destruct (l !! m) as [mgr |]; [| discriminate H].
    cbn in H. injection H as <-. exists mgr. split; [reflexivity |].
    symmetry. apply Hf.
  - rewrite list_lookup_alter_ne in H by exact Hne.
    exists mgr'. split; [exact H | reflexivity].
Qed.

Lemma tidy_alter_manager f this s :
  (forall x, pcm_pc (f x) = pcm_pc x) ->
  upholds tidy s (with_managers (alter f this (managers s)) s).
Proof.
  intros Hf [H1 H2]. split; cbn.
  - intros m mgr' p Hm Hp.
    destruct (lookup_alter_manager f this _ m mgr' Hf Hm) as (mgr & Hm0 & E).
    apply (H1 m mgr p Hm0). congruence.
  - intros m m' mgr mgr' p Hm Hm' Hp Hp'.
    destruct (lookup_alter_manager f this _ m mgr Hf Hm) as (x & Hx & Ex).
    destruct (lookup_alter_manager f this _ m' mgr' Hf Hm') as (y & Hy & Ey).
    apply (H2 m m' x y p Hx Hy); congruence.
Qed.

Lemma tidy_prepared stream b r s : upholds tidy s (prepared stream b r s).
Proof.
  intros [H1 H2].
  assert (forall m mgr p,
             managers s !! m = Some mgr -> pcm_pc mgr = Some p ->
             p < length (pcs s)) as Hlt.
  { intros m mgr p Hm Hp. specialize (H1 m mgr p Hm Hp).
    unfold pc_open in H1.
    destruct (pcs s !! p) as [c |] eqn:Hc; [| discriminate H1].
    apply lookup_lt_Some in Hc. exact Hc. }
  split; cbn.
  - intros m mgr p Hm Hp. unfold pc_open. cbn.
    apply lookup_app_Some in Hm as [Hm | [_ Hm]].
    + specialize (H1 m mgr p Hm Hp). unfold pc_open in H1.
      destruct (pcs s !! p) as [c |] eqn:Hc; [| discriminate H1].
      rewrite (lookup_app_l_Some _ _ _ _ Hc). exact H1.
    + destruct (m - length (managers s)) as [| n]; [| discriminate Hm].
      cbn in Hm. injection Hm as <-. cbn in Hp. injection Hp as <-.
      rewrite list_lookup_middle by reflexivity. reflexivity.
  - intros m m' mgr mgr' p Hm Hm' Hp Hp'.
    apply lookup_app_Some in Hm as [Hm | [Hge Hm]];
      apply lookup_app_Some in Hm' as [Hm' | [Hge' Hm']].
    + exact (H2 m m' mgr mgr' p Hm Hm' Hp Hp').
    + destruct (m' - length (managers s)) as [| n]; [| discriminate Hm'].
      cbn in Hm'. injection Hm' as <-. cbn in Hp'. injection Hp' as <-.
      specialize (Hlt m mgr _ Hm Hp). lia.
    + destruct (m - length (managers s)) as [| n]; [| discriminate Hm].
      cbn in Hm. injection Hm as <-. cbn in Hp. injection Hp as <-.
      specialize (Hlt m' mgr' _ Hm' Hp'). lia.
    + destruct (m - length (managers s)) as [| n] eqn:En;
        [| discriminate Hm].
      destruct (m' - length (managers s)) as [| n'] eqn:En';
        [| discriminate Hm'].
      lia.
Qed.

Lemma tidy_closed this mgr s :
  managers s !! this = Some mgr -> upholds tidy s (closed this mgr s).
Proof.
  intros Hthis [H1 H2]. unfold closed.
  assert (forall m mgr',
             alter (pcm_with_remotePeerId None) this
               (match pcm_pc mgr with
                | Some _ => alter (pcm_with_pc None) this (managers s)
                | None => managers s
                end) !! m = Some mgr' ->
             forall q, pcm_pc mgr' = Some q ->
             exists mgr0, managers s !! m = Some mgr0 /\
                          pcm_pc mgr0 = Some q /\ pcm_pc mgr <> Some q) as Hold.
  { intros m mgr' Hm q Hq.
    apply lookup_alter_manager in Hm as (x & Hx & Ex);
      [| intros ?; reflexivity].
    destruct (pcm_pc mgr) as [p |] eqn:Hp.
    - destruct (decide (this = m)) as [-> | Hne].
      + rewrite list_lookup_alter_eq, Hthis in Hx. cbn in Hx.
        injection Hx as <-. cbn in Ex. congruence.
      + rewrite list_lookup_alter_ne in Hx by exact Hne.
        exists x. split; [exact Hx |]. split; [congruence |].
        intros [= ->]. apply Hne.
        apply (H2 this m mgr x q Hthis Hx Hp). congruence.
    - exists x. split; [exact Hx |]. split; [congruence | discriminate]. }
  split; cbn.
  - intros m mgr' q Hm Hq.
    destruct (Hold m mgr' Hm q Hq) as (mgr0 & Hm0 & Hq0 & Hne).
    specialize (H1 m mgr0 q Hm0 Hq0). unfold pc_open in *.
    destruct (pcm_pc mgr) as [p |]; cbn; [| exact H1].
    rewrite list_lookup_alter_ne by congruence. exact H1.
  - intros m m' x y q Hm Hm' Hx Hy.
    destruct (Hold m x Hm q Hx) as (x0 & Hx0 & Hqx & _).
    destruct (Hold m' y Hm' q Hy) as (y0 & Hy0 & Hqy & _).
    exact (H2 m m' x0 y0 q Hx0 Hy0 Hqx Hqy).
Qed.

Ltac tidy_leaves :=
  intros;
  first
    [ apply tidy_same; reflexivity
    | apply tidy_alter_pc; intros ?; reflexivity
    | apply tidy_alter_manager; intros ?; reflexivity ].

Lemma close_tidy this : along (upholds tidy) (PeerConnectionManager.close this).
Proof.
  intros s. rewrite close_eq.
  destruct (managers s !! this) as [mgr |] eqn:Hm; cbn;
    [apply (tidy_closed this mgr s Hm) | reflexivity].
Qed.

Lemma new_call_tidy stream b r (k : nat -> M unit) :
  (forall manager, along (upholds tidy) (k manager)) ->
  along (upholds tidy)
    (manager ← PeerConnectionManager.new stream;
     modify (with_peerManagerRef (Some manager));;
     PeerConnectionManager.initPeerConnection manager b r;;
     k manager).
Proof.
  intros Hk s. rewrite new_call_eq.
  specialize (Hk (length (managers s)) (prepared stream b r s)).
  destruct (k _ _) as [[o s'] t]. cbn [fst snd] in *.
  intros H. apply Hk, tidy_prepared, H.
Qed.

Ltac unfold_but_close :=
  unfold startCall, answerCall, endCall, rejectCall, localStream_or_getMedia,
    getMedia, on_me, on_call_made, on_answer_made, on_ice_candidate,
    PeerConnectionManager.createOffer, PeerConnectionManager.handleOffer,
    PeerConnectionManager.handleAnswer,
    PeerConnectionManager.handleIceCandidate,
    PeerConnectionManager.ontrack,
    PeerConnectionManager.onicecandidate,
    PeerConnectionManager.oniceconnectionstatechange,
    PeerConnectionManager.the_pc, PeerConnectionManager.has_remotePeerId,
    PeerConnectionManager.assign, pc_update, pc_createOffer, pc_createAnswer,
    pc_setLocalDescription, pc_setRemoteDescription, pc_addIceCandidate,
    pc_addTrack, setRemoteStream, setLocalStream, setCurrentId, setTargetId,
    setIncomingCallData, console, socket_emit.

Lemma localStream_or_getMedia_tidy B render :
  along (upholds tidy) (localStream_or_getMedia B render).
Proof. unfold_but_close. along_walk. all: tidy_leaves. Qed.

Lemma startCall_tidy B : along (upholds tidy) (startCall B).
Proof.
  unfold startCall.
  apply (along_bind (upholds tidy)); [apply (along_get (upholds tidy)) |].
  intros render.
  destruct (negb (truthy (targetId render))).
  { unfold_but_close. along_walk. all: tidy_leaves. }
  destruct (_ || _); [apply (along_ret (upholds tidy)) |].
  apply (along_bind (upholds tidy));
    [apply localStream_or_getMedia_tidy |].
  intros [stream |]; [| apply (along_ret (upholds tidy))].
  apply new_call_tidy. intros manager.
  unfold_but_close. along_walk. all: tidy_leaves.
Qed.

Lemma answerCall_tidy B : along (upholds tidy) (answerCall B).
Proof.
  unfold answerCall.
  apply (along_bind (upholds tidy)); [apply (along_get (upholds tidy)) |].
  intros render.
  destruct (incomingCallData render) as [data |];
    [| apply (along_ret (upholds tidy))].
  destruct (negb _); [apply (along_ret (upholds tidy)) |].
  apply (along_bind (upholds tidy));
    [apply localStream_or_getMedia_tidy |].
  intros [stream |]; [| apply (along_ret (upholds tidy))].
  apply (new_call_tidy stream false (callerId data)
           (fun manager =>
              PeerConnectionManager.handleOffer B manager (offer data);;
              setIncomingCallData None)).
  intros manager. unfold_but_close. along_walk. all: tidy_leaves.
Qed.

Lemma handle_tidy B e : along (upholds tidy) (handle B e).
Proof.
  destruct e as [v | | | | | name data | p st0 | p cand | p st];
    cbn [handle].
  - unfold_but_close. along_walk. all: tidy_leaves.
  - apply (along_bind (upholds tidy)); [apply (along_get (upholds tidy)) |].
    intros s0. destruct (call_disabled s0);
      [apply (along_ret (upholds tidy)) | apply startCall_tidy].
  - apply (along_bind (upholds tidy)); [apply (along_get (upholds tidy)) |].
    intros s0. destruct (dialog_shown s0);
      [apply answerCall_tidy | apply (along_ret (upholds tidy))].
  - unfold_but_close. along_walk. all: tidy_leaves.
  - unfold_but_close. along_walk. all: try apply close_tidy.
    all: tidy_leaves.
  - apply (along_socket_receive (upholds tidy)); intros _; unfold_but_close;
      along_walk; tidy_leaves.
  - apply (along_fire (upholds tidy)). intros this. unfold_but_close.
    along_walk. all: tidy_leaves.
  - apply (along_fire (upholds tidy)). intros this. unfold_but_close.
    along_walk. all: tidy_leaves.
  - unfold ice_state_changes. unfold_but_close. along_walk.
    all: try (apply (along_fire (upholds tidy)); intros this;
              unfold_but_close; along_walk).
    all: try apply close_tidy.
    all: tidy_leaves.
Qed.

Lemma tidy_initial : tidy initial.
Proof.
  split.
  - intros m mgr p H. destruct m; discriminate H.
  - intros m m' mgr mgr' p H. destruct m; discriminate H.
Qed.

Lemma tidy_run turns s : tidy s -> tidy (fst (run turns s)).
Proof.
  apply (along_run (upholds tidy)). intros B e s0.
  apply (along_step (upholds tidy)), handle_tidy.
Qed.

(** X24.  The discipline of the two heaps, in every state the page can
    reach from a well-formed and tidy one (the initial state is both),
    whatever the browser answers: [peerManagerRef] names a manager that
    exists; an open connection that carries callbacks is the current
    connection of the manager they belong to; the current connection of
    every manager is open ([close()] drops the connection it closes);
    and no two managers have the same current connection. *)
Theorem heap_discipline :
  forall (turns : list (Browser * Event)) (s : State),
    wf s -> tidy s ->
    wf (fst (run turns s)) /\ tidy (fst (run turns s)).
Proof.
  intros turns s Hwf Ht. split; [apply wf_run_from, Hwf | apply tidy_run, Ht].
Qed.

Lemma heap_discipline_witness :
  wf (state_after second_call) /\ tidy (state_after second_call).
Proof.
  exact (heap_discipline second_call initial wf_initial tidy_initial).
Defined.

(** X25.  In a tidy state, an inbound answer or candidate that finds a
    current connection finds it open, so what happens is decided by the
    browser alone: if the browser accepts, the answer becomes the remote
    description of that connection, respectively the candidate is added
    after those it has; no status is written and nothing is sent. *)
Theorem inbound_messages_reach_an_open_connection :
  forall (B : Browser) (s : State) (p : nat),
    tidy s ->
    current_connection s = Some p ->
    (forall a,
        setRemoteDescription_resolves B = true ->
        step B (Socket "answer-made" (data_answer a)) s
        = (with_pcs (alter (pc_with_remoteDescription a) p (pcs s)) s,
           [Console console_log "Answer received from peer.";
            Pc p (SetRemoteDescription a);
            Console console_log "Answer received and set."])) /\
    (forall x,
        addIceCandidate_resolves B = true ->
        step B (Socket "ice-candidate" (data_candidate (Some x))) s
        = (with_pcs (alter (pc_with_remoteCandidate x) p (pcs s)) s,
           [Pc p (AddIceCandidate x);
            Console console_log "ICE candidate added."])).
Proof.
  intros B s p [Hopen _] Hcur. unfold current_connection in Hcur.
  destruct (peerManagerRef s) as [m |] eqn:Href; [| discriminate Hcur].
  cbn in Hcur.
  destruct (managers s !! m) as [mgr |] eqn:Hm; [| discriminate Hcur].
  cbn in Hcur. specialize (Hopen m mgr p Hm Hcur). split.
  - intros a Hr. unfold step, handle, socket_receive.
    change (listener "answer-made" socket_on) with (Some on_answer_made).
    unfold on_answer_made, exec. unfold_M. cbn. rewrite Href.
    rewrite handleAnswer_eq, Hm, Hcur, Hr, Hopen. reflexivity.
  - intros x Hr. unfold step, handle, socket_receive.
    change (listener "ice-candidate" socket_on) with (Some on_ice_candidate).
    unfold on_ice_candidate, exec. unfold_M. cbn. rewrite Href.
    rewrite handleIceCandidate_eq, Hm, Hcur, Hr, Hopen. reflexivity.
Qed.

Lemma inbound_messages_witness :
  step granting (Socket "ice-candidate" (data_candidate (Some host_candidate)))
    (state_after connected_to_B)
  = (with_pcs (alter (pc_with_remoteCandidate host_candidate) 0
                 (pcs (state_after connected_to_B)))
       (state_after connected_to_B),
     [Pc 0 (AddIceCandidate host_candidate);
      Console console_log "ICE candidate added."]).
Proof.
  exact (proj2 (inbound_messages_reach_an_open_connection granting
                  (state_after connected_to_B) 0
                  (tidy_run connected_to_B initial tidy_initial) eq_refl)
           host_candidate eq_refl).
Defined.

(** ** A closed connection is left alone *)

Lemma exec_trace {A} (m : M A) s : snd (exec m s) = snd (m s).
Proof. unfold exec. destruct (m s) as [[r s'] t]. reflexivity. Qed.

Lemma touches_fresh s c : touches s (Pc (length (pcs s)) c).
Proof. right. reflexivity. Qed.

Lemma touches_prepare_trace s stream :
  Forall (touches s) (prepare_trace (length (pcs s)) stream).
Proof.
  unfold prepare_trace. constructor; [apply touches_fresh |].
  constructor; [exact I |].
  apply Forall_forall. intros e He. apply list_elem_of_In, in_map_iff in He.
  destruct He as (t & <- & _). apply touches_fresh.
Qed.

Lemma touches_acquisition s : Forall (touches s) (acquisition s).
Proof. unfold acquisition. destruct (localStream s); repeat constructor. Qed.

Ltac touches_list :=
  repeat
    match goal with
    | |- Forall _ [] => constructor
    | |- Forall _ (_ :: _) => constructor
    | |- Forall _ (_ ++ _) => apply Forall_app; split
    | |- Forall _ (acquisition _) => apply touches_acquisition
    | |- Forall _ (prepare_trace _ _) => apply touches_prepare_trace
    | |- touches ?s (Pc (length (pcs ?s)) _) => apply touches_fresh
    | |- touches _ (SetCallStatus _) => exact I
    | |- touches _ (Emit _) => exact I
    | |- touches _ (Console _ _) => exact I
    | |- touches _ GetUserMedia => exact I
    end.

Lemma localStream_or_getMedia_touches B s :
  Forall (touches s) (snd (localStream_or_getMedia B s s)).
Proof.
  unfold localStream_or_getMedia, getMedia, mediaDevices_getUserMedia.
  unfold_M. destruct (localStream s); [constructor |].
  destruct (getUserMedia B); cbn; touches_list.
Qed.

Lemma startCall_touches B s : Forall (touches s) (snd (startCall B s)).
Proof.
  destruct (truthy (targetId s)) eqn:Ht.
  2:{ unfold startCall. erewrite bind_silent; [| reflexivity].
      rewrite Ht. unfold_M. cbn. touches_list. }
  destruct (call_disabled s) eqn:Hd.
  { unfold startCall. erewrite bind_silent; [| reflexivity].
    rewrite Ht. cbn [negb]. unfold call_disabled in Hd. rewrite Hd.
    constructor. }
  destruct (stream_for B s) as [stream |] eqn:Hs.
  - rewrite (startCall_eq B s stream Ht Hd Hs).
    erewrite createOffer_eq;
      [ | apply prepared_manager | reflexivity | reflexivity
        | exact Ht | apply prepared_connection | reflexivity ].
    destruct (createOffer_resolves B) as [d |];
      [destruct (setLocalDescription_resolves B) |]; cbn [snd];
      touches_list.
  - unfold startCall. erewrite bind_silent; [| reflexivity].
    rewrite Ht. cbn [negb]. unfold call_disabled in Hd. rewrite Hd.
    unfold stream_for in Hs.
    unfold localStream_or_getMedia, getMedia, mediaDevices_getUserMedia.
    destruct (localStream s); [discriminate Hs |].
    unfold_M. rewrite Hs. cbn. touches_list.
Qed.

Lemma answerCall_touches B s : Forall (touches s) (snd (answerCall B s)).
Proof.
  destruct (incomingCallData s) as [data |] eqn:Hi.
  2:{ unfold answerCall. erewrite bind_silent; [| reflexivity].
      rewrite Hi. constructor. }
  destruct (CallStatus_eqb (callStatus s) IncomingCall) eqn:Hc.
  2:{ unfold answerCall. erewrite bind_silent; [| reflexivity].
      rewrite Hi, Hc. constructor. }
  destruct (stream_for B s) as [stream |] eqn:Hs.
  - apply CallStatus_eqb_eq in Hc.
    rewrite (answerCall_eq B s stream data Hi Hc Hs).
    destruct (truthy (callerId data)) eqn:Hcaller.
    + pose proof (handleOffer_eq B (length (managers s)) (offer data) _ _ _
                    _ _
                    (prepared_manager s stream false (callerId data)) eq_refl
                    eq_refl Hcaller
                    (prepared_connection s stream false (callerId data))
                    eq_refl) as H.
      destruct (setRemoteDescription_resolves B);
        [destruct (createAnswer_resolves B) as [a |];
         [destruct (setLocalDescription_resolves B) |] |].
      all: rewrite (bind_eq _ _ _ _ _ _ _ _ _ H eq_refl); cbn [snd];
        touches_list.
    + erewrite bind_eq.
      2:{ refine (proj2 (negotiation_without_peer B _ (offer data) _ _
                           (prepared_manager s stream false (callerId data))
                           _)).
          cbn. exact Hcaller. }
      2:{ reflexivity. }
      cbn [snd]. touches_list.
  - unfold answerCall. erewrite bind_silent; [| reflexivity].
    rewrite Hi, Hc. cbn [negb].
    unfold stream_for in Hs.
    unfold localStream_or_getMedia, getMedia, mediaDevices_getUserMedia.
    destruct (localStream s); [discriminate Hs |].
    unfold_M. rewrite Hs. cbn. touches_list.
Qed.

Lemma close_touches this s s1 :
  tidy s -> managers s1 = managers s ->
  Forall (touches s) (snd (PeerConnectionManager.close this s1)).
Proof.
  intros [Hopen _] Hms. rewrite close_eq, Hms.
  destruct (managers s !! this) as [mgr |] eqn:Hm; [| constructor].
  cbn [snd]. destruct (pcm_pc mgr) as [p |] eqn:Hp; touches_list.
  left. exact (Hopen this mgr p Hm Hp).
Qed.

Lemma endCall_touches s : tidy s -> Forall (touches s) (snd (endCall s)).
Proof.
  intros [Hopen _]. rewrite endCall_eq.
  assert (Forall (touches s) (end_notice s)) as Hn.
  { unfold end_notice. destruct (or_else _ _) as [peer |]; [| constructor].
    destruct (truthy peer); touches_list. }
  destruct (peerManagerRef s) as [m |]; [| cbn [snd]; touches_list; exact Hn].
  destruct (managers s !! m) as [mgr |] eqn:Hm; [| constructor].
  cbn [snd]. destruct (pcm_pc mgr) as [p |] eqn:Hp; touches_list;
    try exact Hn.
  left. exact (Hopen m mgr p Hm Hp).
Qed.

Lemma handleAnswer_touches B m a s :
  tidy s -> Forall (touches s) (snd (PeerConnectionManager.handleAnswer B m a s)).
Proof.
  intros [Hopen _]. rewrite handleAnswer_eq.
  destruct (managers s !! m) as [mgr |] eqn:Hm; [| constructor].
  destruct (pcm_pc mgr) as [p |] eqn:Hp; [| constructor].
  destruct (_ && _); cbn [snd]; touches_list;
    left; exact (Hopen m mgr p Hm Hp).
Qed.

Lemma handleIceCandidate_touches B m x s :
  tidy s ->
  Forall (touches s) (snd (PeerConnectionManager.handleIceCandidate B m x s)).
Proof.
  intros [Hopen _]. rewrite handleIceCandidate_eq.
  destruct (managers s !! m) as [mgr |] eqn:Hm; [| constructor].
  destruct (pcm_pc mgr) as [p |] eqn:Hp; [| constructor].
  destruct (_ && _); cbn [snd]; touches_list;
    left; exact (Hopen m mgr p Hm Hp).
Qed.

Lemma without_browser_calls e s eff :
  (forall p c, eff = Pc p c -> ~ calls e eff) -> calls e eff -> touches s eff.
Proof.
  intros H Hc. destruct eff as [| | p c | |]; try exact I.
  exfalso. exact (H p c eq_refl Hc).
Qed.

Lemma socket_receive_touches B name data s :
  tidy s -> Forall (touches s) (snd (socket_receive B name data s)).
Proof.
  intros Ht. unfold socket_receive.
  destruct (listener name socket_on) as [h |] eqn:E; [| constructor].
  unfold socket_on in E. cbn [listener] in E.
  destruct (String.eqb "me" name).
  { injection E as <-. unfold on_me.
    destruct data; unfold_M; cbn; touches_list. }
  destruct (String.eqb "call-made" name).
  { injection E as <-. unfold on_call_made.
    destruct data; unfold_M; cbn; touches_list. }
  destruct (String.eqb "answer-made" name).
  { injection E as <-. unfold on_answer_made.
    destruct data as [| | a | |]; try constructor.
    unfold_M. cbn.
    destruct (peerManagerRef s) as [m |]; [| cbn; touches_list].
    pose proof (handleAnswer_touches B m a s Ht) as H.
    destruct (PeerConnectionManager.handleAnswer B m a s) as [[r s'] t].
    cbn in *. constructor; [exact I | exact H]. }
  destruct (String.eqb "ice-candidate" name); [| discriminate E].
  injection E as <-. unfold on_ice_candidate.
  destruct data as [| | | cand |]; try constructor.
  unfold_M. cbn.
  destruct (peerManagerRef s) as [m |]; [| constructor].
  destruct cand as [x |]; [| constructor].
  pose proof (handleIceCandidate_touches B m x s Ht) as H.
  destruct (PeerConnectionManager.handleIceCandidate B m x s) as [[r s'] t].
  exact H.
Qed.

Lemma oniceconnectionstatechange_touches this s s1 :
  tidy s -> managers s1 = managers s ->
  Forall (touches s)
    (snd (PeerConnectionManager.oniceconnectionstatechange this s1)).
Proof.
  intros Ht Hms.
  unfold PeerConnectionManager.oniceconnectionstatechange,
    PeerConnectionManager.the_pc, PeerConnectionManager.field, pc_get,
    console.
  unfold_M. rewrite Hms.
  destruct (managers s !! this) as [mgr |] eqn:Hm; [| constructor].
  destruct (pcm_pc mgr) as [p |] eqn:Hp; [| constructor].
  cbn. rewrite Hms, Hm. cbn. rewrite Hp. cbn.
  destruct (pcs s1 !! p) as [c |]; cbn; [| touches_list].
  destruct (ice_eqb (pc_iceConnectionState c) ice_connected);
    [cbn; touches_list |].
  destruct (_ || _); [| cbn; touches_list].
  pose proof (close_touches this s (with_callStatus CallEnded s1) Ht Hms)
    as H.
  destruct (PeerConnectionManager.close this _) as [[r s'] t].
  cbn in *. touches_list. exact H.
Qed.

Lemma ice_state_changes_touches p st s :
  tidy s -> Forall (touches s) (snd (ice_state_changes p st s)).
Proof.
  intros Ht. unfold ice_state_changes, fire, pc_update. unfold_M. cbn.
  destruct (pcs s !! p) as [c |] eqn:Hc; [| constructor].
  destruct (_ || _); [constructor |].
  cbn. rewrite list_lookup_alter_eq, Hc. cbn.
  destruct (pc_isClosed c); [constructor |].
  destruct (pc_this c) as [this |]; [| constructor].
  pose proof (oniceconnectionstatechange_touches this s
                (with_pcs (alter (pc_with_iceConnectionState st) p (pcs s)) s)
                Ht eq_refl) as H.
  destruct (PeerConnectionManager.oniceconnectionstatechange this _)
    as [[r s'] t].
  exact H.
Qed.

Lemma step_touches B e s : tidy s -> Forall (touches s) (snd (step B e s)).
Proof.
  intros Ht. unfold step. rewrite exec_trace.
  destruct e as [v | | | | | name data | p st0 | p cand | p st];
    cbn [handle].
  - constructor.
  - erewrite bind_silent; [| reflexivity].
    destruct (call_disabled s); [constructor | apply startCall_touches].
  - erewrite bind_silent; [| reflexivity].
    destruct (dialog_shown s); [apply answerCall_touches | constructor].
  - erewrite bind_silent; [| reflexivity].
    destruct (dialog_shown s); [| constructor].
    unfold rejectCall. unfold_M. cbn. touches_list.
  - erewrite bind_silent; [| reflexivity].
    destruct (end_disabled s); [constructor | apply endCall_touches, Ht].
  - apply socket_receive_touches, Ht.
  - eapply Forall_impl; [exact (handle_calls B (RemoteTrack p st0) s) |].
    intros eff. apply without_browser_calls. intros q c -> Hc.
    destruct c; cbn in Hc;
      repeat match goal with
             | H : _ \/ _ |- _ => destruct H
             | H : exists _, _ |- _ => destruct H
             end; discriminate.
  - eapply Forall_impl; [exact (handle_calls B (LocalCandidate p cand) s) |].
    intros eff. apply without_browser_calls. intros q c -> Hc.
    destruct c; cbn in Hc;
      repeat match goal with
             | H : _ \/ _ |- _ => destruct H
             | H : exists _, _ |- _ => destruct H
             end; discriminate.
  - apply ice_state_changes_touches, Ht.
Qed.

Lemma calls_on_none p t :
  (forall call, ~ In (Pc p call) t) -> calls_on p t = [].
Proof.
  induction t as [| e t IH]; intros H; [reflexivity |].
  assert (calls_on p t = []) as Ht
    by (apply IH; intros call Hin; apply (H call); right; exact Hin).
  destruct e as [| | q c | |]; cbn; try exact Ht.
  destruct (Nat.eqb_spec q p) as [-> | _]; [| exact Ht].
  exfalso. apply (H c). left. reflexivity.
Qed.

Lemma frozen_trans c1 c2 c3 : frozen c1 c2 -> frozen c2 c3 -> frozen c1 c3.
Proof.
  intros (_ & A2 & A3 & A4 & A5) (B1 & B2 & B3 & B4 & B5).
  repeat split; congruence.
Qed.

Lemma step_leaves_closed_alone B e s p c call :
  tidy s -> pcs s !! p = Some c -> pc_isClosed c = true ->
  ~ In (Pc p call) (snd (step B e s)).
Proof.
  intros Ht Hc Hcl Hin.
  pose proof (step_touches B e s Ht) as H. rewrite Forall_forall in H.
  apply list_elem_of_In in Hin. specialize (H _ Hin). cbn in H.
  destruct H as [H | H].
  - unfold pc_open in H. rewrite Hc, Hcl in H. discriminate H.
  - apply lookup_lt_Some in Hc. lia.
Qed.

(** X15.  A connection the program has closed is left alone for good.
    From a tidy state (every reachable state is tidy), through any
    sequence of turns and whatever the browser answers, no method is
    called on a connection that is closed, not even [close] a second
    time (the program reaches a connection only through [this.pc] of a
    manager, and [close()] clears that field); so the connection stays
    closed and keeps its descriptions, senders and candidates. *)
Theorem closed_connection_is_never_used :
  forall (turns : list (Browser * Event)) (s : State) (p : nat)
         (c : RTCPeerConnection),
    tidy s ->
    pcs s !! p = Some c ->
    pc_isClosed c = true ->
    (forall call, ~ In (Pc p call) (snd (run turns s))) /\
    calls_on p (snd (run turns s)) = [] /\
    exists c', pcs (fst (run turns s)) !! p = Some c' /\ frozen c c'.
Proof.
  intros turns s p c Ht Hc Hcl.
  assert ((forall call, ~ In (Pc p call) (snd (run turns s))) /\
          exists c', pcs (fst (run turns s)) !! p = Some c' /\ frozen c c')
    as [H1 H2].
  { revert s c Ht Hc Hcl.
    induction turns as [| [B e] rest IH]; intros s c Ht Hc Hcl.
    - split; [intros call [] |]. exists c. split; [exact Hc |].
      repeat split; auto.
    - cbn [run].
      pose proof (fun call => step_leaves_closed_alone B e s p c call
                                Ht Hc Hcl) as Hno.
      pose proof (along_step (upholds tidy) B e s (handle_tidy B e) Ht)
        as Ht1.
      destruct (step_grows B e s) as (Hg & _).
      destruct (Hg p c Hc) as (c1 & Hc1 & F1). specialize (F1 Hcl).
      destruct (step B e s) as [s1 t1]. cbn [fst snd] in *.
      destruct (IH s1 c1 Ht1 Hc1 (proj1 F1)) as (IH1 & c' & Hc' & F2).
      destruct (run rest s1) as [s2 t2]. cbn [fst snd] in *.
      split.
      + intros call Hin. apply in_app_or in Hin as [Hin | Hin];
          [exact (Hno call Hin) | exact (IH1 call Hin)].
      + exists c'. split; [exact Hc' | exact (frozen_trans _ _ _ F1 F2)]. }
  split; [exact H1 |]. split; [apply calls_on_none, H1 | exact H2].
Qed.

Lemma closed_connection_is_never_used_witness :
  calls_on 0 (snd (run second_call (state_after local_hangs_up))) = [].
Proof.
  exact (proj1 (proj2 (closed_connection_is_never_used second_call
                         (state_after local_hangs_up) 0 _
                         (tidy_run local_hangs_up initial tidy_initial)
                         eq_refl eq_refl))).
Defined.

(** ** The end intent and the transports left behind *)

(** A failure reported by the open current connection of a manager
    writes Call Ended and then, through [close()], Idle. *)
Lemma failure_ends_in_idle B s p c m mgr st :
  pcs s !! p = Some c ->
  pc_isClosed c = false ->
  pc_this c = Some m ->
  managers s !! m = Some mgr ->
  pcm_pc mgr = Some p ->
  pc_iceConnectionState c <> st ->
  st = ice_failed \/ st = ice_disconnected ->
  callStatus (fst (step B (IceConnectionState p st) s)) = Idle /\
  status_writes (snd (step B (IceConnectionState p st) s)) = [CallEnded; Idle].
Proof.
  intros Hc Hcl Hthis Hm Hp Hne Hst.
  cut (let (s', t) := step B (IceConnectionState p st) s in
       callStatus s' = Idle /\ status_writes t = [CallEnded; Idle]).
  { destruct (step B (IceConnectionState p st) s) as [s' t]. auto. }
  assert (ice_eqb (pc_iceConnectionState c) st = false) as Hne'.
  { destruct (ice_eqb _ st) eqn:E; [| reflexivity].
    apply ice_eqb_eq in E. contradiction. }
  unfold step, handle, ice_state_changes, fire, pc_update.
  unfold mbind at 1. unfold M_bind, bind, get, exec.
  rewrite Hc, Hcl, Hne'.
  assert (ice_eqb st ice_closed = false) as Hnc
    by (destruct Hst; subst st; reflexivity).
  rewrite Hnc. cbn [orb].
  unfold_M. cbn [pcs with_pcs]. rewrite list_lookup_alter_eq, Hc.
  cbn [fmap option_fmap option_map pc_isClosed pc_this
         pc_with_iceConnectionState].
  rewrite Hcl, Hthis.
  unfold PeerConnectionManager.oniceconnectionstatechange,
    PeerConnectionManager.the_pc, PeerConnectionManager.field, pc_get.
  unfold_M. cbn [managers with_pcs]. rewrite Hm. cbn. rewrite Hp. cbn.
  rewrite Hm. cbn. rewrite Hp. cbn.
  rewrite list_lookup_alter_eq, Hc. cbn.
  assert (ice_eqb st ice_connected = false) as Hncn
    by (destruct Hst; subst st; reflexivity).
  assert (ice_eqb st ice_disconnected || ice_eqb st ice_failed = true) as Hd
    by (destruct Hst; subst st; reflexivity).
  rewrite Hncn, Hd. cbn.
  rewrite close_eq. cbn [managers with_callStatus with_pcs]. rewrite Hm.
  cbn. rewrite Hp. cbn. split; reflexivity.
Qed.

(** The end intent closes the manager in [peerManagerRef] and no other:
    a connection that another manager holds is as it was. *)
Lemma end_leaves_other_managers B s p c m mgr :
  wf s -> tidy s -> end_disabled s = false ->
  peerManagerRef s <> Some m ->
  pcs s !! p = Some c ->
  managers s !! m = Some mgr -> pcm_pc mgr = Some p ->
  pcs (fst (step B ClickEnd s)) !! p = Some c /\
  managers (fst (step B ClickEnd s)) !! m = Some mgr.
Proof.
  intros [Href _] [_ Hinj] Hen Hother Hc Hm Hp.
  assert (fst (step B ClickEnd s) = snd (fst (endCall s))) as ->.
  { unfold step. rewrite exec_state. cbn [handle].
    erewrite bind_silent; [| reflexivity]. rewrite Hen. reflexivity. }
  rewrite endCall_eq.
  destruct (peerManagerRef s) as [m0 |] eqn:Hm0.
  - specialize (Href m0 eq_refl).
    destruct (managers s !! m0) as [mgr0 |] eqn:Hmgr0.
    2:{ apply lookup_ge_None in Hmgr0. lia. }
    assert (m0 <> m) as Hne by congruence.
    cbn [fst snd]. unfold ended, closed. cbn.
    destruct (pcm_pc mgr0) as [p0 |] eqn:Hp0; cbn.
    + assert (p0 <> p) as Hnp.
      { intros ->. apply Hne.
        exact (Hinj m0 m mgr0 mgr p Hmgr0 Hm Hp0 Hp). }
      rewrite !list_lookup_alter_ne by assumption. split; assumption.
    + rewrite !list_lookup_alter_ne by assumption. split; assumption.
  - cbn. split; assumption.
Qed.

(** C5: what the code does.  In every well-formed state in which the
    end button is enabled the end intent releases first and publishes
    last: the turn ends in status Call Ended (see [end_intent]).  But
    the status does not stay: the end intent closes only the manager in
    [peerManagerRef], and a manager that an earlier Answer or Call left
    behind with an open connection still runs its transport callback;
    when that connection then reports [failed] or [disconnected], the
    callback writes Call Ended and, through [close()], Idle, so the
    status reverts from Call Ended to Idle.  In the run: a second call
    is answered during the first, the user hangs up (status Call
    Ended), the transport of the first call fails (status Idle). *)
Theorem C5_status_reverts_to_idle_after_end :
  (forall (B : Browser) (s : State),
      wf s -> end_disabled s = false ->
      let (s', t) := step B ClickEnd s in
      callStatus s' = CallEnded /\
      peerManagerRef s' = None /\
      last (status_writes t) = Some CallEnded /\
      (forall m mgr p,
          peerManagerRef s = Some m -> managers s !! m = Some mgr ->
          pcm_pc mgr = Some p ->
          pc_open p s' = false /\ exists t', t = Pc p Close :: t')) /\
  (forall (B1 B2 : Browser) (s : State) (p : nat) (c : RTCPeerConnection)
          (m : nat) (mgr : PeerConnectionManager)
          (st : RTCIceConnectionState),
      wf s -> tidy s -> end_disabled s = false ->
      peerManagerRef s <> Some m ->
      pcs s !! p = Some c -> pc_isClosed c = false -> pc_this c = Some m ->
      managers s !! m = Some mgr -> pcm_pc mgr = Some p ->
      pc_iceConnectionState c <> st ->
      st = ice_failed \/ st = ice_disconnected ->
      callStatus (fst (step B1 ClickEnd s)) = CallEnded /\
      callStatus
        (fst (step B2 (IceConnectionState p st) (fst (step B1 ClickEnd s))))
      = Idle /\
      status_writes
        (snd (step B2 (IceConnectionState p st) (fst (step B1 ClickEnd s))))
      = [CallEnded; Idle]) /\
  callStatus (state_after ended_second_call) = CallEnded /\
  pc_isClosed <$> pcs (state_after ended_second_call) = [false; true] /\
  callStatus (state_after orphan_fails_after_end) = Idle.
Proof.
  refine (conj _ (conj _ _)).
  - intros B s Hwf Hen. pose proof (end_intent B s Hwf Hen) as H.
    destruct (step B ClickEnd s) as [s' t].
    destruct H as (H1 & H2 & H3 & _ & H5).
    refine (conj H1 (conj H2 (conj H3 _))).
    intros m mgr p Hm Hmgr Hp.
    destruct (H5 m mgr Hm Hmgr) as (_ & H6 & _).
    destruct (H6 p Hp) as (H7 & t' & ->). split; [exact H7 |].
    eexists. reflexivity.
  - intros B1 B2 s p c m mgr st Hwf Ht Hen Hother Hc Hcl Hthis Hm Hp Hne Hst.
    destruct (end_leaves_other_managers B1 s p c m mgr Hwf Ht Hen Hother
                Hc Hm Hp) as [Hc1 Hm1].
    split.
    + pose proof (end_intent B1 s Hwf Hen) as H.
      destruct (step B1 ClickEnd s) as [s' t]. exact (proj1 H).
    + exact (failure_ends_in_idle B2 _ p c m mgr st Hc1 Hcl Hthis Hm1 Hp
               Hne Hst).
  - repeat split; vm_compute; reflexivity.
Qed.

Lemma C5_witness :
  callStatus
    (fst (step granting (IceConnectionState 0 ice_failed)
            (fst (step granting ClickEnd (state_after second_call)))))
  = Idle.
Proof.
  assert (peerManagerRef (state_after second_call) <> Some 0) as Hother
    by (intros F; discriminate F).
  assert (ice_connected <> ice_failed) as Hne by discriminate.
  exact (proj1 (proj2 (proj1 (proj2 C5_status_reverts_to_idle_after_end)
                         granting granting (state_after second_call) 0 _ 0 _
                         ice_failed (wf_state_after second_call)
                         (tidy_run second_call initial tidy_initial)
                         eq_refl Hother eq_refl eq_refl eq_refl eq_refl
                         eq_refl Hne (or_introl eq_refl)))).
Defined.

(** ** The microphone and camera buttons *)

Section MediaFacts.
Import Media.

Lemma has_kind_flip k t p q :
  has_kind k (flip_enabled t p) q = has_kind k p q.
Proof.
  unfold has_kind, flip_enabled. cbn.
  destruct (decide (t = q)) as [-> | Hne].
  - rewrite list_lookup_alter_eq. destruct (tracks p !! q); reflexivity.
  - rewrite list_lookup_alter_ne by exact Hne. reflexivity.
Qed.

Lemma filter_flip k t p stream :
  List.filter (has_kind k (flip_enabled t p)) stream
  = List.filter (has_kind k p) stream.
Proof. apply List.filter_ext. intros q. apply has_kind_flip. Qed.

Lemma head_filter_kind k p stream t :
  head (List.filter (has_kind k p) stream) = Some t -> has_kind k p t = true.
Proof.
  induction stream as [| q rest IH]; cbn; [discriminate |].
  destruct (has_kind k p q) eqn:E; [| exact IH].
  cbn. intros [= <-]. exact E.
Qed.

Lemma track_enabled_flip t p k :
  has_kind k p t = true ->
  track_enabled (flip_enabled t p) t = negb (track_enabled p t).
Proof.
  unfold has_kind, track_enabled, flip_enabled. cbn.
  rewrite list_lookup_alter_eq.
  destruct (tracks p !! t); [reflexivity | discriminate].
Qed.

Lemma track_enabled_flip_ne t p q :
  t <> q -> track_enabled (flip_enabled t p) q = track_enabled p q.
Proof.
  intros Hne. unfold track_enabled, flip_enabled. cbn.
  rewrite list_lookup_alter_ne by exact Hne. reflexivity.
Qed.

Lemma toggleMic_eq p t :
  audioTrack p = Some t ->
  toggleMic p = setIsMicMuted (track_enabled p t) (flip_enabled t p).
Proof.
  unfold audioTrack, toggleMic. destruct (localStream p) as [stream |]; cbn;
    [| discriminate].
  intros H. rewrite H. cbn zeta.
  rewrite (track_enabled_flip t p audio (head_filter_kind _ _ _ _ H)).
  rewrite negb_involutive. reflexivity.
Qed.

Lemma toggleCam_eq p t :
  videoTrack p = Some t ->
  toggleCam p = setIsCamOff (track_enabled p t) (flip_enabled t p).
Proof.
  unfold videoTrack, toggleCam. destruct (localStream p) as [stream |]; cbn;
    [| discriminate].
  intros H. rewrite H. cbn zeta.
  rewrite (track_enabled_flip t p video (head_filter_kind _ _ _ _ H)).
  rewrite negb_involutive. reflexivity.
Qed.

Lemma toggleMic_none p : audioTrack p = None -> toggleMic p = p.
Proof.
  unfold audioTrack, toggleMic. destruct (localStream p); cbn; [| reflexivity].
  intros ->. reflexivity.
Qed.

Lemma toggleCam_none p : videoTrack p = None -> toggleCam p = p.
Proof.
  unfold videoTrack, toggleCam. destruct (localStream p); cbn; [| reflexivity].
  intros ->. reflexivity.
Qed.

Lemma audioTrack_flip t p : audioTrack (flip_enabled t p) = audioTrack p.
Proof.
  unfold audioTrack. cbn. destruct (localStream p); cbn; [| reflexivity].
  unfold getAudioTracks. rewrite filter_flip. reflexivity.
Qed.

Lemma videoTrack_flip t p : videoTrack (flip_enabled t p) = videoTrack p.
Proof.
  unfold videoTrack. cbn. destruct (localStream p); cbn; [| reflexivity].
  unfold getVideoTracks. rewrite filter_flip. reflexivity.
Qed.

Lemma audioTrack_kind p t : audioTrack p = Some t -> has_kind audio p t = true.
Proof.
  unfold audioTrack. destruct (localStream p); cbn; [| discriminate].
  apply head_filter_kind.
Qed.

Lemma videoTrack_kind p t : videoTrack p = Some t -> has_kind video p t = true.
Proof.
  unfold videoTrack. destruct (localStream p); cbn; [| discriminate].
  apply head_filter_kind.
Qed.

Lemma kinds_differ p a v :
  has_kind audio p a = true -> has_kind video p v = true -> a <> v.
Proof.
  unfold has_kind. intros Ha Hv ->.
  destruct (tracks p !! v) as [[[] e] |]; cbn in *; discriminate.
Qed.

(** X18.  The microphone button flips [enabled] of the first audio
    track of the local stream and sets the flag to the track's new
    state, so that afterwards the flag says muted exactly when that
    track is disabled; no other track, not the stream and not the camera
    flag change.  Without a local stream, or without an audio track in
    it, the button does nothing. *)
Theorem toggleMic_flips_first_audio_track :
  forall (p : Page),
    (forall t,
        audioTrack p = Some t ->
        track_enabled (toggleMic p) t = negb (track_enabled p t) /\
        isMicMuted (toggleMic p) = negb (track_enabled (toggleMic p) t) /\
        audioTrack (toggleMic p) = Some t /\
        (forall q, q <> t ->
                   tracks (toggleMic p) !! q = tracks p !! q)) /\
    (audioTrack p = None -> toggleMic p = p) /\
    localStream (toggleMic p) = localStream p /\
    isCamOff (toggleMic p) = isCamOff p /\
    length (tracks (toggleMic p)) = length (tracks p).
Proof.
  intros p. destruct (audioTrack p) as [t |] eqn:E.
  - pose proof (audioTrack_kind p t E) as Hk.
    rewrite (toggleMic_eq p t E).
    split; [| split; [discriminate |]].
    + intros t' [= <-].
      change (track_enabled (setIsMicMuted _ ?x) t) with (track_enabled x t).
      rewrite (track_enabled_flip t p audio Hk). cbn.
      rewrite negb_involutive. repeat split.
      * change (audioTrack (flip_enabled t p) = Some t).
        rewrite audioTrack_flip. exact E.
      * intros q Hq. apply list_lookup_alter_ne. congruence.
    + cbn. repeat split. apply length_alter.
  - rewrite (toggleMic_none p E). repeat split; discriminate.
Qed.

Lemma toggleMic_witness :
  track_enabled (toggleMic streaming) 1 = false /\
  isMicMuted (toggleMic streaming) = true.
Proof.
  destruct (proj1 (toggleMic_flips_first_audio_track streaming) 1 eq_refl)
    as (H1 & H2 & _).
  split; [exact H1 | rewrite H2, H1; reflexivity].
Defined.

(** X19.  The camera button does the same with the first video track
    and the camera flag, and leaves the microphone flag alone. *)
Theorem toggleCam_flips_first_video_track :
  forall (p : Page),
    (forall t,
        videoTrack p = Some t ->
        track_enabled (toggleCam p) t = negb (track_enabled p t) /\
        isCamOff (toggleCam p) = negb (track_enabled (toggleCam p) t) /\
        videoTrack (toggleCam p) = Some t /\
        (forall q, q <> t ->
                   tracks (toggleCam p) !! q = tracks p !! q)) /\
    (videoTrack p = None -> toggleCam p = p) /\
    localStream (toggleCam p) = localStream p /\
    isMicMuted (toggleCam p) = isMicMuted p /\
    length (tracks (toggleCam p)) = length (tracks p).
Proof.
  intros p. destruct (videoTrack p) as [t |] eqn:E.
  - pose proof (videoTrack_kind p t E) as Hk.
    rewrite (toggleCam_eq p t E).
    split; [| split; [discriminate |]].
    + intros t' [= <-].
      change (track_enabled (setIsCamOff _ ?x) t) with (track_enabled x t).
      rewrite (track_enabled_flip t p video Hk). cbn.
      rewrite negb_involutive. repeat split.
      * change (videoTrack (flip_enabled t p) = Some t).
        rewrite videoTrack_flip. exact E.
      * intros q Hq. apply list_lookup_alter_ne. congruence.
    + cbn. repeat split. apply length_alter.
  - rewrite (toggleCam_none p E). repeat split; discriminate.
Qed.

Lemma toggleCam_witness :
  track_enabled (toggleCam streaming) 0 = false /\
  isCamOff (toggleCam streaming) = true.
Proof.
  destruct (proj1 (toggleCam_flips_first_video_track streaming) 0 eq_refl)
    as (H1 & H2 & _).
  split; [exact H1 | rewrite H2, H1; reflexivity].
Defined.

Lemma page_eta p :
  mkPage (tracks p) (localStream p) (isMicMuted p) (isCamOff p) = p.
Proof. destruct p. reflexivity. Qed.

Lemma toggleMic_twice_eq p t :
  audioTrack p = Some t ->
  toggleMic (toggleMic p) = setIsMicMuted (negb (track_enabled p t)) p.
Proof.
  intros E. rewrite (toggleMic_eq p t E).
  assert (audioTrack (setIsMicMuted (track_enabled p t) (flip_enabled t p))
          = Some t) as E1.
  { change (audioTrack (flip_enabled t p) = Some t).
    rewrite audioTrack_flip. exact E. }
  rewrite (toggleMic_eq _ t E1).
  change (track_enabled (setIsMicMuted _ ?x) t) with (track_enabled x t).
  rewrite (track_enabled_flip t p audio (audioTrack_kind p t E)).
  unfold setIsMicMuted, flip_enabled, with_tracks. cbn. f_equal.
  rewrite list_alter_alter_eq. apply list_alter_id.
  intros [k e]. unfold flip. cbn. rewrite negb_involutive. reflexivity.
Qed.

Lemma toggleCam_twice_eq p t :
  videoTrack p = Some t ->
  toggleCam (toggleCam p) = setIsCamOff (negb (track_enabled p t)) p.
Proof.
  intros E. rewrite (toggleCam_eq p t E).
  assert (videoTrack (setIsCamOff (track_enabled p t) (flip_enabled t p))
          = Some t) as E1.
  { change (videoTrack (flip_enabled t p) = Some t).
    rewrite videoTrack_flip. exact E. }
  rewrite (toggleCam_eq _ t E1).
  change (track_enabled (setIsCamOff _ ?x) t) with (track_enabled x t).
  rewrite (track_enabled_flip t p video (videoTrack_kind p t E)).
  unfold setIsCamOff, flip_enabled, with_tracks. cbn. f_equal.
  rewrite list_alter_alter_eq. apply list_alter_id.
  intros [k e]. unfold flip. cbn. rewrite negb_involutive. reflexivity.
Qed.

(** X20.  Pressing a button twice restores every track; it restores the
    whole page when the flag agreed with the track before (muted exactly
    when the first audio track is disabled, and likewise for the
    camera).  As the first press makes the flag agree, three presses are
    one press. *)
Theorem toggling_twice :
  forall (p : Page),
    tracks (toggleMic (toggleMic p)) = tracks p /\
    tracks (toggleCam (toggleCam p)) = tracks p /\
    (forall t, audioTrack p = Some t ->
               isMicMuted p = negb (track_enabled p t) ->
               toggleMic (toggleMic p) = p) /\
    (forall t, videoTrack p = Some t ->
               isCamOff p = negb (track_enabled p t) ->
               toggleCam (toggleCam p) = p) /\
    toggleMic (toggleMic (toggleMic p)) = toggleMic p /\
    toggleCam (toggleCam (toggleCam p)) = toggleCam p.
Proof.
  intros p.
  assert (forall t, audioTrack p = Some t ->
                    isMicMuted p = negb (track_enabled p t) ->
                    toggleMic (toggleMic p) = p) as HM.
  { intros t E Hs. rewrite (toggleMic_twice_eq p t E), <- Hs.
    apply page_eta. }
  assert (forall t, videoTrack p = Some t ->
                    isCamOff p = negb (track_enabled p t) ->
                    toggleCam (toggleCam p) = p) as HC.
  { intros t E Hs. rewrite (toggleCam_twice_eq p t E), <- Hs.
    apply page_eta. }
  refine (conj _ (conj _ (conj HM (conj HC (conj _ _))))).
  - destruct (audioTrack p) as [t |] eqn:E.
    + rewrite (toggleMic_twice_eq p t E). reflexivity.
    + rewrite !(toggleMic_none p E). reflexivity.
  - destruct (videoTrack p) as [t |] eqn:E.
    + rewrite (toggleCam_twice_eq p t E). reflexivity.
    + rewrite !(toggleCam_none p E). reflexivity.
  - destruct (audioTrack p) as [t |] eqn:E.
    + rewrite (toggleMic_twice_eq p t E).
      assert (audioTrack (setIsMicMuted (negb (track_enabled p t)) p)
              = Some t) as E1 by exact E.
      rewrite (toggleMic_eq _ t E1), (toggleMic_eq p t E). reflexivity.
    + rewrite !(toggleMic_none p E). reflexivity.
  - destruct (videoTrack p) as [t |] eqn:E.
    + rewrite (toggleCam_twice_eq p t E).
      assert (videoTrack (setIsCamOff (negb (track_enabled p t)) p)
              = Some t) as E1 by exact E.
      rewrite (toggleCam_eq _ t E1), (toggleCam_eq p t E). reflexivity.
    + rewrite !(toggleCam_none p E). reflexivity.
Qed.

Lemma toggling_twice_witness : toggleMic (toggleMic streaming) = streaming.
Proof.
  exact (proj1 (proj2 (proj2 (toggling_twice streaming))) 1 eq_refl eq_refl).
Defined.

(** X21.  The two buttons are independent: pressing them in either
    order gives the same page. *)
Theorem toggles_commute :
  forall (p : Page), toggleMic (toggleCam p) = toggleCam (toggleMic p).
Proof.
  intros p.
  destruct (audioTrack p) as [a |] eqn:Ea;
    destruct (videoTrack p) as [v |] eqn:Ev.
  - pose proof (kinds_differ p a v (audioTrack_kind p a Ea)
                  (videoTrack_kind p v Ev)) as Hne.
    rewrite (toggleCam_eq p v Ev), (toggleMic_eq p a Ea).
    assert (audioTrack (setIsCamOff (track_enabled p v) (flip_enabled v p))
            = Some a) as Ea1.
    { change (audioTrack (flip_enabled v p) = Some a).
      rewrite audioTrack_flip. exact Ea. }
    assert (videoTrack (setIsMicMuted (track_enabled p a) (flip_enabled a p))
            = Some v) as Ev1.
    { change (videoTrack (flip_enabled a p) = Some v).
      rewrite videoTrack_flip. exact Ev. }
    rewrite (toggleMic_eq _ a Ea1), (toggleCam_eq _ v Ev1).
    change (track_enabled (setIsCamOff _ ?x) a) with (track_enabled x a).
    change (track_enabled (setIsMicMuted _ ?x) v) with (track_enabled x v).
    rewrite (track_enabled_flip_ne v p a) by congruence.
    rewrite (track_enabled_flip_ne a p v) by congruence.
    unfold setIsMicMuted, setIsCamOff, flip_enabled, with_tracks. cbn.
    f_equal. apply list_alter_alter_ne. exact Hne.
  - rewrite (toggleCam_none p Ev), (toggleMic_eq p a Ea).
    symmetry. apply toggleCam_none.
    change (videoTrack (flip_enabled a p) = None).
    rewrite videoTrack_flip. exact Ev.
  - rewrite (toggleMic_none p Ea), (toggleCam_eq p v Ev).
    apply toggleMic_none.
    change (audioTrack (flip_enabled v p) = None).
    rewrite audioTrack_flip. exact Ea.
  - rewrite (toggleCam_none p Ev), (toggleMic_none p Ea).
    rewrite (toggleCam_none p Ev). reflexivity.
Qed.

End MediaFacts.
